(** * wds: a shallow embedding of the reload controller, the sync bridge,
      the SWC compile cache, the IPC routes and the supervisor

    The development follows the TypeScript/JavaScript sources:
    - [Project]      Project.ts (reload batches, debounce, reloadNow)
    - [SyncWorker]   SyncWorker.ts (main-thread [call], worker [handleCall])
    - [SwcCompiler]  SwcCompiler.js (CompiledFiles, compile, globbing)
    - [Index]        index.ts (options, startIPCServer, startFilesystemWatcher)
    - [Supervisor]   Supervisor.ts (stop / kill)

    JavaScript is run-to-completion: a synchronous stretch of code is one
    atomic step, and other callbacks interleave only at an [await] or between
    events.  Asynchronous functions are therefore modelled as steps that end
    at their next [await]; collaborators that live outside the modelled files
    (the Compiler behind the Project, globby, find-root, @swc/core, chokidar,
    lodash.debounce, Atomics, child_process) appear as explicit oracles or as
    small documented models of their published behaviour. *)

From Stdlib Require Import Ascii String List ZArith Bool Lia.
From stdpp Require Import base strings list gmap pretty.

Open Scope string_scope.
Open Scope list_scope.

(* ================================================================== *)
(** * Definitions *)
(* ================================================================== *)

(** ** Strings as JavaScript uses them *)

(** [s.includes(pat)] *)
Definition includes (pat s : string) : bool :=
  match String.index 0 pat s with
  | Some _ => true
  | None => false
  end.

(** [s.replace(pat, repl)] for a string pattern: only the first occurrence
    is replaced; [repl] is used literally (the callers pass the empty
    string). *)
Definition replace (pat repl s : string) : string :=
  match String.index 0 pat s with
  | Some i =>
      String.substring 0 i s +:+ repl +:+
      String.substring (i + String.length pat)
                       (String.length s - (i + String.length pat)) s
  | None => s
  end.

(** [Array.prototype.includes] on an array of strings *)
Definition arr_includes (x : string) (l : list string) : bool :=
  existsb (String.eqb x) l.


(** ** Traces *)

(** [only_after a b tr]: wherever [b] occurs in the trace (oldest event
    first), [a] occurred earlier. *)
Definition only_after {A} (a b : A) (tr : list A) : Prop :=
  forall l1 l2, tr = l1 ++ b :: l2 -> In a l1.

(* ------------------------------------------------------------------ *)
(** ** Project.ts: the reload controller *)

Module Project.

(** [interface ReloadBatch] *)
Record ReloadBatch := mkBatch { paths : list string; invalidate : bool }.

Definition emptyBatch : ReloadBatch := mkBatch [] false.

(** The two awaited operations of the [Compiler] behind the project. *)
Inductive CompilerOp := InvalidateBuildSet | Rebuild.

(** What an observer of the project sees, tagged with the index [k] of the
    flush (one invocation of [reloadNow] or [invalidateBuildSetAndReload])
    that produced it.  [Called k op] is the invocation of
    [this.compiler.op()]; [Settled k op ok] is the point where the awaited
    promise resolves ([ok = true]) or rejects and the flush resumes. *)
Inductive Event :=
| LogInfo (k : nat) (msg : string)
| Snapshot (k : nat) (inv : bool)      (* const invalidate = this.currentBatch.invalidate *)
| BatchReset (k : nat)                 (* this.currentBatch = { paths: [], invalidate: false } *)
| Called (k : nat) (op : CompilerOp)
| Settled (k : nat) (op : CompilerOp) (ok : bool)
| Restart (k : nat)                    (* this.supervisor.restart() *)
| TypeError (k : nat).                 (* paths[0] is undefined: .replace throws *)

Definition event_flush (e : Event) : nat :=
  match e with
  | LogInfo k _ | Snapshot k _ | BatchReset k | Called k _
  | Settled k _ _ | Restart k | TypeError k => k
  end.

Inductive Origin := FromBatch (* reloadNow *) | Unconditional (* invalidateBuildSetAndReload *).

(** Where an asynchronous flush currently is. *)
Inductive Phase :=
| AwaitInvalidate            (* suspended in  await this.compiler.invalidateBuildSet() *)
| AwaitRebuild               (* suspended in  await this.compiler.rebuild() *)
| Completed                  (* ran through supervisor.restart() *)
| Rejected (op : CompilerOp) (* the awaited promise rejected; the async function rejected *)
| Threw.                     (* reloadNow threw before its first await *)

Record Flush := mkFlush {
  origin : Origin;
  summary : string;           (* the line handed to log.info *)
  local_invalidate : bool;    (* the local [const invalidate]; [true] for the
                                 unconditional invalidateBuildSetAndReload *)
  phase : Phase }.

Record State := mkState {
  currentBatch : ReloadBatch;
  debouncePending : bool;     (* lodash.debounce: a trailing invocation is scheduled *)
  flushes : list Flush;
  trace : list Event }.       (* oldest event first *)

Definition init : State := mkState emptyBatch false [] [].

(** The argument of [log.info]: [compact([...]).join("")].  [compact]
    drops the falsy entries ([false], and the empty string, which joins to
    nothing anyway). *)
Definition message (workspaceRoot first : string) (b : ReloadBatch) : string :=
  replace workspaceRoot "" first
  +:+ (if Nat.ltb 1 (length (paths b))
       then " and " +:+ pretty (length (paths b) - 1) +:+ " others" else "")
  +:+ " changed, "
  +:+ (if invalidate b then "reinitializing and " else "")
  +:+ "restarting ...".

Section Controller.
Variable workspaceRoot : string.

(** [enqueueReload(path, requiresInvalidation)]; the call of
    [this.debouncedReload()] (re)arms the 15 ms trailing-edge timer. *)
Definition enqueueReload (path : string) (requiresInvalidation : bool)
    (st : State) : State :=
  let b := currentBatch st in
  mkState (mkBatch (paths b ++ [path]) (invalidate b || requiresInvalidation))
          true (flushes st) (trace st).

(** [reloadNow()] up to its first [await]. *)
Definition reloadNow (st : State) : State :=
  let k := length (flushes st) in
  let b := currentBatch st in
  match paths b with
  | [] =>
      (* this.currentBatch.paths[0] is undefined *)
      mkState b (debouncePending st)
              (flushes st ++ [mkFlush FromBatch "" false Threw])
              (trace st ++ [TypeError k])
  | first :: _ =>
      let msg := message workspaceRoot first b in
      let inv := invalidate b in
      let op := if inv then InvalidateBuildSet else Rebuild in
      mkState emptyBatch (debouncePending st)
              (flushes st ++
                 [mkFlush FromBatch msg inv
                    (if inv then AwaitInvalidate else AwaitRebuild)])
              (trace st ++
                 [LogInfo k msg; Snapshot k inv; BatchReset k; Called k op])
  end.

(** [invalidateBuildSetAndReload()] up to its first [await]. *)
Definition invalidateBuildSetAndReload (st : State) : State :=
  let k := length (flushes st) in
  mkState (currentBatch st) (debouncePending st)
          (flushes st ++ [mkFlush Unconditional "" true AwaitInvalidate])
          (trace st ++ [Called k InvalidateBuildSet]).

Definition set_phase (k : nat) (p : Phase) (fs : list Flush) : list Flush :=
  match fs !! k with
  | Some f => <[k := mkFlush (origin f) (summary f) (local_invalidate f) p]> fs
  | None => fs
  end.

(** Flush [k] resumes because the promise it awaits has settled; it runs
    to its next [await] or to its end. *)
Definition resume (k : nat) (ok : bool) (st : State) : State :=
  match flushes st !! k with
  | Some f =>
      match phase f with
      | AwaitInvalidate =>
          if ok then
            mkState (currentBatch st) (debouncePending st)
                    (set_phase k AwaitRebuild (flushes st))
                    (trace st ++ [Settled k InvalidateBuildSet true; Called k Rebuild])
          else
            mkState (currentBatch st) (debouncePending st)
                    (set_phase k (Rejected InvalidateBuildSet) (flushes st))
                    (trace st ++ [Settled k InvalidateBuildSet false])
      | AwaitRebuild =>
          if ok then
            mkState (currentBatch st) (debouncePending st)
                    (set_phase k Completed (flushes st))
                    (trace st ++ [Settled k Rebuild true; Restart k])
          else
            mkState (currentBatch st) (debouncePending st)
                    (set_phase k (Rejected Rebuild) (flushes st))
                    (trace st ++ [Settled k Rebuild false])
      | _ => st
      end
  | None => st
  end.

(** The debounce timer expires.  lodash's trailing-edge [debounce] invokes
    the wrapped function only if the debounced function was called since
    its last invocation; an expiry with nothing pending does not exist. *)
Definition debounceTimerFires (st : State) : State :=
  if debouncePending st
  then reloadNow (mkState (currentBatch st) false (flushes st) (trace st))
  else st.

(** Everything that can happen to a project, one event-loop turn each. *)
Inductive Action :=
| Enqueue (path : string) (requiresInvalidation : bool) (* watcher event *)
| TimerFires
| RsCommand                                             (* boot, or "rs" on stdin *)
| Settle (k : nat) (ok : bool).

Definition step (st : State) (a : Action) : State :=
  match a with
  | Enqueue p r => enqueueReload p r st
  | TimerFires => debounceTimerFires st
  | RsCommand => invalidateBuildSetAndReload st
  | Settle k ok => resume k ok st
  end.

Definition run (acts : list Action) (st : State) : State :=
  fold_left step acts st.

End Controller.

(** The events of flush [k], in the order they happened. *)
Definition events_of (k : nat) (tr : list Event) : list Event :=
  List.filter (fun e => Nat.eqb (event_flush e) k) tr.

(** The events a flush has produced, as a function of the point it has
    reached.  Read top to bottom this is the body of [reloadNow]
    (respectively [invalidateBuildSetAndReload]). *)
Definition prologue (k : nat) (f : Flush) : list Event :=
  match origin f with
  | FromBatch =>
      [LogInfo k (summary f); Snapshot k (local_invalidate f); BatchReset k]
  | Unconditional => []
  end.

Definition invalidation (k : nat) (f : Flush) : list Event :=
  if local_invalidate f
  then [Called k InvalidateBuildSet; Settled k InvalidateBuildSet true]
  else [].

Definition expected (k : nat) (f : Flush) : list Event :=
  match phase f with
  | Threw => [TypeError k]
  | AwaitInvalidate => prologue k f ++ [Called k InvalidateBuildSet]
  | Rejected InvalidateBuildSet =>
      prologue k f ++ [Called k InvalidateBuildSet; Settled k InvalidateBuildSet false]
  | AwaitRebuild => prologue k f ++ invalidation k f ++ [Called k Rebuild]
  | Rejected Rebuild =>
      prologue k f ++ invalidation k f ++ [Called k Rebuild; Settled k Rebuild false]
  | Completed =>
      prologue k f ++ invalidation k f ++
      [Called k Rebuild; Settled k Rebuild true; Restart k]
  end.

(** A flush waits for an invalidation only if its flag told it to. *)
Definition flush_wf (f : Flush) : Prop :=
  match phase f with
  | AwaitInvalidate | Rejected InvalidateBuildSet => local_invalidate f = true
  | Threw => local_invalidate f = false
  | _ => True
  end.

(** The invariant behind the ordering guarantee: every flush has produced
    exactly the events [expected] lists for the point it has reached, and no
    event belongs to a flush that does not exist yet. *)
Definition flush_inv (fs : list Flush) (tr : list Event) : Prop :=
  (forall k f, fs !! k = Some f -> events_of k tr = expected k f /\ flush_wf f) /\
  Forall (fun e => event_flush e < length fs) tr.

(** The invariant behind the debounce: a scheduled invocation always finds
    a path in the batch. *)
Definition debounce_inv (st : State) : Prop :=
  debouncePending st = true -> paths (currentBatch st) <> [].

Definition no_type_error (st : State) : Prop :=
  forall k, ~ In (TypeError k) (trace st).

(** After [tr], flush [j] has compile work under way: it has called the
    compiler, and neither has its rebuild settled nor its invalidation been
    rejected. *)
Definition compiling (j : nat) (tr : list Event) : bool :=
  existsb (fun e => match e with
                    | Called j' _ => Nat.eqb j' j
                    | _ => false
                    end) tr
  && negb (existsb (fun e => match e with
                             | Settled j' Rebuild _ => Nat.eqb j' j
                             | Settled j' InvalidateBuildSet false => Nat.eqb j' j
                             | _ => false
                             end) tr).

(** After [tr], the build-set is partially compiled: some flush has compile
    work under way. *)
Definition partially_compiled (tr : list Event) : bool :=
  existsb (fun e => compiling (event_flush e) tr) tr.

(** Some [supervisor.restart()] of the trace [before ++ rest], among those in
    [rest], happens while the build-set is partially compiled. *)
Fixpoint restart_observes_partial (before rest : list Event) : bool :=
  match rest with
  | [] => false
  | e :: rest' =>
      (match e with Restart _ => partially_compiled before | _ => false end)
      || restart_observes_partial (before ++ [e]) rest'
  end.

End Project.

(* ------------------------------------------------------------------ *)
(** ** SyncWorker.ts: the synchronous bridge *)

Module SyncWorker.

(** Values that cross the message channel.  They are plain data, so
    [postMessage] can always clone them. *)
Inductive JsValue :=
| VUndefined
| VNull
| VBool (b : bool)
| VNumber (n : Z)
| VString (s : string)
| VError (message : string).

(** JavaScript truthiness, as [if (response.error)] uses it. *)
Definition truthy (v : JsValue) : bool :=
  match v with
  | VUndefined | VNull => false
  | VBool b => b
  | VNumber n => negb (Z.eqb n 0)
  | VString s => negb (String.eqb s "")
  | VError _ => true
  end.

(** [interface SyncWorkerCall]; the shared buffer is a reference into the
    shared memory. *)
Record SyncWorkerCall := mkCall {
  call_id : Z;
  args : list JsValue;
  sharedBuffer : nat }.

(** [interface SyncWorkerResponse]; a property the worker leaves out reads
    as [undefined]. *)
Record SyncWorkerResponse := mkResponse {
  id : Z;
  result : JsValue;
  error : JsValue }.

(** How [call] ends: [return v] or [throw v]. *)
Inductive Outcome :=
| Returned (v : JsValue)
| Thrown (v : JsValue).

(** Programs over a set of primitive operations: [Do op k] performs [op]
    and continues with [k] applied to its result. *)
Inductive Prog (Op : Type -> Type) (R : Type) : Type :=
| Ret (r : R)
| Do {X : Type} (op : Op X) (k : X -> Prog Op R).
Arguments Ret {Op R} r.
Arguments Do {Op R X} op k.

(** What [call] does to the world. *)
Inductive MainOp : Type -> Type :=
| NextId : MainOp Z                                   (* this.idCounter++ *)
| NewSharedArrayBuffer (bytes : nat) : MainOp nat     (* zero-filled *)
| PostMessage (c : SyncWorkerCall) : MainOp unit      (* this.port.postMessage(call) *)
| AtomicsWait (buffer index : nat) (expected timeout : Z) : MainOp string
| ReceiveMessageOnPort : MainOp (option SyncWorkerResponse).

(** What [handleCall] does to the world.  The awaited
    [implementation(...call.args)] resolves with a result ([inl]) or
    rejects with an error ([inr]). *)
Inductive WorkerOp : Type -> Type :=
| Implementation (a : list JsValue) : WorkerOp (JsValue + JsValue)
| PostResponse (r : SyncWorkerResponse) : WorkerOp unit   (* port.postMessage *)
| AtomicsAdd (buffer index : nat) (v : Z) : WorkerOp Z
| AtomicsNotify (buffer index : nat) : WorkerOp nat.      (* count = Infinity *)

Definition timed_out_message : string :=
  "[esbuild-dev] Internal error: timed out communicating with esbuild-dev sync worker thread, likely an esbuild-dev bug".

Definition wait_failed_message (status : string) : string :=
  "[esbuild-dev] Internal error: Atomics.wait() failed with status " +:+ status.

Definition no_response_message : string :=
  "[esbuild-dev] Internal error: no response received from sync worker thread".

Definition incorrect_id_message (sent received : Z) : string :=
  "[esbuild-dev] Internal error: response received from sync worker thread with incorrect id, sent "
  +:+ pretty sent +:+ ", recieved " +:+ pretty received.

(** [SyncWorker.call], from the received message on. *)
Definition after_receive (sent : Z) (message : option SyncWorkerResponse) : Outcome :=
  match message with
  | None => Thrown (VError no_response_message)
  | Some response =>
      if negb (Z.eqb (id response) sent)
      then Thrown (VError (incorrect_id_message sent (id response)))
      else if truthy (error response) then Thrown (error response)
      else Returned (result response)
  end.

(** [SyncWorker.call], from the status of [Atomics.wait] on. *)
Definition after_wait (sent : Z) (status : string) : Prog MainOp Outcome :=
  if String.eqb status "timed-out"
  then Ret (Thrown (VError timed_out_message))
  else if negb (String.eqb status "ok") && negb (String.eqb status "not-equal")
  then Ret (Thrown (VError (wait_failed_message status)))
  else Do ReceiveMessageOnPort (fun message => Ret (after_receive sent message)).

(** [SyncWorker.call(...args)] *)
Definition call (a : list JsValue) : Prog MainOp Outcome :=
  Do NextId (fun id =>
  Do (NewSharedArrayBuffer 8) (fun buffer =>
  Do (PostMessage (mkCall id a buffer)) (fun _ =>
  Do (AtomicsWait buffer 0 0 60000) (after_wait id)))).

(** The tail of [handleCall]: first change the shared value, then wake the
    main thread. *)
Definition wake (c : SyncWorkerCall) : Prog WorkerOp unit :=
  Do (AtomicsAdd (sharedBuffer c) 0 1) (fun _ =>
  Do (AtomicsNotify (sharedBuffer c) 0) (fun _ =>
  Ret tt)).

(** [handleCall], from the settled implementation on: the [try] branch
    posts the result, the [catch] branch posts the error. *)
Definition respond (c : SyncWorkerCall) (outcome : JsValue + JsValue)
    : Prog WorkerOp unit :=
  match outcome with
  | inl result =>
      Do (PostResponse (mkResponse (call_id c) result VUndefined)) (fun _ => wake c)
  | inr error =>
      Do (PostResponse (mkResponse (call_id c) VUndefined error)) (fun _ => wake c)
  end.

(** [handleCall(call)].  The telemetry wrappers [traceStartingFromContext]
    and [trace] run their callback and pass its outcome through; the
    debug-file writes are fire-and-forget and left out. *)
Definition handleCall (c : SyncWorkerCall) : Prog WorkerOp unit :=
  Do (Implementation (args c)) (respond c).

(** *** [call] against a given environment

    The main thread alone: [Atomics.wait] returns the status the environment
    decides on, and [receiveMessageOnPort] takes the oldest message of the
    port. *)
Record MainView := mkView {
  view_idCounter : Z;
  view_buffers : nat;                     (* shared buffers allocated so far *)
  view_sent : list SyncWorkerCall;        (* calls posted to the worker *)
  view_inbox : list SyncWorkerResponse }. (* responses waiting on the port *)

Fixpoint run_main {R} (status : string) (p : Prog MainOp R) (v : MainView)
    : R * MainView :=
  match p with
  | Ret r => (r, v)
  | Do op k =>
      match op in MainOp X return (X -> Prog MainOp R) -> R * MainView with
      | NextId => fun k =>
          run_main status (k (view_idCounter v))
            (mkView (view_idCounter v + 1) (view_buffers v) (view_sent v) (view_inbox v))
      | NewSharedArrayBuffer _ => fun k =>
          run_main status (k (view_buffers v))
            (mkView (view_idCounter v) (S (view_buffers v)) (view_sent v) (view_inbox v))
      | PostMessage c => fun k =>
          run_main status (k tt)
            (mkView (view_idCounter v) (view_buffers v) (view_sent v ++ [c]) (view_inbox v))
      | AtomicsWait _ _ _ _ => fun k => run_main status (k status) v
      | ReceiveMessageOnPort => fun k =>
          run_main status (k (head (view_inbox v)))
            (mkView (view_idCounter v) (view_buffers v) (view_sent v) (tail (view_inbox v)))
      end k
  end.

(** *** The two threads together *)

(** Shared memory: each [SharedArrayBuffer], seen through its [Int32Array]
    view. *)
Abbreviation Memory := (list (list Z)).

Definition load (b i : nat) (m : Memory) : option Z :=
  match m !! b with
  | Some view => view !! i
  | None => None
  end.

Definition store (b i : nat) (v : Z) (m : Memory) : Memory :=
  match m !! b with
  | Some view => <[b := <[i := v]> view]> m
  | None => m
  end.

(** Conversion to a signed 32-bit integer, as an [Int32Array] stores. *)
Definition int32 (z : Z) : Z := (z + 2 ^ 31) mod 2 ^ 32 - 2 ^ 31.

Inductive Event :=
| Allocated (b : nat)                    (* main: new SharedArrayBuffer(8) *)
| CallPosted (c : SyncWorkerCall)        (* main: port.postMessage(call) *)
| WaitBlocked (b : nat)                  (* main: Atomics.wait goes to sleep *)
| WaitReturned (b : nat) (status : string)
| CallEnded (o : Outcome)
| ResponsePosted (r : SyncWorkerResponse)(* worker: port.postMessage(response) *)
| Added (b : nat)                        (* worker: Atomics.add(view, 0, 1) *)
| Notified (b : nat).                    (* worker: Atomics.notify(view, 0, Infinity) *)

Inductive MainThread :=
| Idle
| Running (p : Prog MainOp Outcome)
| Blocked (b i : nat) (k : string -> Prog MainOp Outcome). (* asleep in Atomics.wait *)

Record Sys := mkSys {
  idCounter : Z;
  memory : Memory;
  port2 : list SyncWorkerCall;       (* messages on their way to the worker *)
  port1 : list SyncWorkerResponse;   (* messages on their way to the main thread *)
  main : MainThread;
  tasks : list (Prog WorkerOp unit); (* the invocations of handleCall *)
  trace : list Event }.              (* oldest event first *)

Definition init : Sys := mkSys 0 [] [] [] Idle [] [].

(** One operation of the main thread.  [Atomics.wait] compares the slot
    with the expected value: if they differ it returns "not-equal" at once,
    otherwise the thread goes to sleep. *)
Definition main_step (s : Sys) : option Sys :=
  match main s with
  | Running (Ret o) =>
      Some (mkSys (idCounter s) (memory s) (port2 s) (port1 s) Idle (tasks s)
                  (trace s ++ [CallEnded o]))
  | Running (Do op k) =>
      match op in MainOp X
            return (X -> Prog MainOp Outcome) -> option Sys with
      | NextId => fun k =>
          Some (mkSys (idCounter s + 1) (memory s) (port2 s) (port1 s)
                      (Running (k (idCounter s))) (tasks s) (trace s))
      | NewSharedArrayBuffer bytes => fun k =>
          let b := length (memory s) in
          Some (mkSys (idCounter s) (memory s ++ [replicate (bytes / 4) 0%Z])
                      (port2 s) (port1 s) (Running (k b)) (tasks s)
                      (trace s ++ [Allocated b]))
      | PostMessage c => fun k =>
          Some (mkSys (idCounter s) (memory s) (port2 s ++ [c]) (port1 s)
                      (Running (k tt)) (tasks s) (trace s ++ [CallPosted c]))
      | AtomicsWait b i expected _ => fun k =>
          match load b i (memory s) with
          | Some v =>
              if Z.eqb v expected
              then Some (mkSys (idCounter s) (memory s) (port2 s) (port1 s)
                               (Blocked b i k) (tasks s)
                               (trace s ++ [WaitBlocked b]))
              else Some (mkSys (idCounter s) (memory s) (port2 s) (port1 s)
                               (Running (k "not-equal")) (tasks s)
                               (trace s ++ [WaitReturned b "not-equal"]))
          | None => None
          end
      | ReceiveMessageOnPort => fun k =>
          Some (mkSys (idCounter s) (memory s) (port2 s) (tail (port1 s))
                      (Running (k (head (port1 s)))) (tasks s) (trace s))
      end k
  | _ => None
  end.

(** The 60 000 ms pass while the main thread sleeps. *)
Definition wait_times_out (s : Sys) : option Sys :=
  match main s with
  | Blocked b i k =>
      Some (mkSys (idCounter s) (memory s) (port2 s) (port1 s)
                  (Running (k "timed-out")) (tasks s)
                  (trace s ++ [WaitReturned b "timed-out"]))
  | _ => None
  end.

(** The worker's port delivers the oldest call to the "message" listener,
    which starts [handleCall]. *)
Definition deliver (s : Sys) : option Sys :=
  match port2 s with
  | c :: rest =>
      Some (mkSys (idCounter s) (memory s) rest (port1 s) (main s)
                  (tasks s ++ [handleCall c]) (trace s))
  | [] => None
  end.

(** The [handleCall] invocation number [n]. *)
Definition task (n : nat) (s : Sys) : option (Prog WorkerOp unit) :=
  tasks s !! n.

(** One operation of the [handleCall] invocation number [n]; [outcome] is
    how the implementation settles, if that is the operation.
    [Atomics.notify] wakes the main thread if it sleeps on that slot. *)
Definition worker_step (n : nat) (outcome : JsValue + JsValue) (s : Sys)
    : option Sys :=
  match task n s with
  | Some (Do op k) =>
      match op in WorkerOp X
            return (X -> Prog WorkerOp unit) -> option Sys with
      | Implementation _ => fun k =>
          Some (mkSys (idCounter s) (memory s) (port2 s) (port1 s) (main s)
                      (<[n := k outcome]> (tasks s)) (trace s))
      | PostResponse r => fun k =>
          Some (mkSys (idCounter s) (memory s) (port2 s) (port1 s ++ [r]) (main s)
                      (<[n := k tt]> (tasks s)) (trace s ++ [ResponsePosted r]))
      | AtomicsAdd b i v => fun k =>
          match load b i (memory s) with
          | Some old =>
              Some (mkSys (idCounter s) (store b i (int32 (old + v)) (memory s))
                          (port2 s) (port1 s) (main s)
                          (<[n := k old]> (tasks s)) (trace s ++ [Added b]))
          | None => None
          end
      | AtomicsNotify b i => fun k =>
          match main s with
          | Blocked b' i' k' =>
              if Nat.eqb b b' && Nat.eqb i i'
              then Some (mkSys (idCounter s) (memory s) (port2 s) (port1 s)
                               (Running (k' "ok")) (<[n := k 1]> (tasks s))
                               (trace s ++ [Notified b; WaitReturned b "ok"]))
              else Some (mkSys (idCounter s) (memory s) (port2 s) (port1 s)
                               (main s) (<[n := k 0]> (tasks s))
                               (trace s ++ [Notified b]))
          | _ =>
              Some (mkSys (idCounter s) (memory s) (port2 s) (port1 s)
                          (main s) (<[n := k 0]> (tasks s))
                          (trace s ++ [Notified b]))
          end
      end k
  | _ => None
  end.

(** The main thread starts [call(...args)]. *)
Definition start_call (a : list JsValue) (s : Sys) : option Sys :=
  match main s with
  | Idle =>
      Some (mkSys (idCounter s) (memory s) (port2 s) (port1 s)
                  (Running (call a)) (tasks s) (trace s))
  | _ => None
  end.

(** The scheduler's choices. *)
Inductive Label :=
| StartCall (a : list JsValue)
| MainStep
| WaitTimesOut
| Deliver
| WorkerStep (n : nat) (outcome : JsValue + JsValue).

Definition step (l : Label) (s : Sys) : option Sys :=
  match l with
  | StartCall a => start_call a s
  | MainStep => main_step s
  | WaitTimesOut => wait_times_out s
  | Deliver => deliver s
  | WorkerStep n outcome => worker_step n outcome s
  end.

(** A schedule runs as long as each of its choices is enabled. *)
Fixpoint exec (ls : list Label) (s : Sys) : option Sys :=
  match ls with
  | [] => Some s
  | l :: ls' =>
      match step l s with
      | Some s' => exec ls' s'
      | None => None
      end
  end.

(** *** The invariant of the bridge *)












End SyncWorker.

(* ------------------------------------------------------------------ *)
(** ** Errors, results and the log *)

(** A thrown JavaScript [Error], identified by its message. *)
Inductive JsError := mkError (message : string).

(** The outcome of a call that may throw (or of a promise that may
    reject). *)
Inductive Result (A : Type) :=
| Ok (a : A)
| Throw (e : JsError).
Arguments Ok {A} a.
Arguments Throw {A} e.

(** Lines written through [utils.log]. *)
Inductive LogLine :=
| log_error (msg : string) (err : option JsError)
| log_info (msg : string)
| log_debug (msg : string).

(* ------------------------------------------------------------------ *)
(** ** JavaScript [Map] with string keys

    A [Map] iterates in insertion order and [set] on a present key keeps
    the key's position, so it is modelled as an association list with
    unique keys. *)

Definition JsMap (V : Type) : Type := list (string * V).

Fixpoint map_get {V} (k : string) (m : JsMap V) : option V :=
  match m with
  | [] => None
  | (k', v) :: m' => if String.eqb k k' then Some v else map_get k m'
  end.

Fixpoint map_set {V} (k : string) (v : V) (m : JsMap V) : JsMap V :=
  match m with
  | [] => [(k, v)]
  | (k', v') :: m' =>
      if String.eqb k k' then (k, v) :: m' else (k', v') :: map_set k v m'
  end.

Definition map_keys {V} (m : JsMap V) : list string := map fst m.
Definition map_values {V} (m : JsMap V) : list V := map snd m.
Definition map_has {V} (k : string) (m : JsMap V) : bool :=
  match map_get k m with Some _ => true | None => false end.

(* ------------------------------------------------------------------ *)
(** ** SwcCompiler.js *)

Module SwcCompiler.

Definition DefaultExtensions : list string :=
  [".tsx"; ".ts"; ".jsx"; ".mjs"; ".cjs"; ".js"].

(** The part of the project configuration the compiler reads; absent
    fields are [None]. *)
Record ProjectConfig := mkConfig {
  ignore : option (list string);
  esbuild_resolveExtensions : option (list string) }.

(** [{ filename, root, ...output }] *)
Record CompiledFile := mkFile {
  filename : string;
  root : string;
  code : string }.

Record Group := mkGroup { group_root : string; files : list CompiledFile }.

(** [class CompiledFiles]: [groups : Map<root, Map<filename, file>>] *)
Definition CompiledFiles : Type := JsMap (JsMap CompiledFile).

Definition addFile (file : CompiledFile) (groups : CompiledFiles) : CompiledFiles :=
  let group :=
    match map_get (root file) groups with
    | Some g => g
    | None => []                       (* new Map(), set under file.root *)
    end in
  map_set (root file) (map_set (filename file) file group) groups.

(** [group(filename)]: the first group, in insertion order, that holds the
    file. *)
Fixpoint group (fname : string) (groups : CompiledFiles) : option Group :=
  match groups with
  | [] => None
  | (r, fs) :: rest =>
      if map_has fname fs then Some (mkGroup r (map_values fs))
      else group fname rest
  end.

(** The roots of all groups that hold [fname]. *)
Definition roots_containing (fname : string) (groups : CompiledFiles) : list string :=
  map fst (List.filter (fun g => map_has fname (snd g)) groups).

(** Does the group keyed by [r] hold [fname]? *)
Definition group_has (r fname : string) (groups : CompiledFiles) : bool :=
  match map_get r groups with
  | Some fs => map_has fname fs
  | None => false
  end.

(** "At most one BuildGroup contains P". *)
Definition at_most_one_group (fname : string) (groups : CompiledFiles) : Prop :=
  length (roots_containing fname groups) <= 1.

(** A [buildFile] call whose transform is in flight: the arguments of the
    call and what [transformFile] will settle with. *)
Record Build := mkBuild {
  build_filename : string;
  build_root : string;
  build_output : Result string }.

(** While a caller waits for builds of its own, one of them settles, or a
    build started by an earlier call and still in flight does; each is named
    by its position among the builds of its kind that are still in flight. *)
Inductive Tick := Own (i : nat) | Earlier (i : nat).

(** What the compiler asks of the outside world. *)
Record Env := mkEnv {
  find_root : string -> Result string;
      (* find-root: nearest directory with a package.json; throws if none *)
  projectConfig : string -> ProjectConfig;         (* utils.projectConfig(root) *)
  globby : list string -> string -> list string;   (* globby(patterns, {cwd, absolute}) *)
  transformFile : string -> string -> Result string;
      (* @swc/core transformFile(filename, {cwd: root, ...}): the output code *)
  writeFileSync : string -> string -> Result unit; (* fs.writeFileSync(path, data) *)
  win32 : bool;                                    (* process.platform === "win32" *)
  settles : list Build -> list Build -> list Tick }.
      (* the order in which transforms settle while a caller waits for the
         builds of the first list, the second list being the builds started
         earlier and still in flight; builds the order does not mention
         settle afterwards, in array order *)

(** The compiler: the cache, the log, and the [buildFile] calls that
    nobody waits for any more and whose transforms have not settled yet. *)
Record State := mkState {
  compiledFiles : CompiledFiles;
  log : list LogLine;
  pending : list Build }.

Definition initial : State := mkState [] [] [].

Definition add_log (l : LogLine) (st : State) : State :=
  mkState (compiledFiles st) (log st ++ [l]) (pending st).

(** The errors handed to [log.error]. *)
Definition logged_errors (l : list LogLine) : list JsError :=
  omap (fun line => match line with log_error _ (Some e) => Some e | _ => None end) l.

(** [s.replace(/\//g, repl)]: every slash is replaced. *)
Fixpoint replace_slashes (repl : string) (s : string) : string :=
  match s with
  | EmptyString => EmptyString
  | String c s' =>
      (if Ascii.eqb c "/"%char then repl else String c EmptyString)
      +:+ replace_slashes repl s'
  end.

(** [fileGlobPatterns(config)] *)
Definition fileGlobPatterns (config : ProjectConfig) : list string :=
  let extensions :=
    match esbuild_resolveExtensions config with
    | Some e => e
    | None => DefaultExtensions
    end in
  ["**/*{" +:+ String.concat "," extensions +:+ "}"].

(** [ignoreFileGlobPatterns(config)] *)
Definition ignoreFileGlobPatterns (config : ProjectConfig) : list string :=
  "!node_modules" :: "!**/*.d.ts" ::
  map (fun i => "!" +:+ i)
      (match ignore config with Some l => l | None => [] end).

Section WithEnv.
Variable env : Env.

(** [invalidateBuildSet()]: [this.compiledFiles = new CompiledFiles()].
    Transforms in flight are not cancelled. *)
Definition invalidateBuildSet (st : State) : State :=
  mkState [] (log st) (pending st).

(** The file names [getModule] returns for a group root. *)
Definition enumerate (r : string) : list string :=
  let config := projectConfig env r in
  let globs := fileGlobPatterns config ++ ignoreFileGlobPatterns config in
  let fileNames := globby env globs r in
  if win32 env then map (replace_slashes "\") fileNames else fileNames.

(** [getModule(filename)]: the root and the enumerated files. *)
Definition getModule (fname : string) (st : State)
    : Result (string * list string) * State :=
  match find_root env fname with
  | Throw e => (Throw e, st)
  | Ok r => (Ok (r, enumerate r), add_log (log_debug "searching for filenames") st)
  end.

Definition is_debug_dump (fname : string) : bool :=
  includes "SimpleTestTreeRoot.ts" fname || includes "editModeOnly.ts" fname.

(** [buildFile(filename, root)] up to the call of [transformFile]: the
    transform is in flight. *)
Definition start (fname r : string) : Build :=
  mkBuild fname r (transformFile env fname r).

(** The rest of [buildFile], run when the transform has settled: the [then]
    callback and [this.compiledFiles.addFile(file)], on the cache the
    compiler has at that moment.  A rejected transform (or a throwing debug
    dump) rejects without touching the cache. *)
Definition settle (b : Build) (st : State) : Result CompiledFile * State :=
  match build_output b with
  | Throw e => (Throw e, st)
  | Ok out =>
      let file := mkFile (build_filename b) (build_root b) out in
      if is_debug_dump (build_filename b) then
        match writeFileSync env
                ("./tmp/" +:+ replace_slashes "__" (build_filename b)) out with
        | Throw e => (Throw e, st)
        | Ok _ =>
            let st1 := add_log (log_info out) st in
            (Ok file, mkState (addFile file (compiledFiles st1)) (log st1) (pending st1))
        end
      else (Ok file, mkState (addFile file (compiledFiles st)) (log st) (pending st))
  end.

(** The error [buildFile] rejects with, if it does. *)
Definition failure (b : Build) : option JsError :=
  match build_output b with
  | Throw e => Some e
  | Ok out =>
      if is_debug_dump (build_filename b) then
        match writeFileSync env
                ("./tmp/" +:+ replace_slashes "__" (build_filename b)) out with
        | Throw e => Some e
        | Ok _ => None
        end
      else None
  end.

(** Does [buildFile(fname, r)] get as far as [addFile]? *)
Definition builds (fname r : string) : bool :=
  match transformFile env fname r with
  | Throw _ => false
  | Ok out =>
      if is_debug_dump fname then
        match writeFileSync env ("./tmp/" +:+ replace_slashes "__" fname) out with
        | Throw _ => false
        | Ok _ => true
        end
      else true
  end.

(** [buildFile(fname, r)] with nothing else happening before its transform
    settles. *)
Definition buildFile (fname r : string) (st : State)
    : Result CompiledFile * State :=
  settle (start fname r) st.

(** The [i]-th build in flight settles while nobody waits for it: its
    file, if any, is added to the cache of that moment, its rejection goes
    unnoticed. *)
Definition land (i : nat) (st : State) : State :=
  match pending st !! i with
  | Some b =>
      snd (settle b (mkState (compiledFiles st) (log st) (delete i (pending st))))
  | None => st
  end.

(** The builds settle in array order until one rejects. *)
Fixpoint drain (own : list Build) (st : State)
    : option JsError * list Build * State :=
  match own with
  | [] => (None, [], st)
  | b :: rest =>
      match settle b st with
      | (Throw e, st1) => (Some e, rest, st1)
      | (Ok _, st1) => drain rest st1
      end
  end.

(** [await Promise.all(own)]: the wait ends when every build of [own] has
    fulfilled, or as soon as one of them rejects; the builds of [own] that
    have not settled by then stay in flight (returned second).  Meanwhile
    transforms settle in the order [ticks]; a tick that names no build in
    flight is skipped. *)
Fixpoint await_all (ticks : list Tick) (own : list Build) (st : State)
    : option JsError * list Build * State :=
  match own with
  | [] => (None, [], st)
  | _ :: _ =>
      match ticks with
      | [] => drain own st
      | Own i :: ticks' =>
          match own !! i with
          | Some b =>
              match settle b st with
              | (Throw e, st1) => (Some e, delete i own, st1)
              | (Ok _, st1) => await_all ticks' (delete i own) st1
              end
          | None => await_all ticks' own st
          end
      | Earlier i :: ticks' => await_all ticks' own (land i st)
      end
  end.

(** The builds [later] stay in flight with nobody waiting for them. *)
Definition in_flight (later : list Build) (st : State) : State :=
  mkState (compiledFiles st) (log st) (pending st ++ later).

(** Waiting for [own] in the state [st]: the rejection, if any, and the
    state when the wait ends. *)
Definition await (own : list Build) (st : State) : option JsError * State :=
  let '(err, later, st1) := await_all (settles env own (pending st)) own st in
  (err, in_flight later st1).

(** [reportErrors(run)] around the [Promise.all]: a rejection is logged and
    swallowed. *)
Definition reportErrors (outcome : option JsError * State) : State :=
  match outcome with
  | (Some (mkError m), st) => add_log (log_error m (Some (mkError m))) st
  | (None, st) => st
  end.

(** [buildGroup(filename)]: every enumerated file gets a [buildFile] call
    of its own, and [Promise.all] waits for them. *)
Definition buildGroup (fname : string) (st : State) : Result unit * State :=
  match getModule fname st with
  | (Throw e, st1) => (Throw e, st1)
  | (Ok (r, fileNames), st1) =>
      let st2 := reportErrors (await (map (fun f => start f r) fileNames) st1) in
      (Ok tt, add_log (log_debug "started build") st2)
  end.

(** [compile(filename)] *)
Definition compile (fname : string) (st : State) : Result (option Group) * State :=
  match group fname (compiledFiles st) with
  | Some existingGroup =>
      match await [start fname (group_root existingGroup)] st with
      | (Some e, st1) => (Throw e, st1)
      | (None, st1) => (Ok (group fname (compiledFiles st1)), st1)
      end
  | None =>
      match buildGroup fname st with
      | (Throw e, st1) => (Throw e, st1)
      | (Ok _, st1) => (Ok (group fname (compiledFiles st1)), st1)
      end
  end.

(** The waits that can happen: what [await_all] returns for some order of
    settling, one rule for each thing that can happen while the caller
    waits. *)
Inductive awaited : list Build -> State -> option JsError -> list Build -> State -> Prop :=
| awaited_all st :
    awaited [] st None [] st
| awaited_fulfil own st i b file st1 err later st2 :
    own !! i = Some b ->
    settle b st = (Ok file, st1) ->
    awaited (delete i own) st1 err later st2 ->
    awaited own st err later st2
| awaited_reject own st i b e st1 :
    own !! i = Some b ->
    settle b st = (Throw e, st1) ->
    awaited own st (Some e) (delete i own) st1
| awaited_earlier own st i err later st2 :
    own <> [] ->
    awaited own (land i st) err later st2 ->
    awaited own st err later st2.

(** [isFilenameIgnored(filename)]: [None] is JavaScript's [false]. *)
Fixpoint firstIgnoring (fname r : string) (includeGlobs ignoreGlobs : list string)
    : option string :=
  match ignoreGlobs with
  | [] => None
  | ignoreGlob :: rest =>
      let withThisIgnore := globby env (includeGlobs ++ [ignoreGlob]) r in
      if negb (arr_includes fname withThisIgnore) then Some ignoreGlob
      else firstIgnoring fname r includeGlobs rest
  end.

Definition isFilenameIgnored (fname : string) : Result (option string) :=
  match find_root env fname with
  | Throw e => Throw e
  | Ok r =>
      let config := projectConfig env r in
      let includeGlobs := fileGlobPatterns config in
      let ignoreGlobs := ignoreFileGlobPatterns config in
      let actual := globby env (includeGlobs ++ ignoreGlobs) r in
      let all := globby env includeGlobs r in
      if negb (arr_includes fname actual) && arr_includes fname all
      then Ok (firstIgnoring fname r includeGlobs ignoreGlobs)
      else Ok None
  end.

(** [missingDestination(filename)] *)
Definition missingDestination (fname : string) : Result string :=
  match isFilenameIgnored fname with
  | Throw e => Throw e
  | Ok (Some ignorePattern) =>
      Ok ("File " +:+ fname +:+ " is imported but not being built because it is explicitly ignored in the esbuild-dev project config. It is being ignored by the provided glob pattern '" +:+ ignorePattern +:+ "', remove this pattern from the project config or don't import this file to fix.")
  | Ok None =>
      Ok ("Built output for file " +:+ fname +:+ " not found. Is it outside the project directory?")
  end.

(** [fileGroup(filename)]: the object [{ [file.filename]: file.code }],
    keys in assignment order. *)
Definition fileGroup (fname : string) (st : State)
    : Result (list (string * string)) :=
  match group fname (compiledFiles st) with
  | None =>
      match missingDestination fname with
      | Throw e => Throw e
      | Ok m => Throw (mkError m)
      end
  | Some g =>
      Ok (fold_left (fun contents file => map_set (filename file) (code file) contents)
                    (files g) [])
  end.

(** Modelled from the spec: the class in SwcCompiler.js has no [rebuild]
    method, although the reload controller calls [compiler.rebuild()].  The
    spec's contract reads "re-run compilation for every group currently in
    the build-set, producing fresh outputs": every cached file is built
    again under the root of its group. *)
Definition rebuild (st : State) : State :=
  fold_left
    (fun s '(r, fs) =>
       fold_left (fun s' f => snd (buildFile f r s')) (map_keys fs) s)
    (compiledFiles st) st.

(** The per-file backend as the specification words it, for comparison
    with [compile]: no enumeration; exactly the requested file is transformed
    and recorded under its own root. *)
Definition spec_per_file_compile (fname : string) (st : State) : State :=
  match find_root env fname with
  | Throw _ => st
  | Ok r =>
      match transformFile env fname r with
      | Throw _ => st
      | Ok out =>
          mkState (addFile (mkFile fname r out) (compiledFiles st)) (log st)
                  (pending st)
      end
  end.

(** The operations of the backend contract and, between two of them, the
    settling of a transform still in flight; their sequential execution. *)
Inductive Op :=
| OpCompile (fname : string)
| OpInvalidateBuildSet
| OpRebuild
| OpSettle (i : nat).

Definition exec (st : State) (op : Op) : State :=
  match op with
  | OpCompile f => snd (compile f st)
  | OpInvalidateBuildSet => invalidateBuildSet st
  | OpRebuild => rebuild st
  | OpSettle i => land i st
  end.

Definition run (ops : list Op) (st : State) : State := fold_left exec ops st.

(** The cache only holds what the enumeration of a group's root yields:
    the invariant that makes group lookup unambiguous when no two roots
    enumerate the same file. *)
Definition is_root (r : string) : Prop := exists f, find_root env f = Ok r.

Definition groups_enumerated (groups : CompiledFiles) : Prop :=
  NoDup (map_keys groups) /\
  forall r fs, (r, fs) ∈ groups ->
    is_root r /\ forall f, f ∈ map_keys fs -> f ∈ enumerate r.

(** Every build is one of an enumerated file under a package root. *)
Definition build_enumerated (b : Build) : Prop :=
  is_root (build_root b) /\ build_filename b ∈ enumerate (build_root b).

(** No file is enumerated under two different package roots. *)
Definition disjoint_roots : Prop :=
  forall r1 r2 f,
    is_root r1 -> is_root r2 ->
    f ∈ enumerate r1 -> f ∈ enumerate r2 -> r1 = r2.

End WithEnv.

End SwcCompiler.

(* ------------------------------------------------------------------ *)
(** ** Small workspaces on which the definitions are run *)

Module Fixture.

(** A source file of a toy workspace: its absolute path and the ignore
    patterns that exclude it.  Every listed file matches the include
    pattern. *)
Record Entry := mkEntry { path : string; excluded_by : list string }.

(** Globbing over the toy workspace: the files below [cwd] that none of
    the given patterns excludes. *)
Definition toy_globby (entries : list Entry) (patterns : list string)
    (cwd : string) : list string :=
  map path
    (List.filter
       (fun e => String.prefix (cwd +:+ "/") (path e)
                 && negb (existsb (fun g => arr_includes g patterns) (excluded_by e)))
       entries).

(** find-root over the toy workspace: the longest package root that is a
    directory prefix of the file. *)
Definition toy_find_root (roots : list string) (fname : string) : Result string :=
  match
    fold_left
      (fun best r =>
         if String.prefix (r +:+ "/") fname
         then match best with
              | Some b => if Nat.ltb (String.length b) (String.length r)
                          then Some r else best
              | None => Some r
              end
         else best)
      roots None
  with
  | Some r => Ok r
  | None => Throw (mkError "package.json not found in path")
  end.

(** A toy workspace in which the files [broken] do not transform, every
    other file [f] transforms to ["compiled " ++ f], and transforms settle in
    the order [ticks] during every wait. *)
Definition toy_env_settling (ticks : list SwcCompiler.Tick) (roots : list string)
    (entries : list Entry) (ignores : option (list string))
    (broken : list string) : SwcCompiler.Env :=
  SwcCompiler.mkEnv
    (toy_find_root roots)
    (fun _ => SwcCompiler.mkConfig ignores None)
    (toy_globby entries)
    (fun fname _ =>
       if arr_includes fname broken
       then Throw (mkError ("failed to transform " +:+ fname))
       else Ok ("compiled " +:+ fname))
    (fun _ _ => Ok tt)
    false
    (fun _ _ => ticks).

(** The same with transforms settling in array order. *)
Definition toy_env (roots : list string) (entries : list Entry)
    (ignores : option (list string)) (broken : list string) : SwcCompiler.Env :=
  toy_env_settling [] roots entries ignores broken.

(** The workspace [env] after [fname] has been edited: its transform now
    settles with [output]. *)
Definition edited (fname : string) (output : Result string)
    (env : SwcCompiler.Env) : SwcCompiler.Env :=
  SwcCompiler.mkEnv
    (SwcCompiler.find_root env)
    (SwcCompiler.projectConfig env)
    (SwcCompiler.globby env)
    (fun f r => if String.eqb f fname then output
                else SwcCompiler.transformFile env f r)
    (SwcCompiler.writeFileSync env)
    (SwcCompiler.win32 env)
    (SwcCompiler.settles env).

(** A package with a nested package: the outer root's glob reaches the
    inner package's file. *)
Definition nested : SwcCompiler.Env :=
  toy_env ["/ws"; "/ws/pkg"]
          [mkEntry "/ws/a.ts" []; mkEntry "/ws/pkg/b.ts" []]
          None [].

(** Two sibling packages. *)
Definition siblings : SwcCompiler.Env :=
  toy_env ["/ws/p1"; "/ws/p2"]
          [mkEntry "/ws/p1/a.ts" []; mkEntry "/ws/p1/b.ts" [];
           mkEntry "/ws/p2/c.ts" []]
          None [].

(** One package whose configuration ignores [gen/**]. *)
Definition with_ignore : SwcCompiler.Env :=
  toy_env ["/ws"]
          [mkEntry "/ws/a.ts" [];
           mkEntry "/ws/gen/x.ts" ["!gen/**"];
           mkEntry "/ws/types.d.ts" ["!**/*.d.ts"]]
          (Some ["gen/**"]) [].

(** One package in which [b.ts] does not transform. *)
Definition with_broken_file : SwcCompiler.Env :=
  toy_env ["/ws"]
          [mkEntry "/ws/a.ts" []; mkEntry "/ws/b.ts" []]
          None ["/ws/b.ts"].

(** The same package when the transform of [b.ts] settles first. *)
Definition with_broken_file_first : SwcCompiler.Env :=
  toy_env_settling [SwcCompiler.Own 1] ["/ws"]
          [mkEntry "/ws/a.ts" []; mkEntry "/ws/b.ts" []]
          None ["/ws/b.ts"].

End Fixture.

(* ------------------------------------------------------------------ *)
(** ** index.ts: command line, backend selection and the IPC routes *)

Module Index.

(** [RunOptions] as [cli] fills it from the flags. *)
Record RunOptions := mkRunOptions {
  argv : list string;
  terminalCommands : bool;   (* --commands, default false *)
  reloadOnChanges : bool;    (* --watch, default true *)
  supervise : bool;          (* --supervise, default false *)
  useSwc : bool }.           (* --swc, default false *)

Inductive Backend := UseEsBuildCompiler | UseSwcCompiler.

(** [options.useSwc ? new SwcCompiler(...) : new EsBuildCompiler(...)] *)
Definition select_compiler (options : RunOptions) : Backend :=
  if useSwc options then UseSwcCompiler else UseEsBuildCompiler.

(** The [Compiler] interface the project talks to: the four operations of
    the backend contract, over the backend's own state. *)
Class Compiler (C : Type) := {
  compiler_compile : string -> C -> Result unit * C;
  compiler_fileGroup : string -> C -> Result (list (string * string));
  compiler_invalidateBuildSet : C -> C;
  compiler_rebuild : C -> C }.

#[export] Instance swc_compiler (env : SwcCompiler.Env)
    : Compiler SwcCompiler.State := {
  compiler_compile f st :=
    match SwcCompiler.compile env f st with
    | (Ok _, st1) => (Ok tt, st1)
    | (Throw e, st1) => (Throw e, st1)
    end;
  compiler_fileGroup := SwcCompiler.fileGroup env;
  compiler_invalidateBuildSet := SwcCompiler.invalidateBuildSet;
  compiler_rebuild := SwcCompiler.rebuild env }.

(** JSON values handed to [reply.json]. *)
#[warnings="-register-all"] Inductive Json :=
| JUndefined
| JString (s : string)
| JObject (fields : list (string * Json)).

(** The string values inside a JSON value. *)
Fixpoint json_strings (j : Json) : list string :=
  match j with
  | JUndefined => []
  | JString s => [s]
  | JObject fields =>
      (fix go (l : list (string * Json)) : list string :=
         match l with
         | [] => []
         | (_, v) :: l' => json_strings v ++ go l'
         end) fields
  end.

(** Does the body carry the text [msg] anywhere? *)
Definition mentions (msg : string) (body : Json) : bool :=
  existsb (includes msg) (json_strings body).

Section Server.
Context {C : Type} {HC : Compiler C}.

(** The part of [Project] the IPC server and the watcher wiring use.
    [watcher] is [None] when no filesystem watcher was started (--no-watch);
    otherwise it is the path set of the chokidar watcher, which starts empty
    and is given no [ignored] option. *)
Record Project := mkProject {
  compiler : C;
  watcher : option (gset string);
  log : list LogLine }.

(** [project.watcher?.add(filename)] *)
Definition watcher_add (fname : string) (w : option (gset string))
    : option (gset string) :=
  match w with
  | Some paths => Some ({[fname]} ∪ paths)
  | None => None
  end.

Definition watched (p : Project) : gset string :=
  match watcher p with Some paths => paths | None => ∅ end.

(** [const compile = async (filename) => { try {...} catch (error) {...} }]:
    a caught error is logged and the function returns [undefined]. *)
Definition compile (fname : string) (p : Project) : Json * Project :=
  let caught e c w :=
    (JUndefined,
     mkProject c w
       (log p ++ [log_error ("Error compiling file " +:+ fname +:+ ":") (Some e)])) in
  match compiler_compile fname (compiler p) with
  | (Throw e, c1) => caught e c1 (watcher p)
  | (Ok _, c1) =>
      let w1 := watcher_add fname (watcher p) in
      match compiler_fileGroup fname c1 with
      | Throw e => caught e c1 w1
      | Ok contents =>
          (JObject (map (fun kv => (fst kv, JString (snd kv))) contents),
           mkProject c1 w1 (log p))
      end
  end.

(** Route ["/compile"]: [reply.json({ filenames: results })]. *)
Definition route_compile (body : string) (p : Project) : Json * Project :=
  let '(results, p1) := compile body p in
  (JObject [("filenames", results)], p1).

(** Route ["/file-required"]: every path of the body goes to the watcher;
    [reply.json({ status: "ok" })]. *)
Definition route_file_required (body : list string) (p : Project)
    : Json * Project :=
  (JObject [("status", JString "ok")],
   mkProject (compiler p)
             (fold_left (fun w fname => watcher_add fname w) body (watcher p))
             (log p)).

(** The listener [startFilesystemWatcher] puts on the supervisor's
    ["message"] event, for a message [{ require: path }]: paths that mention
    node_modules are not watched.  ([None] is a message without [require].) *)
Definition on_supervisor_message (require : option string) (paths : gset string)
    : gset string :=
  match require with
  | Some r =>
      if String.eqb r "" then paths
      else if negb (includes "node_modules" r) then {[r]} ∪ paths else paths
  | None => paths
  end.

End Server.
Arguments Project C : clear implicits.

End Index.

(* ------------------------------------------------------------------ *)
(** ** Supervisor.ts *)

Module Supervisor.

Inductive Signal := SIGTERM | SIGKILL.

(** Node's [ChildProcess] as [stop] uses it.  [kill(signal)] hands the
    signal to the operating system if the process is still running and then
    sets [killed]; on a process that has exited it does nothing.  [killed]
    therefore records that a signal was delivered by [kill], not that the
    process has terminated (Node's documentation of [subprocess.killed]). *)
Record ChildProcess := mkChild {
  running : bool;
  killed : bool;
  received : list Signal }.

Definition kill (sig : Signal) (p : ChildProcess) : ChildProcess :=
  if running p then mkChild true true (received p ++ [sig]) else p.

(** Child processes are objects: the supervisor's [process] field and the
    variable captured by the timer callback refer to one of them by its
    index in the store. *)
Abbreviation Store := (list ChildProcess).

Definition update (c : nat) (f : ChildProcess -> ChildProcess) (h : Store) : Store :=
  match h !! c with
  | Some p => <[c := f p]> h
  | None => h
  end.

(** [stop()]: returns the store and the reference the 5000 ms timer
    callback has captured in [const process = this.process]. *)
Definition stop (this_process : option nat) (h : Store) : Store * option nat :=
  (match this_process with
   | Some c => update c (kill SIGTERM) h
   | None => h
   end,
   this_process).

(** The child exits on its own. *)
Definition child_exits (c : nat) (h : Store) : Store :=
  update c (fun p => mkChild false (killed p) (received p)) h.

(** The callback of [setTimeout(..., 5000)]. *)
Definition stop_timeout (captured : option nat) (h : Store) : Result Store :=
  match captured with
  | None => Throw (mkError "Cannot read properties of undefined (reading 'killed')")
  | Some c =>
      match h !! c with
      | Some p => if negb (killed p) then Ok (update c (kill SIGKILL) h) else Ok h
      | None => Ok h
      end
  end.

(** [stop()], then the child exits within the 5000 ms or does not, then the
    timer fires. *)
Definition stop_and_wait (exits_in_time : bool) (this_process : option nat)
    (h : Store) : Result Store :=
  let '(h1, captured) := stop this_process h in
  let h2 :=
    match captured with
    | Some c => if exits_in_time then child_exits c h1 else h1
    | None => h1
    end in
  stop_timeout captured h2.

End Supervisor.

(* ------------------------------------------------------------------ *)
(** ** SwcCompiler.js: what the cache holds *)

Module SwcCache.

(** The files of one group are coherent when every key occurs once and is
    the name of the file stored under it, the file records the group's root,
    and its code is what the transform yields for it under that root. *)
Definition group_coherent (env : SwcCompiler.Env) (r : string)
    (fs : JsMap SwcCompiler.CompiledFile) : Prop :=
  NoDup (map_keys fs) /\
  forall f file, (f, file) ∈ fs ->
    exists out,
      SwcCompiler.transformFile env f r = Ok out /\
      file = SwcCompiler.mkFile f r out.

Definition coherent (env : SwcCompiler.Env) (groups : SwcCompiler.CompiledFiles)
    : Prop :=
  NoDup (map_keys groups) /\
  forall r fs, (r, fs) ∈ groups -> group_coherent env r fs.

(** The file stored for [fname] in the group keyed by [r]. *)
Definition cached (r fname : string) (groups : SwcCompiler.CompiledFiles)
    : option SwcCompiler.CompiledFile :=
  match map_get r groups with
  | Some fs => map_get fname fs
  | None => None
  end.

End SwcCache.

(* ------------------------------------------------------------------ *)
(** ** index.ts: the server at work *)

Module Routes.

Section Serving.
Context {C : Type} {HC : Index.Compiler C}.

(** The two routes of the [MiniServer] table with their request bodies. *)
Inductive Request :=
| PostCompile (body : string)
| PostFileRequired (body : list string).

Definition handle (req : Request) (p : Index.Project C)
    : Index.Json * Index.Project C :=
  match req with
  | PostCompile body => Index.route_compile body p
  | PostFileRequired body => Index.route_file_required body p
  end.

(** Requests handled one after the other: the replies and the project
    afterwards. *)
Fixpoint serve (reqs : list Request) (p : Index.Project C)
    : list Index.Json * Index.Project C :=
  match reqs with
  | [] => ([], p)
  | req :: rest =>
      let '(reply, p1) := handle req p in
      let '(replies, p2) := serve rest p1 in
      (reply :: replies, p2)
  end.

End Serving.

(** The supervisor's "message" listener, over the messages of a child in
    the order they arrive. *)
Definition deliver_messages (requires : list (option string))
    (paths : gset string) : gset string :=
  fold_left (fun w m => Index.on_supervisor_message m w) requires paths.

End Routes.

(* ------------------------------------------------------------------ *)
(** ** Project.ts and index.ts: watcher events, restarts and shutdown *)

Module Lifecycle.

(** The chokidar events [startFilesystemWatcher] listens to. *)
Inductive WatcherEvent := change | add | addDir | unlink | unlinkDir.

(** ["change"] goes to [reload], the four others to
    [invalidateAndReload]. *)
Definition requires_invalidation (ev : WatcherEvent) : bool :=
  match ev with
  | change => false
  | add | addDir | unlink | unlinkDir => true
  end.

Definition on_watcher_event (ev : WatcherEvent * string) : Project.Action :=
  Project.Enqueue (snd ev) (requires_invalidation (fst ev)).

(** How often flush [k] has called [supervisor.restart()]. *)
Definition restarts (k : nat) (tr : list Project.Event) : nat :=
  length
    (List.filter
       (fun e => match e with Project.Restart j => Nat.eqb j k | _ => false end)
       tr).

(** What [shutdown] does, as seen from outside.  A cleanup is a callback
    that may throw. *)
Inductive Effect (A : Type) :=
| SupervisorStop                 (* this.supervisor.stop() *)
| CleanupRan (c : A)
| CleanupThrew (c : A)
| ProcessExit (code : Z).        (* process.exit(code) *)
Arguments SupervisorStop {A}.
Arguments CleanupRan {A} c.
Arguments CleanupThrew {A} c.
Arguments ProcessExit {A} code.

(** [addShutdownCleanup(cleanup)] *)
Definition addShutdownCleanup {A} (cleanup : A) (cleanups : list A) : list A :=
  cleanups ++ [cleanup].

(** [for (const cleanup of this.cleanups) cleanup(); process.exit(code)]: a
    throwing cleanup ends the loop and the function. *)
Fixpoint run_cleanups {A} (throws : A -> bool) (cleanups : list A) (code : Z)
    : list (Effect A) :=
  match cleanups with
  | [] => [ProcessExit code]
  | c :: rest =>
      if throws c then [CleanupThrew c]
      else CleanupRan c :: run_cleanups throws rest code
  end.

(** [shutdown(code)] *)
Definition shutdown {A} (throws : A -> bool) (cleanups : list A) (code : Z)
    : list (Effect A) :=
  SupervisorStop :: run_cleanups throws cleanups code.

(** The cleanups [esbuildDev] registers: [watcher.close()],
    [reader.close()] and [server.close()]. *)
Inductive Cleanup := CloseWatcher | CloseReader | CloseServer.

End Lifecycle.

(* ------------------------------------------------------------------ *)
(** ** Supervisor.ts: the children over time *)

Module Children.

(** The supervisor with the child processes it has spawned so far, the
    references its pending [stop] timers have captured, and the errors its
    timer callbacks have thrown, which nothing catches. *)
Record State := mkSup {
  process : option nat;             (* this.process *)
  children : list Supervisor.ChildProcess;
  timers : list (option nat);
  uncaught : list JsError }.

Definition empty : State := mkSup None [] [] [].

(** [kill()] *)
Definition kill (s : State) : State :=
  match process s with
  | Some c =>
      mkSup (process s)
            (Supervisor.update c (Supervisor.kill Supervisor.SIGKILL) (children s))
            (timers s) (uncaught s)
  | None => s
  end.

(** [restart()]: hard-kill the current child, if any, and spawn a new one,
    which becomes the current child. *)
Definition restart (s : State) : State :=
  let killed := children (kill s) in
  mkSup (Some (length killed))
        (killed ++ [Supervisor.mkChild true false []])
        (timers s) (uncaught s).

(** [stop()], with its timer left pending. *)
Definition stop (s : State) : State :=
  let '(h, captured) := Supervisor.stop (process s) (children s) in
  mkSup (process s) h (timers s ++ [captured]) (uncaught s).

(** The timer set by the [n]-th [stop()] fires.  An error thrown by the
    callback is caught by nobody.  (A timer fires once, and by default Node
    ends the supervisor on an uncaught error; the model lets a timer fire
    again and lets the supervisor carry on, which only adds behaviours.) *)
Definition timer_fires (n : nat) (s : State) : State :=
  match timers s !! n with
  | Some captured =>
      match Supervisor.stop_timeout captured (children s) with
      | Ok h => mkSup (process s) h (timers s) (uncaught s)
      | Throw e => mkSup (process s) (children s) (timers s) (uncaught s ++ [e])
      end
  | None => s
  end.

Definition child_exits (c : nat) (s : State) : State :=
  mkSup (process s) (Supervisor.child_exits c (children s)) (timers s)
        (uncaught s).

Inductive Op :=
| OpRestart
| OpKill
| OpStop
| OpTimerFires (n : nat)
| OpChildExits (c : nat).

Definition step (s : State) (op : Op) : State :=
  match op with
  | OpRestart => restart s
  | OpKill => kill s
  | OpStop => stop s
  | OpTimerFires n => timer_fires n s
  | OpChildExits c => child_exits c s
  end.

Definition run (ops : list Op) (s : State) : State := fold_left step ops s.

(** A child only moves forward: it keeps the signals it has received and
    its [killed] flag, it does not come back to life, and it gets signals only
    while it runs. *)
Definition advances (p q : Supervisor.ChildProcess) : Prop :=
  (exists more, Supervisor.received q = Supervisor.received p ++ more) /\
  (Supervisor.killed p = true -> Supervisor.killed q = true) /\
  (Supervisor.running p = false -> q = p).

(** Every child but the current one has exited or has been sent SIGKILL;
    every child a pending timer refers to has [killed] set or has exited. *)
Definition condemned (s : State) : Prop :=
  (forall c p, children s !! c = Some p -> process s <> Some c ->
     Supervisor.running p = true -> In Supervisor.SIGKILL (Supervisor.received p)) /\
  (forall c, process s = Some c -> c < length (children s)) /\
  (forall n c, timers s !! n = Some (Some c) ->
     exists p, children s !! c = Some p /\
               (Supervisor.killed p = true \/ Supervisor.running p = false)).

End Children.

(* ------------------------------------------------------------------ *)
(** ** SyncWorker.ts: calls one after the other, and sleeping *)

Module SyncCalls.

(** Calls made one after the other by the main thread; each comes with the
    status its [Atomics.wait] returns.  The outcomes are listed oldest
    first. *)
Fixpoint run_calls (calls : list (string * list SyncWorker.JsValue))
    (v : SyncWorker.MainView) : list SyncWorker.Outcome * SyncWorker.MainView :=
  match calls with
  | [] => ([], v)
  | (status, a) :: rest =>
      let '(o, v1) := SyncWorker.run_main status (SyncWorker.call a) v in
      let '(os, v2) := run_calls rest v1 in
      (o :: os, v2)
  end.

(** The calls the main thread posts for [calls], starting from id [n] and
    buffer [b]. *)
Fixpoint posted (calls : list (string * list SyncWorker.JsValue)) (n : Z) (b : nat)
    : list SyncWorker.SyncWorkerCall :=
  match calls with
  | [] => []
  | (_, a) :: rest => SyncWorker.mkCall n a b :: posted rest (n + 1) (S b)
  end.

(** Responses reach the main thread's port, oldest first. *)
Definition arrive (rs : list SyncWorker.SyncWorkerResponse) (v : SyncWorker.MainView)
    : SyncWorker.MainView :=
  SyncWorker.mkView (SyncWorker.view_idCounter v) (SyncWorker.view_buffers v)
                    (SyncWorker.view_sent v) (SyncWorker.view_inbox v ++ rs).


End SyncCalls.

(* ================================================================== *)
(** * Theorems *)
(* ================================================================== *)

(** ** Traces *)

Section TraceFacts.
Context {A : Type}.

Lemma only_after_filter (P : A -> bool) (a b : A) tr :
  P a = true -> P b = true ->
  only_after a b (List.filter P tr) -> only_after a b tr.
Proof.
  intros Ha Hb H l1 l2 ->.
  specialize (H (List.filter P l1) (List.filter P l2)).
  rewrite List.filter_app in H. simpl in H. rewrite Hb in H.
  specialize (H eq_refl). apply List.filter_In in H. tauto.
Qed.

Lemma only_after_absent (a b : A) tr : ~ In b tr -> only_after a b tr.
Proof. intros Hb l1 l2 ->. exfalso. apply Hb, in_elt. Qed.

Lemma only_after_intro pre (a : A) rest b :
  ~ In b pre -> a <> b -> only_after a b (pre ++ a :: rest).
Proof.
  induction pre as [|p pre IH]; intros Hb Hab l1 l2 Heq.
  - destruct l1 as [|x l1]; simpl in Heq.
    + congruence.
    + injection Heq as <- _. left. reflexivity.
  - destruct l1 as [|x l1]; simpl in Heq.
    + injection Heq as -> _. exfalso. apply Hb. left. reflexivity.
    + injection Heq as <- Heq. right. eapply IH; [|exact Hab|exact Heq].
      intros Hin. apply Hb. right. exact Hin.
Qed.

End TraceFacts.

(** ** The reload controller *)

Section ProjectFacts.
Import Project.
Variable workspaceRoot : string.

Lemma events_of_app k tr1 tr2 :
  events_of k (tr1 ++ tr2) = events_of k tr1 ++ events_of k tr2.
Proof. unfold events_of. apply List.filter_app. Qed.

Lemma events_of_other k tr :
  Forall (fun e => event_flush e <> k) tr -> events_of k tr = [].
Proof.
  induction 1 as [|e tr He _ IH]; [reflexivity|].
  unfold events_of in *. simpl.
  destruct (Nat.eqb_spec (event_flush e) k); [contradiction|exact IH].
Qed.

Lemma events_of_own k tr :
  Forall (fun e => event_flush e = k) tr -> events_of k tr = tr.
Proof.
  induction 1 as [|e tr He _ IH]; [reflexivity|].
  unfold events_of in *. simpl.
  rewrite He, Nat.eqb_refl. f_equal. exact IH.
Qed.

(** A new flush starts: it gets the next index and its first events. *)
Lemma flush_inv_push fs tr f evs :
  flush_inv fs tr ->
  Forall (fun e => event_flush e = length fs) evs ->
  evs = expected (length fs) f ->
  flush_wf f ->
  flush_inv (fs ++ [f]) (tr ++ evs).
Proof.
  intros [Hev Hbound] Hown Hexp Hwf. split.
  - intros k g Hk. rewrite events_of_app.
    destruct (decide (k = length fs)) as [->|Hne].
    + rewrite list_lookup_middle in Hk by reflexivity.
      injection Hk as <-. split; [|exact Hwf].
      rewrite (events_of_other (length fs) tr).
      * simpl. rewrite (events_of_own (length fs) evs) by exact Hown. exact Hexp.
      * eapply Forall_impl; [exact Hbound|]. simpl. intros; lia.
    + assert (k < length fs) as Hlt.
      { apply lookup_lt_Some in Hk. rewrite length_app in Hk. simpl in Hk. lia. }
      rewrite lookup_app_l in Hk by exact Hlt.
      rewrite (events_of_other k evs).
      * rewrite app_nil_r. apply Hev, Hk.
      * eapply Forall_impl; [exact Hown|]. simpl. intros; lia.
  - rewrite length_app. simpl. apply Forall_app. split.
    + eapply Forall_impl; [exact Hbound|]. simpl. intros; lia.
    + eapply Forall_impl; [exact Hown|]. simpl. intros; lia.
Qed.

(** A suspended flush resumes: its phase advances and it appends events. *)
Lemma flush_inv_advance fs tr k f p evs :
  flush_inv fs tr ->
  fs !! k = Some f ->
  Forall (fun e => event_flush e = k) evs ->
  (flush_wf f ->
   expected k (mkFlush (origin f) (summary f) (local_invalidate f) p)
     = expected k f ++ evs /\
   flush_wf (mkFlush (origin f) (summary f) (local_invalidate f) p)) ->
  flush_inv (set_phase k p fs) (tr ++ evs).
Proof.
  intros [Hev Hbound] Hk Hown Hexp. unfold set_phase. rewrite Hk.
  pose proof (lookup_lt_Some _ _ _ Hk) as Hlt.
  destruct (Hev _ _ Hk) as [Hevk Hwf]. destruct (Hexp Hwf) as [Hexp' Hwf'].
  split.
  - intros j g Hj. rewrite events_of_app.
    destruct (decide (j = k)) as [->|Hne].
    + rewrite list_lookup_insert_eq in Hj by exact Hlt.
      injection Hj as <-. split; [|exact Hwf'].
      rewrite (events_of_own k evs) by exact Hown.
      rewrite Hevk. symmetry. exact Hexp'.
    + rewrite list_lookup_insert_ne in Hj by congruence.
      rewrite (events_of_other j evs).
      * rewrite app_nil_r. apply Hev, Hj.
      * eapply Forall_impl; [exact Hown|]. simpl. intros; congruence.
  - rewrite length_insert. apply Forall_app. split; [exact Hbound|].
    eapply Forall_impl; [exact Hown|]. simpl. intros; lia.
Qed.

Lemma reloadNow_flush_inv st :
  flush_inv (flushes st) (trace st) ->
  flush_inv (flushes (reloadNow workspaceRoot st))
            (trace (reloadNow workspaceRoot st)).
Proof.
  intros Hinv. unfold reloadNow.
  destruct (paths (currentBatch st)) as [|first rest]; simpl.
  - apply flush_inv_push; [exact Hinv| |reflexivity|reflexivity].
    repeat constructor.
  - apply flush_inv_push; [exact Hinv| | |].
    + repeat constructor.
    + destruct (invalidate (currentBatch st)); reflexivity.
    + unfold flush_wf. simpl.
      destruct (invalidate (currentBatch st)) eqn:E; simpl; [reflexivity|exact I].
Qed.

Lemma resume_flush_inv k ok st :
  flush_inv (flushes st) (trace st) ->
  flush_inv (flushes (resume k ok st)) (trace (resume k ok st)).
Proof.
  intros Hinv. unfold resume.
  destruct (flushes st !! k) as [f|] eqn:Hk; [|exact Hinv].
  destruct (phase f) eqn:Hp; try exact Hinv; destruct ok; simpl;
    (eapply flush_inv_advance; [exact Hinv|exact Hk|repeat constructor|]);
    unfold flush_wf, expected; simpl; rewrite Hp;
    unfold prologue, invalidation; simpl; intros Hwf; rewrite ?Hwf;
    rewrite <- ?app_assoc; split; done.
Qed.

Lemma step_flush_inv st a :
  flush_inv (flushes st) (trace st) ->
  flush_inv (flushes (step workspaceRoot st a)) (trace (step workspaceRoot st a)).
Proof.
  intros Hinv. destruct a as [p r| | |k ok]; simpl.
  - exact Hinv.
  - unfold debounceTimerFires. destruct (debouncePending st); [|exact Hinv].
    apply reloadNow_flush_inv. exact Hinv.
  - apply flush_inv_push; [exact Hinv| |reflexivity|reflexivity].
    repeat constructor.
  - apply resume_flush_inv. exact Hinv.
Qed.

Lemma run_flush_inv acts st :
  flush_inv (flushes st) (trace st) ->
  flush_inv (flushes (run workspaceRoot acts st))
            (trace (run workspaceRoot acts st)).
Proof.
  revert st. induction acts as [|a acts IH]; intros st Hinv; [exact Hinv|].
  simpl. apply IH, step_flush_inv, Hinv.
Qed.

Lemma init_flush_inv : flush_inv (flushes init) (trace init).
Proof. split; [intros k f Hk; discriminate Hk|constructor]. Qed.

Lemma run_app acts1 acts2 st :
  run workspaceRoot (acts1 ++ acts2) st
  = run workspaceRoot acts2 (run workspaceRoot acts1 st).
Proof. unfold run. apply fold_left_app. Qed.

(** *** Reading the order of events off a flush's own events *)

Lemma events_of_In k e tr : In e (events_of k tr) <-> In e tr /\ event_flush e = k.
Proof.
  unfold events_of. rewrite List.filter_In.
  destruct (Nat.eqb_spec (event_flush e) k); intuition congruence.
Qed.

Lemma only_after_events_of k a b tr :
  event_flush a = k -> event_flush b = k ->
  only_after a b (events_of k tr) -> only_after a b tr.
Proof.
  intros Ha Hb. apply only_after_filter; apply Nat.eqb_eq; assumption.
Qed.

Ltac flush_cases f :=
  unfold expected, prologue, invalidation, flush_wf in *;
  destruct f as [[|] msg [|] [| | |[|]|]]; simpl in *.

Ltac not_in_list := simpl; intros Hin; decompose [or] Hin; congruence.

Lemma expected_invalidate_iff k f :
  flush_wf f ->
  In (Called k InvalidateBuildSet) (expected k f) <-> local_invalidate f = true.
Proof.
  intros Hwf. flush_cases f; try discriminate;
    split; intros H; try reflexivity; try discriminate;
    simpl in *; intuition congruence.
Qed.

Lemma expected_rebuild_after_invalidate k f :
  local_invalidate f = true ->
  only_after (Settled k InvalidateBuildSet true) (Called k Rebuild) (expected k f).
Proof.
  intros Hinv. flush_cases f; try discriminate;
    first
      [ apply only_after_absent; not_in_list
      | apply (only_after_intro [_; _; _; _]); [not_in_list|congruence]
      | apply (only_after_intro [_]); [not_in_list|congruence] ].
Qed.

Lemma expected_restart_after_rebuild k f :
  only_after (Settled k Rebuild true) (Restart k) (expected k f).
Proof.
  flush_cases f;
    first
      [ apply only_after_absent; not_in_list
      | apply (only_after_intro [_; _; _; _; _; _]); [not_in_list|congruence]
      | apply (only_after_intro [_; _; _; _]); [not_in_list|congruence]
      | apply (only_after_intro [_; _; _]); [not_in_list|congruence]
      | apply (only_after_intro [_]); [not_in_list|congruence] ].
Qed.

Lemma expected_call_after_reset k f op :
  origin f = FromBatch ->
  only_after (BatchReset k) (Called k op) (expected k f).
Proof.
  intros Ho. flush_cases f; try discriminate;
    first
      [ apply only_after_absent; not_in_list
      | apply (only_after_intro [_; _]); [not_in_list|congruence] ].
Qed.

Lemma expected_reset_after_snapshot k f :
  only_after (Snapshot k (local_invalidate f)) (BatchReset k) (expected k f).
Proof.
  flush_cases f;
    first
      [ apply only_after_absent; not_in_list
      | apply (only_after_intro [_]); [not_in_list|congruence] ].
Qed.

(** *** The debounce: a scheduled [reloadNow] finds a non-empty batch *)

Lemma step_debounce_inv st a :
  debounce_inv st /\ no_type_error st ->
  debounce_inv (step workspaceRoot st a) /\ no_type_error (step workspaceRoot st a).
Proof.
  intros [Hd Hn]. destruct a as [p r| | |k ok]; simpl.
  - split; [|exact Hn]. intros _. simpl.
    destruct (paths (currentBatch st)); discriminate.
  - unfold debounceTimerFires. destruct (debouncePending st) eqn:Hp; [|tauto].
    specialize (Hd Hp). unfold reloadNow. simpl.
    destruct (paths (currentBatch st)) as [|first rest]; [congruence|].
    split; [intros Hf; discriminate Hf|].
    intros j Hin. simpl in Hin. apply in_app_or in Hin.
    destruct Hin as [Hin|Hin]; [exact (Hn j Hin)|].
    simpl in Hin. decompose [or] Hin; congruence.
  - split; [exact Hd|]. intros j Hin. simpl in Hin.
    apply in_app_or in Hin. destruct Hin as [Hin|Hin]; [exact (Hn j Hin)|].
    simpl in Hin. decompose [or] Hin; congruence.
  - unfold resume. destruct (flushes st !! k) as [f|]; [|tauto].
    destruct (phase f); try tauto; destruct ok; (split; [exact Hd|]);
      intros j Hin; simpl in Hin; apply in_app_or in Hin;
      (destruct Hin as [Hin|Hin]; [exact (Hn j Hin)|]);
      simpl in Hin; decompose [or] Hin; congruence.
Qed.

Lemma run_debounce_inv acts st :
  debounce_inv st /\ no_type_error st ->
  debounce_inv (run workspaceRoot acts st) /\ no_type_error (run workspaceRoot acts st).
Proof.
  revert st. induction acts as [|a acts IH]; intros st H; [exact H|].
  simpl. apply IH, step_debounce_inv, H.
Qed.

End ProjectFacts.

(** A direct call of [reloadNow] on an empty batch does throw: the guard
    proved below is not vacuous. *)
Example reloadNow_on_empty_batch_throws :
  Project.trace (Project.reloadNow "/ws" Project.init) = [Project.TypeError 0].
Proof. reflexivity. Qed.

(** C1, as stated, fails in its conclusion: flushes that overlap in time
    are not serialised.  Below, a first reload is waiting for its rebuild when
    a second one starts and empties the build-set; the first rebuild then
    settles and the first reload restarts the child while the second reload's
    rebuild is still under way. *)
Lemma C1_restart_during_rebuild_counterexample :
  let acts := [Project.Enqueue "/ws/src/a.ts" false; Project.TimerFires;
               Project.Enqueue "/ws/src/b.ts" true; Project.TimerFires;
               Project.Settle 1 true;
               Project.Settle 0 true] in
  let st := Project.run "/ws" acts Project.init in
  let before :=
    [Project.LogInfo 0 "/src/a.ts changed, restarting ...";
     Project.Snapshot 0 false; Project.BatchReset 0;
     Project.Called 0 Project.Rebuild;
     Project.LogInfo 1 "/src/b.ts changed, reinitializing and restarting ...";
     Project.Snapshot 1 true; Project.BatchReset 1;
     Project.Called 1 Project.InvalidateBuildSet;
     Project.Settled 1 Project.InvalidateBuildSet true;
     Project.Called 1 Project.Rebuild;
     Project.Settled 0 Project.Rebuild true] in
  Project.trace st = before ++ [Project.Restart 0] /\
  Project.compiling 1 before = true /\
  Project.restart_observes_partial [] (Project.trace st) = true.
Proof. vm_compute. repeat split. Qed.

(** C1 (amended).  For every flush [k] of the reload controller, in every
    interleaving of watcher events, timer expiries, restart commands and
    settling compiler promises:
    - [reloadNow] on a non-empty batch logs, snapshots the invalidate flag and
      resets [currentBatch] to the empty batch in the same synchronous step,
      before its first compiler call;
    - the flush has produced exactly the events [expected] lists for the
      point it has reached, in that order;
    - [compiler.invalidateBuildSet()] is called by the flush exactly when its
      snapshotted flag is true;
    - if the flag is true, [compiler.rebuild()] is called only after the
      invalidation has settled successfully;
    - [supervisor.restart()] is invoked only after the flush's rebuild has
      settled successfully;
    - for [reloadNow], every compiler call comes after the batch reset, which
      comes after the snapshot;
    - when the flush restarts the child, its own compile work is over. *)
Theorem C1_reload_sequencing (workspaceRoot : string)
    (acts : list Project.Action) (k : nat) (f : Project.Flush) :
  let st := Project.run workspaceRoot acts Project.init in
  Project.flushes st !! k = Some f ->
  (forall s first rest,
     Project.paths (Project.currentBatch s) = first :: rest ->
     let inv := Project.invalidate (Project.currentBatch s) in
     let j := length (Project.flushes s) in
     Project.currentBatch (Project.reloadNow workspaceRoot s) = Project.emptyBatch /\
     Project.trace (Project.reloadNow workspaceRoot s)
     = Project.trace s ++
       [Project.LogInfo j (Project.message workspaceRoot first (Project.currentBatch s));
        Project.Snapshot j inv;
        Project.BatchReset j;
        Project.Called j (if inv then Project.InvalidateBuildSet else Project.Rebuild)]) /\
  Project.events_of k (Project.trace st) = Project.expected k f /\
  (In (Project.Called k Project.InvalidateBuildSet) (Project.trace st)
   <-> Project.local_invalidate f = true) /\
  (Project.local_invalidate f = true ->
   only_after (Project.Settled k Project.InvalidateBuildSet true)
                      (Project.Called k Project.Rebuild) (Project.trace st)) /\
  only_after (Project.Settled k Project.Rebuild true)
                     (Project.Restart k) (Project.trace st) /\
  (Project.origin f = Project.FromBatch ->
   (forall op, only_after (Project.BatchReset k) (Project.Called k op)
                                  (Project.trace st)) /\
   only_after (Project.Snapshot k (Project.local_invalidate f))
                      (Project.BatchReset k) (Project.trace st)) /\
  (forall before after,
     Project.trace st = before ++ Project.Restart k :: after ->
     Project.compiling k before = false).
Proof.
  intros st Hk.
  destruct (run_flush_inv workspaceRoot acts Project.init init_flush_inv)
    as [Hev _].
  destruct (Hev k f Hk) as [Hexp Hwf]. fold st in Hexp.
  assert (only_after (Project.Settled k Project.Rebuild true)
                     (Project.Restart k) (Project.trace st)) as Hrestart.
  { apply (only_after_events_of k); [reflexivity..|].
    rewrite Hexp. apply expected_restart_after_rebuild. }
  split; [|split; [exact Hexp|split; [|split; [|split; [|split]]]]].
  - intros s first rest Hp. unfold Project.reloadNow. rewrite Hp. simpl.
    split; reflexivity.
  - rewrite <- (expected_invalidate_iff k f Hwf), <- Hexp, events_of_In.
    simpl. tauto.
  - intros Hinv. apply (only_after_events_of k); [reflexivity..|].
    rewrite Hexp. apply expected_rebuild_after_invalidate, Hinv.
  - exact Hrestart.
  - intros Ho. split.
    + intros op. apply (only_after_events_of k); [reflexivity..|].
      rewrite Hexp. apply expected_call_after_reset, Ho.
    + apply (only_after_events_of k); [reflexivity..|].
      rewrite Hexp. apply expected_reset_after_snapshot.
  - intros before after Htr. unfold Project.compiling.
    apply andb_false_iff. right. apply negb_false_iff, existsb_exists.
    exists (Project.Settled k Project.Rebuild true).
    split; [exact (Hrestart before after Htr)|apply Nat.eqb_refl].
Qed.

Lemma C1_reload_sequencing_witness :
  let acts := [Project.Enqueue "/ws/src/a.ts" false;
               Project.Enqueue "/ws/src/b.ts" true;
               Project.TimerFires;
               Project.Enqueue "/ws/src/c.ts" false;
               Project.Settle 0 true;
               Project.Settle 0 true] in
  let f := Project.mkFlush Project.FromBatch
             "/src/a.ts and 1 others changed, reinitializing and restarting ..."
             true Project.Completed in
  let st := Project.run "/ws" acts Project.init in
  Project.flushes st !! 0 = Some f /\
  Project.trace st =
    [Project.LogInfo 0 "/src/a.ts and 1 others changed, reinitializing and restarting ...";
     Project.Snapshot 0 true; Project.BatchReset 0;
     Project.Called 0 Project.InvalidateBuildSet;
     Project.Settled 0 Project.InvalidateBuildSet true;
     Project.Called 0 Project.Rebuild;
     Project.Settled 0 Project.Rebuild true;
     Project.Restart 0] /\
  Project.currentBatch st = Project.mkBatch ["/ws/src/c.ts"] false /\
  only_after (Project.Settled 0 Project.Rebuild true)
                     (Project.Restart 0) (Project.trace st).
Proof.
  intros acts f st.
  split; [reflexivity|split; [reflexivity|split; [reflexivity|]]].
  exact (proj1 (proj2 (proj2 (proj2 (proj2
           (C1_reload_sequencing "/ws" acts 0 f eq_refl)))))).
Defined.

(** C10.  In every interleaving of watcher events, timer expiries, restart
    commands and settling promises, a pending debounced invocation always
    finds at least one path in the current batch, so no invocation of
    [reloadNow] by the debounce reads a missing [paths[0]]: no flush throws
    the TypeError. *)
Theorem C10_debounced_batch_nonempty (workspaceRoot : string)
    (acts : list Project.Action) :
  let st := Project.run workspaceRoot acts Project.init in
  (Project.debouncePending st = true ->
   Project.paths (Project.currentBatch st) <> []) /\
  (forall k, ~ In (Project.TypeError k) (Project.trace st)) /\
  (forall k f, Project.flushes st !! k = Some f ->
               Project.phase f <> Project.Threw).
Proof.
  intros st.
  destruct (run_debounce_inv workspaceRoot acts Project.init) as [Hd Hn].
  { split; [intros H; discriminate H|intros k H; exact H]. }
  split; [exact Hd|split; [exact Hn|]].
  intros k f Hk Hp.
  destruct (run_flush_inv workspaceRoot acts Project.init init_flush_inv)
    as [Hev _].
  destruct (Hev k f Hk) as [Hexp _]. fold st in Hexp.
  assert (In (Project.TypeError k) (Project.events_of k (Project.trace st)))
    as Hin.
  { rewrite Hexp. unfold Project.expected. rewrite Hp. left. reflexivity. }
  apply events_of_In in Hin. exact (Hn k (proj1 Hin)).
Qed.

Lemma C10_debounced_batch_nonempty_witness :
  let st := Project.run "/ws"
              [Project.Enqueue "/ws/src/a.ts" true; Project.TimerFires;
               Project.Enqueue "/ws/src/b.ts" false]
              Project.init in
  Project.debouncePending st = true /\
  Project.paths (Project.currentBatch st) <> [] /\
  Project.flushes st
  = [Project.mkFlush Project.FromBatch
       "/src/a.ts changed, reinitializing and restarting ..." true
       Project.AwaitInvalidate].
Proof.
  intros st. split; [reflexivity|]. split; [|reflexivity].
  exact (proj1 (C10_debounced_batch_nonempty "/ws"
                  [Project.Enqueue "/ws/src/a.ts" true; Project.TimerFires;
                   Project.Enqueue "/ws/src/b.ts" false]) eq_refl).
Defined.

(** ** The synchronous bridge *)

(** C2.  [call] posts exactly one call, carrying the next id, and then:
    - if [Atomics.wait] reports "timed-out" it throws the internal time-out
      error;
    - if the status is none of "timed-out", "ok", "not-equal" it throws the
      wait-failed error;
    - otherwise it takes exactly one message from the port: if there is
      none it throws, if the message's id differs from the id sent it
      throws, and else the response is thrown (truthy [error]) or its
      [result] is returned. *)
Theorem C2_call_outcomes (status : string) (a : list SyncWorker.JsValue)
    (v : SyncWorker.MainView) :
  let sent := SyncWorker.view_idCounter v in
  let outcome := fst (SyncWorker.run_main status (SyncWorker.call a) v) in
  let v' := snd (SyncWorker.run_main status (SyncWorker.call a) v) in
  SyncWorker.view_sent v'
  = SyncWorker.view_sent v ++ [SyncWorker.mkCall sent a (SyncWorker.view_buffers v)] /\
  SyncWorker.view_idCounter v' = (sent + 1)%Z /\
  (status = "timed-out" ->
   outcome = SyncWorker.Thrown (SyncWorker.VError SyncWorker.timed_out_message) /\
   SyncWorker.view_inbox v' = SyncWorker.view_inbox v) /\
  (status <> "timed-out" -> status <> "ok" -> status <> "not-equal" ->
   outcome = SyncWorker.Thrown
               (SyncWorker.VError (SyncWorker.wait_failed_message status)) /\
   SyncWorker.view_inbox v' = SyncWorker.view_inbox v) /\
  (status = "ok" \/ status = "not-equal" ->
   (SyncWorker.view_inbox v = [] ->
    outcome = SyncWorker.Thrown (SyncWorker.VError SyncWorker.no_response_message)) /\
   (forall response rest,
      SyncWorker.view_inbox v = response :: rest ->
      SyncWorker.view_inbox v' = rest /\
      (SyncWorker.id response <> sent ->
       outcome = SyncWorker.Thrown
                   (SyncWorker.VError
                      (SyncWorker.incorrect_id_message sent (SyncWorker.id response)))) /\
      (SyncWorker.id response = sent ->
       SyncWorker.truthy (SyncWorker.error response) = true ->
       outcome = SyncWorker.Thrown (SyncWorker.error response)) /\
      (SyncWorker.id response = sent ->
       SyncWorker.truthy (SyncWorker.error response) = false ->
       outcome = SyncWorker.Returned (SyncWorker.result response)))).
Proof.
  intros sent outcome v'. subst outcome v'.
  unfold SyncWorker.call. cbn [SyncWorker.run_main].
  unfold SyncWorker.after_wait.
  destruct (String.eqb_spec status "timed-out") as [->|Hto].
  { cbn. split; [reflexivity|]. split; [reflexivity|].
    split; [intros _; split; reflexivity|].
    split; [intros Hc; contradiction Hc; reflexivity|].
    intros [Hc|Hc]; discriminate Hc. }
  assert (forall b : bool, b = false ->
    let r := SyncWorker.run_main status
      (if b then SyncWorker.Ret
                   (SyncWorker.Thrown
                      (SyncWorker.VError (SyncWorker.wait_failed_message status)))
       else SyncWorker.Do SyncWorker.ReceiveMessageOnPort
              (fun message => SyncWorker.Ret (SyncWorker.after_receive sent message)))
      (SyncWorker.mkView (sent + 1) (S (SyncWorker.view_buffers v))
         (SyncWorker.view_sent v ++
          [SyncWorker.mkCall sent a (SyncWorker.view_buffers v)])
         (SyncWorker.view_inbox v)) in
    (SyncWorker.view_inbox v = [] ->
     fst r = SyncWorker.Thrown (SyncWorker.VError SyncWorker.no_response_message)) /\
    (forall response rest,
      SyncWorker.view_inbox v = response :: rest ->
      SyncWorker.view_inbox (snd r) = rest /\
      (SyncWorker.id response <> sent ->
       fst r = SyncWorker.Thrown
                 (SyncWorker.VError
                    (SyncWorker.incorrect_id_message sent (SyncWorker.id response)))) /\
      (SyncWorker.id response = sent ->
       SyncWorker.truthy (SyncWorker.error response) = true ->
       fst r = SyncWorker.Thrown (SyncWorker.error response)) /\
      (SyncWorker.id response = sent ->
       SyncWorker.truthy (SyncWorker.error response) = false ->
       fst r = SyncWorker.Returned (SyncWorker.result response)))) as Hreceive.
  { intros b ->. cbn. split.
    - intros ->. reflexivity.
    - intros response rest ->. cbn. split; [reflexivity|].
      destruct (Z.eqb_spec (SyncWorker.id response) sent) as [Heq|Hneq]; cbn.
      + split; [intros Hc; contradiction|].
        split; intros _ ->; reflexivity.
      + split; [intros _; reflexivity|]. split; intros Hc; contradiction. }
  destruct (negb (String.eqb status "ok") && negb (String.eqb status "not-equal"))
    eqn:Hother.
  - apply andb_true_iff in Hother as [Hok Hne].
    apply negb_true_iff in Hok, Hne.
    apply String.eqb_neq in Hok, Hne.
    cbn. split; [reflexivity|]. split; [reflexivity|].
    split; [intros Hc; contradiction|].
    split; [intros _ _ _; split; reflexivity|].
    intros [Hc|Hc]; contradiction.
  - specialize (Hreceive false eq_refl). cbv zeta in Hreceive.
    split; [reflexivity|]. split; [reflexivity|].
    split; [intros Hc; contradiction|].
    split; [|intros _; exact Hreceive].
    intros _ Hok Hne. apply String.eqb_neq in Hok, Hne.
    rewrite Hok, Hne in Hother. discriminate Hother.
Qed.

Lemma C2_call_outcomes_witness :
  let v := SyncWorker.mkView 7 0 []
             [SyncWorker.mkResponse 7 (SyncWorker.VString "code") SyncWorker.VUndefined] in
  fst (SyncWorker.run_main "ok" (SyncWorker.call [SyncWorker.VString "/ws/a.ts"]) v)
  = SyncWorker.Returned (SyncWorker.VString "code") /\
  fst (SyncWorker.run_main "timed-out" (SyncWorker.call [SyncWorker.VString "/ws/a.ts"]) v)
  = SyncWorker.Thrown (SyncWorker.VError SyncWorker.timed_out_message).
Proof.
  intros v. split.
  - pose proof (C2_call_outcomes "ok" [SyncWorker.VString "/ws/a.ts"] v) as H.
    destruct H as (_ & _ & _ & _ & H).
    destruct (H (or_introl eq_refl)) as [_ H1].
    destruct (H1 _ _ eq_refl) as (_ & _ & _ & H2).
    exact (H2 eq_refl eq_refl).
  - pose proof (C2_call_outcomes "timed-out" [SyncWorker.VString "/ws/a.ts"] v) as H.
    destruct H as (_ & _ & H & _). exact (proj1 (H eq_refl)).
Defined.

(** *** Shared memory *)

Section BridgeFacts.
Import SyncWorker.







(** *** Traces of the bridge *)









(** *** Preservation of the invariant *)





















End BridgeFacts.



(** ** The SWC backend *)


(** *** JavaScript maps *)

Section JsMapFacts.
Context {V : Type}.
Implicit Types (m : JsMap V) (k : string) (v : V).

Lemma map_has_keys k m : map_has k m = true <-> k ∈ map_keys m.
Proof.
  unfold map_has, map_keys. induction m as [|[k' v'] m IH]; simpl.
  - split; [discriminate|]. intros H. inversion H.
  - destruct (String.eqb_spec k k') as [->|Hne].
    + split; [intros _; left|reflexivity].
    + rewrite IH. rewrite elem_of_cons. tauto.
Qed.

Lemma map_get_elem_of k v m : map_get k m = Some v -> (k, v) ∈ m.
Proof.
  induction m as [|[k' v'] m IH]; simpl; [discriminate|].
  destruct (String.eqb_spec k k') as [->|Hne].
  - intros [= ->]. left.
  - intros H. right. apply IH, H.
Qed.

Lemma elem_of_map_set k v m k' v' :
  (k', v') ∈ map_set k v m -> (k' = k /\ v' = v) \/ (k', v') ∈ m.
Proof.
  induction m as [|[k0 v0] m IH]; simpl.
  - rewrite list_elem_of_singleton. intros [= -> ->]. left. tauto.
  - destruct (String.eqb_spec k k0) as [->|Hne]; rewrite !elem_of_cons.
    + intros [[= -> ->]|H]; [left; tauto|right; right; exact H].
    + intros [H|H]; [right; left; exact H|].
      destruct (IH H) as [?|?]; [left; assumption|right; right; assumption].
Qed.

Lemma map_keys_set k v m :
  map_keys (map_set k v m)
  = if map_has k m then map_keys m else map_keys m ++ [k].
Proof.
  unfold map_has, map_keys. induction m as [|[k0 v0] m IH]; simpl; [reflexivity|].
  destruct (String.eqb_spec k k0) as [->|Hne]; simpl; [reflexivity|].
  rewrite IH. destruct (map_get k m); reflexivity.
Qed.

Lemma elem_of_keys_set f k v m :
  f ∈ map_keys (map_set k v m) <-> f = k \/ f ∈ map_keys m.
Proof.
  rewrite map_keys_set. destruct (map_has k m) eqn:E.
  - apply map_has_keys in E. split; [tauto|]. intros [->|H]; assumption.
  - rewrite elem_of_app, list_elem_of_singleton. tauto.
Qed.

Lemma NoDup_keys_set k v m :
  NoDup (map_keys m) -> NoDup (map_keys (map_set k v m)).
Proof.
  intros Hnd. rewrite map_keys_set. destruct (map_has k m) eqn:E; [exact Hnd|].
  apply NoDup_app. split; [exact Hnd|]. split; [|apply NoDup_singleton].
  intros x Hx Hk. apply list_elem_of_singleton in Hk as ->.
  apply map_has_keys in Hx. congruence.
Qed.

Lemma map_get_set k' k v m :
  map_get k' (map_set k v m) = if String.eqb k' k then Some v else map_get k' m.
Proof.
  induction m as [|[k0 v0] m IH]; simpl.
  - destruct (String.eqb k' k); reflexivity.
  - destruct (String.eqb_spec k k0) as [->|Hne]; simpl.
    + destruct (String.eqb k' k0); reflexivity.
    + rewrite IH. destruct (String.eqb_spec k' k0) as [->|Hne'];
        [|reflexivity].
      destruct (String.eqb_spec k0 k); [congruence|reflexivity].
Qed.

Lemma map_has_set k' k v m :
  map_has k' (map_set k v m) = String.eqb k' k || map_has k' m.
Proof.
  unfold map_has. rewrite map_get_set. destruct (String.eqb k' k); reflexivity.
Qed.

Lemma NoDup_keys_filter (p : string * V -> bool) m :
  NoDup (map_keys m) -> NoDup (map_keys (List.filter p m)).
Proof.
  unfold map_keys. induction m as [|[k v] m IH]; simpl; [intros H; exact H|].
  intros Hnd. apply NoDup_cons in Hnd as [Hk Hnd].
  destruct (p (k, v)); simpl; [|apply IH, Hnd].
  apply NoDup_cons. split; [|apply IH, Hnd].
  intros Hin. apply Hk.
  apply list_elem_of_In, in_map_iff in Hin as [[k' v'] [Hfst Hin]].
  apply List.filter_In in Hin as [Hin _].
  apply list_elem_of_In, in_map_iff. exists (k', v'). split; assumption.
Qed.

End JsMapFacts.

Section ListFacts.
Context {A : Type}.

Lemma In_delete (x : A) (i : nat) (l : list A) : In x (delete i l) -> In x l.
Proof.
  revert i. induction l as [|y l IH]; intros [|i]; simpl; auto.
  intros [->|H]; [left; reflexivity|right; exact (IH i H)].
Qed.

Lemma In_lookup_or_delete (x b : A) (i : nat) (l : list A) :
  l !! i = Some b -> In x l -> x = b \/ In x (delete i l).
Proof.
  revert i. induction l as [|y l IH]; intros [|i]; simpl; try discriminate.
  - intros [= ->] [->|H]; [left; reflexivity|right; exact H].
  - intros Hi [->|H]; [right; left; reflexivity|].
    destruct (IH i Hi H) as [->|H']; [left; reflexivity|right; right; exact H'].
Qed.

Lemma lookup_In (b : A) (i : nat) (l : list A) : l !! i = Some b -> In b l.
Proof. intros H. apply list_elem_of_In. eapply list_elem_of_lookup_2, H. Qed.

End ListFacts.

Section SwcFacts.
Import SwcCompiler.
Variable env : Env.

(** *** One build settles *)

Lemma settle_failure b st e :
  failure env b = Some e -> settle env b st = (Throw e, st).
Proof.
  unfold failure, settle. destruct (build_output b) as [out|e']; [|congruence].
  destruct (is_debug_dump (build_filename b)); [|discriminate].
  destruct (writeFileSync env _ out) as [u|e']; [discriminate|congruence].
Qed.

Lemma settle_success b st :
  failure env b = None ->
  exists out,
    build_output b = Ok out /\
    fst (settle env b st) = Ok (mkFile (build_filename b) (build_root b) out) /\
    compiledFiles (snd (settle env b st))
    = addFile (mkFile (build_filename b) (build_root b) out) (compiledFiles st) /\
    pending (snd (settle env b st)) = pending st /\
    logged_errors (log (snd (settle env b st))) = logged_errors (log st).
Proof.
  unfold failure, settle. destruct (build_output b) as [out|e']; [|discriminate].
  destruct (is_debug_dump (build_filename b)).
  - destruct (writeFileSync env _ out) as [u|e']; [|discriminate].
    intros _. exists out. simpl. unfold logged_errors.
    rewrite omap_app. simpl. rewrite app_nil_r. auto.
  - intros _. exists out. simpl. auto.
Qed.

Lemma settle_Ok b st file st1 :
  settle env b st = (Ok file, st1) -> failure env b = None.
Proof.
  destruct (failure env b) as [e|] eqn:E; [|reflexivity].
  rewrite (settle_failure b st e E). discriminate.
Qed.

Lemma settle_Throw b st e st1 :
  settle env b st = (Throw e, st1) -> failure env b = Some e /\ st1 = st.
Proof.
  destruct (failure env b) as [e'|] eqn:E.
  - rewrite (settle_failure b st e' E). intros [= <- <-]. auto.
  - destruct (settle_success b st E) as (out & _ & Hres & _).
    intros H. rewrite H in Hres. discriminate Hres.
Qed.

Lemma builds_failure f r :
  builds env f r = true <-> failure env (start env f r) = None.
Proof.
  unfold builds, failure, start. simpl.
  destruct (transformFile env f r) as [out|e]; [|split; discriminate].
  destruct (is_debug_dump f); [|tauto].
  destruct (writeFileSync env _ out); split; (reflexivity || discriminate).
Qed.

Lemma land_none i st : pending st = [] -> land env i st = st.
Proof. intros H. unfold land. rewrite H. reflexivity. Qed.

(** What [land] does: nothing, or it takes a build out of flight and
    settles it. *)
Lemma land_cases i st :
  land env i st = st \/
  exists b,
    pending st !! i = Some b /\
    pending (land env i st) = delete i (pending st) /\
    ((failure env b <> None /\
      compiledFiles (land env i st) = compiledFiles st /\
      log (land env i st) = log st) \/
     (exists out,
        failure env b = None /\ build_output b = Ok out /\
        compiledFiles (land env i st)
        = addFile (mkFile (build_filename b) (build_root b) out) (compiledFiles st) /\
        logged_errors (log (land env i st)) = logged_errors (log st))).
Proof.
  unfold land. destruct (pending st !! i) as [b|] eqn:Hi; [right|left; reflexivity].
  exists b. split; [reflexivity|].
  destruct (failure env b) as [e|] eqn:E.
  - rewrite (settle_failure b _ e E). simpl. split; [reflexivity|].
    left. split; [discriminate|]. auto.
  - destruct (settle_success b
                (mkState (compiledFiles st) (log st) (delete i (pending st))) E)
      as (out & Hout & _ & Hcf & Hp & Hl).
    split; [exact Hp|]. right. exists out. auto.
Qed.

(** *** Every wait is one of the waits of [awaited] *)

Lemma drain_awaited own st err later st' :
  drain env own st = (err, later, st') -> awaited env own st err later st'.
Proof.
  revert st. induction own as [|b rest IH]; intros st; simpl.
  - intros [= <- <- <-]. constructor.
  - destruct (settle env b st) as [[file|e] st1] eqn:Hs.
    + intros H. apply (awaited_fulfil env (b :: rest) st 0 b file st1);
        [reflexivity|exact Hs|]. apply IH, H.
    + intros [= <- <- <-].
      apply (awaited_reject env (b :: rest) st 0 b e st1); [reflexivity|exact Hs].
Qed.

Lemma await_all_awaited ticks own st err later st' :
  await_all env ticks own st = (err, later, st') ->
  awaited env own st err later st'.
Proof.
  revert own st. induction ticks as [|t ticks IH]; intros own st.
  - destruct own as [|b0 own0]; [intros [= <- <- <-]; constructor|].
    apply drain_awaited.
  - destruct own as [|b0 own0]; [intros [= <- <- <-]; constructor|].
    remember (b0 :: own0) as own eqn:Hown.
    assert (await_all env (t :: ticks) own st
            = match t with
              | Own i =>
                  match own !! i with
                  | Some b =>
                      match settle env b st with
                      | (Throw e, st1) => (Some e, delete i own, st1)
                      | (Ok _, st1) => await_all env ticks (delete i own) st1
                      end
                  | None => await_all env ticks own st
                  end
              | Earlier i => await_all env ticks own (land env i st)
              end) as ->.
    { subst own. reflexivity. }
    assert (own <> []) as Hne by (subst own; discriminate).
    clear Hown b0 own0. destruct t as [i|i].
    + destruct (own !! i) as [b|] eqn:Hi; [|apply IH].
      destruct (settle env b st) as [[file|e] st1] eqn:Hs.
      * intros H. apply (awaited_fulfil env own st i b file st1);
          [exact Hi|exact Hs|]. apply IH, H.
      * intros [= <- <- <-]. apply (awaited_reject env own st i b e st1);
          [exact Hi|exact Hs].
    + intros H. apply awaited_earlier with (i := i); [exact Hne|]. apply IH, H.
Qed.

Lemma await_awaited own st :
  exists later st1,
    awaited env own st (fst (await env own st)) later st1 /\
    snd (await env own st) = in_flight later st1.
Proof.
  unfold await.
  destruct (await_all env (settles env own (pending st)) own st)
    as [[err later] st1] eqn:H.
  exists later, st1. split; [|reflexivity]. apply await_all_awaited in H. exact H.
Qed.

(** A wait for one build, with nothing else in flight, ends when that build
    settles. *)
Lemma await_all_single ticks b st :
  pending st = [] ->
  await_all env ticks [b] st
  = match settle env b st with
    | (Throw e, st1) => (Some e, [], st1)
    | (Ok _, st1) => (None, [], st1)
    end.
Proof.
  intros Hp. induction ticks as [|[[|i]|i] ticks IH]; simpl.
  - destruct (settle env b st) as [[file|e] st1]; reflexivity.
  - destruct (settle env b st) as [[file|e] st1]; [|reflexivity].
    destruct ticks; reflexivity.
  - exact IH.
  - rewrite (land_none i st Hp). exact IH.
Qed.

(** *** Invariants of the cache and of the builds in flight *)

Section Invariant.
Variable I : CompiledFiles -> Prop.
Variable Q : Build -> Prop.
Hypothesis I_empty : I [].
Hypothesis I_add : forall b out groups,
  Q b -> build_output b = Ok out -> I groups ->
  I (addFile (mkFile (build_filename b) (build_root b) out) groups).
Hypothesis Q_enumerated : forall fname r f,
  find_root env fname = Ok r -> f ∈ enumerate env r -> Q (start env f r).
Hypothesis Q_cached : forall groups r fs f,
  I groups -> (r, fs) ∈ groups -> f ∈ map_keys fs -> Q (start env f r).

Lemma settle_holds b st :
  Q b -> I (compiledFiles st) -> I (compiledFiles (snd (settle env b st))).
Proof.
  intros Hq Hi. destruct (failure env b) as [e|] eqn:E.
  - rewrite (settle_failure b st e E). exact Hi.
  - destruct (settle_success b st E) as (out & Hout & _ & -> & _).
    apply I_add; assumption.
Qed.

Lemma settle_pending b st : pending (snd (settle env b st)) = pending st.
Proof.
  destruct (failure env b) as [e|] eqn:E.
  - rewrite (settle_failure b st e E). reflexivity.
  - destruct (settle_success b st E) as (out & _ & _ & _ & -> & _). reflexivity.
Qed.

Lemma land_holds i st :
  I (compiledFiles st) -> Forall Q (pending st) ->
  I (compiledFiles (land env i st)) /\ Forall Q (pending (land env i st)).
Proof.
  intros Hi Hq. unfold land.
  destruct (pending st !! i) as [b|] eqn:Hb; [|auto].
  split.
  - apply settle_holds; [|exact Hi].
    eapply Forall_forall; [exact Hq|]. eapply list_elem_of_lookup_2, Hb.
  - rewrite settle_pending. simpl. apply Forall_delete, Hq.
Qed.

Lemma awaited_holds own st err later st' :
  awaited env own st err later st' ->
  Forall Q own -> I (compiledFiles st) -> Forall Q (pending st) ->
  I (compiledFiles st') /\ Forall Q (pending st') /\ Forall Q later.
Proof.
  induction 1 as [st|own st i b file st1 err later st2 Hi Hs _ IH
                  |own st i b e st1 Hi Hs|own st i err later st2 _ _ IH];
    intros Hown Hc Hp.
  - auto.
  - apply IH.
    + apply Forall_delete, Hown.
    + replace st1 with (snd (settle env b st)) by (rewrite Hs; reflexivity).
      apply settle_holds; [|exact Hc].
      eapply Forall_forall; [exact Hown|]. eapply list_elem_of_lookup_2, Hi.
    + replace st1 with (snd (settle env b st)) by (rewrite Hs; reflexivity).
      rewrite settle_pending. exact Hp.
  - apply settle_Throw in Hs as [_ ->].
    split; [exact Hc|]. split; [exact Hp|]. apply Forall_delete, Hown.
  - destruct (land_holds i st Hc Hp) as [Hc' Hp']. apply IH; assumption.
Qed.

Lemma await_holds own st :
  Forall Q own -> I (compiledFiles st) -> Forall Q (pending st) ->
  I (compiledFiles (snd (await env own st))) /\
  Forall Q (pending (snd (await env own st))).
Proof.
  intros Hown Hc Hp. destruct (await_awaited own st) as (later & st1 & Haw & ->).
  destruct (awaited_holds _ _ _ _ _ Haw Hown Hc Hp) as (Hc' & Hp' & Hl).
  simpl. split; [exact Hc'|]. apply Forall_app. split; assumption.
Qed.

Lemma reportErrors_files outcome :
  compiledFiles (reportErrors outcome) = compiledFiles (snd outcome).
Proof. destruct outcome as [[[m]|] st]; reflexivity. Qed.

Lemma reportErrors_pending outcome :
  pending (reportErrors outcome) = pending (snd outcome).
Proof. destruct outcome as [[[m]|] st]; reflexivity. Qed.

Lemma buildGroup_holds fname st :
  I (compiledFiles st) -> Forall Q (pending st) ->
  I (compiledFiles (snd (buildGroup env fname st))) /\
  Forall Q (pending (snd (buildGroup env fname st))).
Proof.
  intros Hc Hp. unfold buildGroup, getModule.
  destruct (find_root env fname) as [r|e] eqn:Hr; [|auto].
  simpl. rewrite reportErrors_files, reportErrors_pending.
  destruct (await env _ _) as [err st1] eqn:Haw.
  change st1 with (snd (err, st1)). rewrite <- Haw.
  apply await_holds; [|exact Hc|exact Hp].
  apply Forall_forall. intros b Hb.
  apply list_elem_of_In, in_map_iff in Hb as (f & <- & Hf).
  apply (Q_enumerated fname r f Hr), list_elem_of_In, Hf.
Qed.

Lemma group_Some fname groups g :
  group fname groups = Some g ->
  exists fs, (group_root g, fs) ∈ groups /\ fname ∈ map_keys fs.
Proof.
  induction groups as [|[r fs] rest IH]; simpl; [discriminate|].
  destruct (map_has fname fs) eqn:E.
  - intros [= <-]. exists fs. split; [left|apply map_has_keys, E].
  - intros H. destruct (IH H) as [fs' [Hin Hk]]. exists fs'.
    split; [right; exact Hin|exact Hk].
Qed.

Lemma compile_holds fname st :
  I (compiledFiles st) -> Forall Q (pending st) ->
  I (compiledFiles (snd (compile env fname st))) /\
  Forall Q (pending (snd (compile env fname st))).
Proof.
  intros Hc Hp. unfold compile.
  destruct (group fname (compiledFiles st)) as [g|] eqn:Hg.
  - destruct (group_Some _ _ _ Hg) as [fs [Hin Hk]].
    pose proof (await_holds [start env fname (group_root g)] st) as H1.
    destruct (await env _ st) as [[e|] st1]; apply H1; try assumption;
      (apply Forall_cons; split; [|constructor]);
      apply (Q_cached _ _ fs _ Hc Hin Hk).
  - pose proof (buildGroup_holds fname st Hc Hp) as H1.
    destruct (buildGroup env fname st) as [[u|e] st1]; exact H1.
Qed.

Lemma rebuild_files_holds r fileNames st :
  Forall (fun f => Q (start env f r)) fileNames ->
  I (compiledFiles st) -> Forall Q (pending st) ->
  I (compiledFiles
       (fold_left (fun s' f => snd (buildFile env f r s')) fileNames st)) /\
  Forall Q (pending
       (fold_left (fun s' f => snd (buildFile env f r s')) fileNames st)).
Proof.
  intros Hall. revert st. induction Hall as [|f rest Hf _ IH]; intros st Hc Hp;
    [auto|].
  simpl. apply IH.
  - apply settle_holds; assumption.
  - unfold buildFile. rewrite settle_pending. exact Hp.
Qed.

Lemma rebuild_holds st :
  I (compiledFiles st) -> Forall Q (pending st) ->
  I (compiledFiles (rebuild env st)) /\ Forall Q (pending (rebuild env st)).
Proof.
  intros Hc Hp. unfold rebuild.
  assert (forall r fs, (r, fs) ∈ compiledFiles st ->
            Forall (fun f => Q (start env f r)) (map_keys fs)) as Htodo.
  { intros r fs Hin. apply Forall_forall. intros f Hf.
    exact (Q_cached _ _ _ _ Hc Hin Hf). }
  revert Htodo. generalize (compiledFiles st) as todo. intros todo.
  revert st Hc Hp. induction todo as [|[r fs] todo IH]; intros st Hc Hp Htodo;
    [auto|].
  simpl.
  destruct (rebuild_files_holds r (map_keys fs) st) as [Hc' Hp'];
    [apply Htodo; left|exact Hc|exact Hp|].
  apply IH; [exact Hc'|exact Hp'|].
  intros r' fs' Hin. apply Htodo. right. exact Hin.
Qed.

Lemma run_holds ops st :
  I (compiledFiles st) -> Forall Q (pending st) ->
  I (compiledFiles (run env ops st)) /\ Forall Q (pending (run env ops st)).
Proof.
  revert st. induction ops as [|op ops IH]; intros st Hc Hp; [auto|].
  simpl. destruct op as [f| | |i]; simpl.
  - destruct (compile_holds f st Hc Hp). apply IH; assumption.
  - apply IH; [exact I_empty|exact Hp].
  - destruct (rebuild_holds st Hc Hp). apply IH; assumption.
  - destruct (land_holds i st Hc Hp). apply IH; assumption.
Qed.

End Invariant.

(** *** The cache holds only enumerated files *)

Lemma addFile_enumerated file groups :
  groups_enumerated env groups ->
  is_root env (root file) ->
  filename file ∈ enumerate env (root file) ->
  groups_enumerated env (addFile file groups).
Proof.
  intros [Hnd Hin] Hroot Hfile. unfold addFile. split.
  - apply NoDup_keys_set, Hnd.
  - intros r fs Hr. apply elem_of_map_set in Hr as [[-> ->]|Hr]; [|apply Hin, Hr].
    split; [exact Hroot|]. intros f Hf.
    apply elem_of_keys_set in Hf as [->|Hf]; [exact Hfile|].
    destruct (map_get (root file) groups) as [g|] eqn:Hg.
    + apply map_get_elem_of in Hg. exact (proj2 (Hin _ _ Hg) f Hf).
    + inversion Hf.
Qed.

Lemma run_enumerated ops st :
  groups_enumerated env (compiledFiles st) ->
  Forall (build_enumerated env) (pending st) ->
  groups_enumerated env (compiledFiles (run env ops st)).
Proof.
  intros Hc Hp.
  apply (run_holds (groups_enumerated env) (build_enumerated env)); try assumption.
  - split; [constructor|]. intros r fs Hin. inversion Hin.
  - intros b out groups [Hroot Hf] _ Hg.
    apply addFile_enumerated; assumption.
  - intros fname r f Hr Hf. split; [exists fname; exact Hr|exact Hf].
  - intros groups r fs f [_ Hg] Hin Hf. destruct (Hg r fs Hin) as [Hroot Hsub].
    split; [exact Hroot|apply Hsub, Hf].
Qed.

Lemma enumerated_unique P groups :
  disjoint_roots env -> groups_enumerated env groups ->
  at_most_one_group P groups.
Proof.
  intros Hdisj [Hnd Hin]. unfold at_most_one_group, roots_containing.
  assert (NoDup (map fst (List.filter (fun g => map_has P (snd g)) groups)))
    as Hnd'.
  { apply NoDup_keys_filter, Hnd. }
  assert (forall r, r ∈ map fst (List.filter (fun g => map_has P (snd g)) groups) ->
            is_root env r /\ P ∈ enumerate env r) as Hall.
  { intros r Hr. apply list_elem_of_In, in_map_iff in Hr as [[r' fs] [<- Hg]].
    apply List.filter_In in Hg as [Hg Hhas].
    apply list_elem_of_In in Hg. simpl in *.
    destruct (Hin _ _ Hg) as [Hroot Hsub]. split; [exact Hroot|].
    apply Hsub, map_has_keys, Hhas. }
  destruct (map fst (List.filter (fun g => map_has P (snd g)) groups))
    as [|r1 [|r2 l]]; simpl; [lia|lia|].
  exfalso. destruct (Hall r1) as [Hr1 Hp1]; [left|].
  destruct (Hall r2) as [Hr2 Hp2]; [right; left|].
  pose proof (Hdisj r1 r2 P Hr1 Hr2 Hp1 Hp2) as ->.
  apply NoDup_cons in Hnd' as [Hnotin _]. apply Hnotin. left.
Qed.

(** *** Ignore diagnostics *)


(** *** What a wait adds to the groups *)

Lemma group_has_addFile r f file groups :
  group_has r f (addFile file groups)
  = (String.eqb r (root file) && String.eqb f (filename file))
    || group_has r f groups.
Proof.
  unfold group_has, addFile. rewrite map_get_set.
  destruct (String.eqb_spec r (root file)) as [->|Hne]; [|reflexivity].
  rewrite map_has_set. simpl.
  destruct (map_get (root file) groups); reflexivity.
Qed.

Lemma settle_group_has r f b st :
  group_has r f (compiledFiles (snd (settle env b st))) = true <->
  group_has r f (compiledFiles st) = true \/
  (build_root b = r /\ build_filename b = f /\ failure env b = None).
Proof.
  destruct (failure env b) as [e|] eqn:E.
  - rewrite (settle_failure b st e E). simpl. split; [auto|].
    intros [H|(_ & _ & H)]; [exact H|discriminate H].
  - destruct (settle_success b st E) as (out & _ & _ & -> & _).
    rewrite group_has_addFile. simpl.
    rewrite orb_true_iff, andb_true_iff, !String.eqb_eq. split.
    + intros [[-> ->]|H]; [right|left]; auto.
    + intros [H|(-> & -> & _)]; [right|left]; auto.
Qed.

Lemma land_group_has r f i st :
  group_has r f (compiledFiles (land env i st)) = true <->
  group_has r f (compiledFiles st) = true \/
  exists b, pending st !! i = Some b /\
            build_root b = r /\ build_filename b = f /\ failure env b = None.
Proof.
  unfold land. destruct (pending st !! i) as [b|] eqn:Hi.
  - rewrite settle_group_has. simpl. split.
    + intros [H|H]; [left; exact H|right; exists b; auto].
    + intros [H|(b' & [= <-] & H)]; [left; exact H|right; exact H].
  - split; [auto|]. intros [H|(b & Hb & _)]; [exact H|discriminate Hb].
Qed.

Lemma land_pending_In i st b :
  In b (pending (land env i st)) -> In b (pending st).
Proof.
  unfold land. destruct (pending st !! i) as [b0|]; [|auto].
  rewrite settle_pending. simpl. apply In_delete.
Qed.

Lemma awaited_keeps own st err later st' r f :
  awaited env own st err later st' ->
  group_has r f (compiledFiles st) = true ->
  group_has r f (compiledFiles st') = true.
Proof.
  induction 1 as [st|own st i b file st1 err later st2 Hi Hs _ IH
                  |own st i b e st1 Hi Hs|own st i err later st2 _ _ IH]; intros Hh.
  - exact Hh.
  - apply IH. replace st1 with (snd (settle env b st)) by (rewrite Hs; reflexivity).
    apply settle_group_has. left. exact Hh.
  - apply settle_Throw in Hs as [_ ->]. exact Hh.
  - apply IH, land_group_has. left. exact Hh.
Qed.

(** Only builds of the wait, or builds that were in flight before it, put
    files into the cache. *)
Lemma awaited_only own st err later st' r f :
  awaited env own st err later st' ->
  group_has r f (compiledFiles st') = true ->
  group_has r f (compiledFiles st) = true \/
  exists b, (In b own \/ In b (pending st)) /\
            build_root b = r /\ build_filename b = f /\ failure env b = None.
Proof.
  induction 1 as [st|own st i b file st1 err later st2 Hi Hs _ IH
                  |own st i b e st1 Hi Hs|own st i err later st2 _ _ IH]; intros Hh.
  - left. exact Hh.
  - assert (st1 = snd (settle env b st)) as Hst1 by (rewrite Hs; reflexivity).
    destruct (IH Hh) as [H|(b' & Hb' & Hk)].
    + rewrite Hst1 in H. apply settle_group_has in H as [H|H]; [left; exact H|].
      right. exists b. split; [left; apply (lookup_In b i), Hi|exact H].
    + right. exists b'. split; [|exact Hk].
      destruct Hb' as [Hb'|Hb']; [left; apply In_delete in Hb'; exact Hb'|right].
      rewrite Hst1, settle_pending in Hb'. exact Hb'.
  - apply settle_Throw in Hs as [_ ->]. left. exact Hh.
  - destruct (IH Hh) as [H|(b' & Hb' & Hk)].
    + apply land_group_has in H as [H|(b & Hb & Hk)]; [left; exact H|].
      right. exists b. split; [right; apply (lookup_In b i), Hb|exact Hk].
    + right. exists b'. split; [|exact Hk].
      destruct Hb' as [Hb'|Hb']; [left; exact Hb'|right].
      apply land_pending_In in Hb'. exact Hb'.
Qed.

(** The builds still in flight after a wait were in flight before it or
    are builds of the wait; a wait logs no error. *)
Lemma awaited_in_flight own st err later st' :
  awaited env own st err later st' ->
  (forall b, In b (pending st') -> In b (pending st)) /\
  (forall b, In b later -> In b own) /\
  logged_errors (log st') = logged_errors (log st).
Proof.
  induction 1 as [st|own st i b file st1 err later st2 Hi Hs _ IH
                  |own st i b e st1 Hi Hs|own st i err later st2 _ _ IH].
  - auto.
  - assert (st1 = snd (settle env b st)) as Hst1 by (rewrite Hs; reflexivity).
    destruct IH as (Hp & Hl & Hlog). split; [|split].
    + intros b' Hb'. apply Hp in Hb'. rewrite Hst1, settle_pending in Hb'.
      exact Hb'.
    + intros b' Hb'. apply (In_delete b' i), Hl, Hb'.
    + rewrite Hlog, Hst1.
      destruct (settle_success b st (settle_Ok _ _ _ _ Hs)) as (_ & _ & _ & _ & _ & H).
      exact H.
  - apply settle_Throw in Hs as [_ ->]. split; [auto|]. split; [|reflexivity].
    intros b'. apply In_delete.
  - destruct IH as (Hp & Hl & Hlog). split; [|split; [exact Hl|]].
    + intros b' Hb'. apply (land_pending_In i), Hp, Hb'.
    + rewrite Hlog. destruct (land_cases i st) as [->|(b & _ & _ & [H|H])];
        [reflexivity| |].
      * destruct H as (_ & _ & ->). reflexivity.
      * destruct H as (out & _ & _ & _ & H). exact H.
Qed.

(** A wait ends without an error exactly when every build has fulfilled;
    the error it ends with is the rejection of one of its builds. *)
Lemma awaited_outcome own st err later st' :
  awaited env own st err later st' ->
  match err with
  | Some e => exists b, In b own /\ failure env b = Some e
  | None => later = [] /\ forall b, In b own -> failure env b = None
  end.
Proof.
  induction 1 as [st|own st i b file st1 err later st2 Hi Hs _ IH
                  |own st i b e st1 Hi Hs|own st i err later st2 _ _ IH].
  - split; [reflexivity|]. intros b [].
  - destruct err as [e|].
    + destruct IH as (b' & Hb' & He). exists b'.
      split; [apply In_delete in Hb'; exact Hb'|exact He].
    + destruct IH as [-> Hall]. split; [reflexivity|]. intros b' Hb'.
      destruct (In_lookup_or_delete b' b i own Hi Hb') as [->|Hd];
        [exact (settle_Ok _ _ _ _ Hs)|exact (Hall b' Hd)].
  - exists b. split; [apply (lookup_In b i), Hi|].
    exact (proj1 (settle_Throw _ _ _ _ Hs)).
  - exact IH.
Qed.

End SwcFacts.

Section SwcCompileFacts.
Import SwcCompiler SwcCache.
Variable env : Env.

Lemma cached_addFile r' f' file groups :
  cached r' f' (addFile file groups)
  = if String.eqb r' (root file) && String.eqb f' (filename file)
    then Some file else cached r' f' groups.
Proof.
  unfold cached, addFile. rewrite map_get_set.
  destruct (String.eqb_spec r' (root file)) as [->|Hne]; [|reflexivity].
  rewrite map_get_set. simpl.
  destruct (String.eqb f' (filename file)); [reflexivity|].
  destruct (map_get (root file) groups); reflexivity.
Qed.

(** With nothing else in flight, an entry of the cache stays as it is
    through a wait whose builds for that entry would record the same file. *)
Lemma awaited_cached_stays own st err later st' r f file :
  awaited env own st err later st' ->
  pending st = [] ->
  (forall b out, In b own -> build_root b = r -> build_filename b = f ->
                 build_output b = Ok out -> file = mkFile f r out) ->
  cached r f (compiledFiles st) = Some file ->
  pending st' = [] /\ cached r f (compiledFiles st') = Some file.
Proof.
  induction 1 as [st|own st i b file0 st1 err later st2 Hi Hs _ IH
                  |own st i b e st1 Hi Hs|own st i err later st2 _ _ IH];
    intros Hp Hsame Hc.
  - auto.
  - assert (st1 = snd (settle env b st)) as Hst1 by (rewrite Hs; reflexivity).
    destruct (settle_success env b st (settle_Ok env _ _ _ _ Hs))
      as (out & Hout & _ & Hcf & Hpend & _).
    apply IH.
    + rewrite Hst1, Hpend. exact Hp.
    + intros b' out' Hb'. apply Hsame. apply In_delete in Hb'. exact Hb'.
    + rewrite Hst1, Hcf, cached_addFile. simpl.
      destruct (String.eqb_spec r (build_root b)) as [->|]; [|exact Hc].
      destruct (String.eqb_spec f (build_filename b)) as [->|]; [|exact Hc].
      simpl. f_equal. symmetry.
      apply (Hsame b out (lookup_In b i own Hi)); auto.
  - apply settle_Throw in Hs as [_ ->]. auto.
  - rewrite (land_none env i st Hp) in IH. apply IH; assumption.
Qed.

(** With nothing else in flight, a build of the wait that fulfils is
    recorded with its output, unless the wait ended before it settled. *)
Lemma awaited_records own st err later st' :
  awaited env own st err later st' ->
  pending st = [] ->
  (forall b1 b2, In b1 own -> In b2 own ->
                 build_root b1 = build_root b2 ->
                 build_filename b1 = build_filename b2 -> b1 = b2) ->
  pending st' = [] /\
  forall b out, In b own -> build_output b = Ok out -> failure env b = None ->
    In b later \/
    cached (build_root b) (build_filename b) (compiledFiles st')
    = Some (mkFile (build_filename b) (build_root b) out).
Proof.
  induction 1 as [st|own st i b0 file0 st1 err later st2 Hi Hs Haw IH
                  |own st i b0 e st1 Hi Hs|own st i err later st2 _ _ IH];
    intros Hp Hkey.
  - split; [exact Hp|]. intros b out [].
  - assert (st1 = snd (settle env b0 st)) as Hst1 by (rewrite Hs; reflexivity).
    destruct (settle_success env b0 st (settle_Ok env _ _ _ _ Hs))
      as (out0 & Hout0 & _ & Hcf & Hpend & _).
    assert (pending st1 = []) as Hp1 by (rewrite Hst1, Hpend; exact Hp).
    destruct IH as [Hp2 IH]; [exact Hp1| |].
    { intros b1 b2 H1 H2. apply Hkey; eapply In_delete; eassumption. }
    split; [exact Hp2|]. intros b out Hb Hout Hok.
    destruct (In_lookup_or_delete b b0 i own Hi Hb) as [->|Hd];
      [|exact (IH b out Hd Hout Hok)].
    right.
    apply (awaited_cached_stays (delete i own) st1 err later st2 _ _ _ Haw Hp1).
    + intros b' out' Hb' Hr Hf Hout'.
      assert (b' = b0) as ->.
      { apply Hkey; [eapply In_delete, Hb'|exact Hb|exact Hr|exact Hf]. }
      rewrite Hout in Hout'. injection Hout' as <-. reflexivity.
    + rewrite Hst1, Hcf, cached_addFile. simpl. rewrite !String.eqb_refl. simpl.
      rewrite Hout in Hout0. injection Hout0 as <-. reflexivity.
  - apply settle_Throw in Hs as [Hfail ->]. split; [exact Hp|].
    intros b out Hb Hout Hok.
    destruct (In_lookup_or_delete b b0 i own Hi Hb) as [->|Hd];
      [congruence|left; exact Hd].
  - rewrite (land_none env i st Hp) in IH. apply IH; assumption.
Qed.

Lemma reportErrors_logged err st :
  logged_errors (log (reportErrors (err, st)))
  = logged_errors (log st) ++ match err with Some e => [e] | None => [] end.
Proof.
  destruct err as [[m]|]; simpl; [|rewrite app_nil_r; reflexivity].
  unfold logged_errors. rewrite omap_app. reflexivity.
Qed.

Lemma add_log_debug_logged m st :
  logged_errors (log (add_log (log_debug m) st)) = logged_errors (log st).
Proof.
  unfold logged_errors. simpl. rewrite omap_app. simpl. apply app_nil_r.
Qed.

(** [compile] of a file without a group: the wait for the builds of the
    enumerated files, and what [compile] makes of it. *)
Lemma compile_fresh P r st :
  group P (compiledFiles st) = None ->
  find_root env P = Ok r ->
  exists err later st1,
    awaited env (map (fun f => start env f r) (enumerate env r))
            (add_log (log_debug "searching for filenames") st) err later st1 /\
    compile env P st
    = (Ok (group P (compiledFiles st1)),
       add_log (log_debug "started build")
               (reportErrors (err, in_flight later st1))).
Proof.
  intros Hnone Hr. unfold compile, buildGroup, getModule. rewrite Hnone, Hr.
  destruct (await_awaited env (map (fun f => start env f r) (enumerate env r))
              (add_log (log_debug "searching for filenames") st))
    as (later & st1 & Haw & Hst).
  destruct (await env _ _) as [err st2]. simpl in Haw, Hst. subst st2.
  exists err, later, st1. split; [exact Haw|].
  destruct err as [[m]|]; reflexivity.
Qed.

Lemma starts_key_unique r fileNames b1 b2 :
  In b1 (map (fun f => start env f r) fileNames) ->
  In b2 (map (fun f => start env f r) fileNames) ->
  build_root b1 = build_root b2 ->
  build_filename b1 = build_filename b2 -> b1 = b2.
Proof.
  intros H1 H2 _ Hf.
  apply in_map_iff in H1 as (f1 & <- & _). apply in_map_iff in H2 as (f2 & <- & _).
  simpl in Hf. subst. reflexivity.
Qed.

Lemma compile_keeps r f fname st :
  group_has r f (compiledFiles st) = true ->
  group_has r f (compiledFiles (snd (compile env fname st))) = true.
Proof.
  intros Hhas. unfold compile.
  destruct (group fname (compiledFiles st)) as [g|].
  - destruct (await_awaited env [start env fname (group_root g)] st)
      as (later & st1 & Haw & Hst).
    destruct (await env _ st) as [[e|] st2]; simpl in Hst; subst st2; simpl;
      exact (awaited_keeps env _ _ _ _ _ r f Haw Hhas).
  - unfold buildGroup, getModule.
    destruct (find_root env fname) as [r0|e] eqn:Hr; [|exact Hhas].
    destruct (await_awaited env (map (fun f => start env f r0) (enumerate env r0))
                (add_log (log_debug "searching for filenames") st))
      as (later & st1 & Haw & Hst).
    cbn [fst snd]. destruct (await env _ _) as [err st2].
    cbn [fst snd] in Haw, Hst. subst st2.
    destruct err as [[m]|]; simpl;
      exact (awaited_keeps env _ _ _ _ _ r f Haw Hhas).
Qed.

(** What [compile] of a file without a group leaves behind. *)
Lemma compile_fresh_outcome P r st :
  group P (compiledFiles st) = None ->
  find_root env P = Ok r ->
  let st' := snd (compile env P st) in
  (exists g, fst (compile env P st) = Ok g) /\
  (forall r' f,
     group_has r' f (compiledFiles st') = true ->
     group_has r' f (compiledFiles st) = true \/
     (r' = r /\ In f (enumerate env r) /\ builds env f r = true) \/
     (exists b, In b (pending st) /\ build_root b = r' /\ build_filename b = f)) /\
  ((forall f, In f (enumerate env r) -> builds env f r = true) ->
   logged_errors (log st') = logged_errors (log st) /\
   forall b, In b (pending st') -> In b (pending st)) /\
  ((exists f, In f (enumerate env r) /\ builds env f r = false) ->
   exists f e,
     In f (enumerate env r) /\ failure env (start env f r) = Some e /\
     logged_errors (log st') = logged_errors (log st) ++ [e]) /\
  (pending st = [] ->
   (forall f out,
      In f (enumerate env r) -> transformFile env f r = Ok out ->
      builds env f r = true ->
      cached r f (compiledFiles st') = Some (mkFile f r out) \/
      In (start env f r) (pending st')) /\
   (forall b, In b (pending st') ->
      exists f, In f (enumerate env r) /\ b = start env f r)).
Proof.
  intros Hnone Hr st'.
  destruct (compile_fresh P r st Hnone Hr) as (err & later & st1 & Haw & Hc).
  subst st'. rewrite Hc. cbn [fst snd].
  pose proof (awaited_in_flight env _ _ _ _ _ Haw) as (Hpend & Hlater & Hlog).
  pose proof (awaited_outcome env _ _ _ _ _ Haw) as Hout.
  rewrite add_log_debug_logged in Hlog.
  assert (compiledFiles
            (add_log (log_debug "started build")
               (reportErrors (err, in_flight later st1))) = compiledFiles st1)
    as Hcf.
  { destruct err as [[m]|]; reflexivity. }
  assert (pending
            (add_log (log_debug "started build")
               (reportErrors (err, in_flight later st1))) = pending st1 ++ later)
    as Hpe.
  { destruct err as [[m]|]; reflexivity. }
  assert (logged_errors
            (log (add_log (log_debug "started build")
                    (reportErrors (err, in_flight later st1))))
          = logged_errors (log st)
            ++ match err with Some e => [e] | None => [] end) as Hle.
  { rewrite add_log_debug_logged, reportErrors_logged. simpl. rewrite Hlog.
    reflexivity. }
  rewrite Hcf, Hpe, Hle. clear Hcf Hpe Hle Hc.
  split; [eexists; reflexivity|]. split; [|split; [|split]].
  - intros r' f Hh.
    destruct (awaited_only env _ _ _ _ _ r' f Haw Hh)
      as [H|(b & [Hb|Hb] & Hbr & Hbf & Hok)].
    + left. exact H.
    + right. left. apply in_map_iff in Hb as (f0 & <- & Hf0). simpl in *.
      subst. split; [reflexivity|]. split; [exact Hf0|].
      apply builds_failure, Hok.
    + right. right. exists b. auto.
  - intros Hall. destruct err as [e|].
    + destruct Hout as (b & Hb & He). apply in_map_iff in Hb as (f & <- & Hf).
      apply Hall, builds_failure in Hf. congruence.
    + destruct Hout as [-> _]. rewrite !app_nil_r. split; [reflexivity|].
      exact Hpend.
  - intros (f & Hf & Hb). destruct err as [e|].
    + destruct Hout as (b & Hin & He). apply in_map_iff in Hin as (f' & <- & Hf').
      exists f', e. auto.
    + destruct Hout as [_ Hall]. exfalso.
      assert (builds env f r = true) as Hb'.
      { apply builds_failure, Hall, in_map_iff. exists f. auto. }
      congruence.
  - intros Hp.
    destruct (awaited_records _ _ _ _ _ Haw Hp
                (starts_key_unique r (enumerate env r))) as [Hp1 Hrec].
    rewrite Hp1. simpl. split.
    + intros f out Hf Hout' Hb.
      destruct (Hrec (start env f r) out) as [H|H].
      * apply in_map_iff. exists f. auto.
      * exact Hout'.
      * apply builds_failure, Hb.
      * right. exact H.
      * left. exact H.
    + intros b Hb. apply Hlater, in_map_iff in Hb as (f & <- & Hf).
      exists f. auto.
Qed.

End SwcCompileFacts.

(** *** The toy workspaces *)

Lemma toy_find_root_In roots fname r :
  Fixture.toy_find_root roots fname = Ok r -> In r roots.
Proof.
  unfold Fixture.toy_find_root.
  assert (forall todo best,
            (forall b, best = Some b -> In b roots) ->
            (forall x, In x todo -> In x roots) ->
            forall b,
              fold_left
                (fun best r =>
                   if String.prefix (r +:+ "/") fname
                   then match best with
                        | Some b => if Nat.ltb (String.length b) (String.length r)
                                    then Some r else best
                        | None => Some r
                        end
                   else best) todo best = Some b -> In b roots) as Hfold.
  { induction todo as [|x todo IH]; intros best Hbest Htodo b; simpl.
    - apply Hbest.
    - apply IH.
      + intros b'. destruct (String.prefix (x +:+ "/") fname); [|apply Hbest].
        destruct best as [b0|].
        * destruct (Nat.ltb (String.length b0) (String.length x)).
          -- intros [= <-]. apply Htodo. left. reflexivity.
          -- apply Hbest.
        * intros [= <-]. apply Htodo. left. reflexivity.
      + intros y Hy. apply Htodo. right. exact Hy. }
  destruct (fold_left _ roots None) as [b|] eqn:E; [|discriminate].
  intros [= <-]. eapply Hfold; [| |exact E].
  - intros b' H. discriminate H.
  - intros x Hx. exact Hx.
Qed.

Lemma siblings_disjoint : SwcCompiler.disjoint_roots Fixture.siblings.
Proof.
  intros r1 r2 f [f1 H1] [f2 H2] Hf1 Hf2.
  apply toy_find_root_In in H1. apply toy_find_root_In in H2.
  apply list_elem_of_In in Hf1. apply list_elem_of_In in Hf2.
  simpl in H1, H2.
  destruct H1 as [<-|[<-|[]]]; destruct H2 as [<-|[<-|[]]];
    try reflexivity; vm_compute in Hf1; vm_compute in Hf2;
    decompose [or] Hf1; decompose [or] Hf2; subst; try contradiction;
    discriminate.
Qed.




Lemma group_is_first_root (P : string) (groups : SwcCompiler.CompiledFiles)
    (g : SwcCompiler.Group) :
  SwcCompiler.group P groups = Some g ->
  exists rest,
    SwcCompiler.roots_containing P groups = SwcCompiler.group_root g :: rest.
Proof.
  unfold SwcCompiler.roots_containing.
  induction groups as [|[r fs] groups IH]; simpl; [discriminate|].
  destruct (map_has P fs).
  - intros [= <-]. eexists. reflexivity.
  - exact IH.
Qed.

(** C4, as stated, fails on nested package roots.  Compiling the inner
    package's file first builds the inner group; compiling a file of the outer
    package then enumerates the outer root, whose glob reaches the inner file,
    and records it a second time under the outer root. *)
Lemma C4_group_uniqueness_counterexample :
  ~ SwcCompiler.at_most_one_group "/ws/pkg/b.ts"
      (SwcCompiler.compiledFiles
         (SwcCompiler.run Fixture.nested
            [SwcCompiler.OpCompile "/ws/pkg/b.ts";
             SwcCompiler.OpCompile "/ws/a.ts"]
            SwcCompiler.initial)).
Proof. unfold SwcCompiler.at_most_one_group. vm_compute. lia. Qed.

(** C4 (amended).  Provided no file is enumerated under two different
    package roots, after any sequence of compile, invalidateBuildSet and
    rebuild operations every SourcePath [P] appears in at most one group of
    the build set, and if [group(P)] finds a group it is the only one holding
    [P]. *)
Theorem C4_group_uniqueness (env : SwcCompiler.Env)
    (ops : list SwcCompiler.Op) (P : string) :
  SwcCompiler.disjoint_roots env ->
  let groups :=
    SwcCompiler.compiledFiles (SwcCompiler.run env ops SwcCompiler.initial) in
  SwcCompiler.at_most_one_group P groups /\
  (forall g, SwcCompiler.group P groups = Some g ->
             SwcCompiler.roots_containing P groups = [SwcCompiler.group_root g]).
Proof.
  intros Hdisj groups.
  assert (SwcCompiler.at_most_one_group P groups) as Hone.
  { apply (enumerated_unique env); [exact Hdisj|]. apply run_enumerated.
    - split; [constructor|]. intros r fs Hin. inversion Hin.
    - constructor. }
  split; [exact Hone|].
  intros g Hg. destruct (group_is_first_root P groups g Hg) as [rest Hrest].
  unfold SwcCompiler.at_most_one_group in Hone. rewrite Hrest in *.
  destruct rest; [reflexivity|simpl in Hone; lia].
Qed.

Lemma C4_group_uniqueness_witness :
  let ops := [SwcCompiler.OpCompile "/ws/p1/a.ts";
              SwcCompiler.OpCompile "/ws/p2/c.ts";
              SwcCompiler.OpRebuild;
              SwcCompiler.OpCompile "/ws/p1/b.ts"] in
  SwcCompiler.disjoint_roots Fixture.siblings /\
  SwcCompiler.roots_containing "/ws/p1/b.ts"
    (SwcCompiler.compiledFiles
       (SwcCompiler.run Fixture.siblings ops SwcCompiler.initial)) = ["/ws/p1"] /\
  SwcCompiler.at_most_one_group "/ws/p1/b.ts"
    (SwcCompiler.compiledFiles
       (SwcCompiler.run Fixture.siblings ops SwcCompiler.initial)).
Proof.
  intros ops. split; [exact siblings_disjoint|]. split; [reflexivity|].
  exact (proj1 (C4_group_uniqueness Fixture.siblings ops "/ws/p1/b.ts"
                  siblings_disjoint)).
Defined.

(** C8, as stated, fails: asked for one file of a package that has no
    group yet, the SWC backend enumerates the package and builds its other
    file as well, so the result differs from the per-file behaviour of the
    specification. *)
Lemma C8_per_file_backend_counterexample :
  SwcCompiler.group "/ws/p1/a.ts"
    (SwcCompiler.compiledFiles SwcCompiler.initial) = None /\
  SwcCompiler.compiledFiles
    (snd (SwcCompiler.compile Fixture.siblings "/ws/p1/a.ts" SwcCompiler.initial))
  <> SwcCompiler.compiledFiles
       (SwcCompiler.spec_per_file_compile Fixture.siblings "/ws/p1/a.ts"
          SwcCompiler.initial) /\
  SwcCompiler.group_has "/ws/p1" "/ws/p1/b.ts"
    (SwcCompiler.compiledFiles
       (snd (SwcCompiler.compile Fixture.siblings "/ws/p1/a.ts"
               SwcCompiler.initial))) = true.
Proof. split; [reflexivity|]. split; [vm_compute; discriminate|reflexivity]. Qed.

(** C8 (amended).  The backend selected by [--swc] is the SWC compiler.
    Asked to compile a SourcePath [P] that belongs to no group, with package
    root [r], it enumerates the files of [r] (include patterns minus ignore
    patterns) and starts a transform of every one of them.  The call records
    nothing but enumerated files that build, under [r], and builds that were
    in flight before.  With nothing in flight before the call, every
    enumerated file that builds is recorded in the group of [r] with its
    transform output by the time [compile] returns, or its build is still in
    flight then; the builds in flight then are builds of enumerated files, and
    each that fulfils is recorded when it settles.  If every enumerated file
    builds, no error is logged and no build of the call is left in flight;
    if one does not, exactly one error is logged, the rejection of the build
    of an enumerated file.  No compile ever removes a file from a group. *)
Theorem C8_swc_compile_builds_group (env : SwcCompiler.Env) (P r : string)
    (st : SwcCompiler.State) :
  SwcCompiler.group P (SwcCompiler.compiledFiles st) = None ->
  SwcCompiler.find_root env P = Ok r ->
  let st' := snd (SwcCompiler.compile env P st) in
  (forall options, Index.useSwc options = true ->
                   Index.select_compiler options = Index.UseSwcCompiler) /\
  (forall r' f,
     SwcCompiler.group_has r' f (SwcCompiler.compiledFiles st') = true ->
     SwcCompiler.group_has r' f (SwcCompiler.compiledFiles st) = true \/
     (r' = r /\ In f (SwcCompiler.enumerate env r) /\
      SwcCompiler.builds env f r = true) \/
     (exists b, In b (SwcCompiler.pending st) /\
                SwcCompiler.build_root b = r' /\
                SwcCompiler.build_filename b = f)) /\
  (SwcCompiler.pending st = [] ->
   (forall f out,
      In f (SwcCompiler.enumerate env r) ->
      SwcCompiler.transformFile env f r = Ok out ->
      SwcCompiler.builds env f r = true ->
      SwcCache.cached r f (SwcCompiler.compiledFiles st')
      = Some (SwcCompiler.mkFile f r out) \/
      In (SwcCompiler.start env f r) (SwcCompiler.pending st')) /\
   (forall b, In b (SwcCompiler.pending st') ->
      exists f, In f (SwcCompiler.enumerate env r) /\
                b = SwcCompiler.start env f r)) /\
  (forall i b,
     SwcCompiler.pending st' !! i = Some b ->
     SwcCompiler.failure env b = None ->
     SwcCompiler.group_has (SwcCompiler.build_root b) (SwcCompiler.build_filename b)
       (SwcCompiler.compiledFiles (SwcCompiler.land env i st')) = true) /\
  ((forall f, In f (SwcCompiler.enumerate env r) ->
              SwcCompiler.builds env f r = true) ->
   SwcCompiler.logged_errors (SwcCompiler.log st') = SwcCompiler.logged_errors (SwcCompiler.log st) /\
   forall b, In b (SwcCompiler.pending st') -> In b (SwcCompiler.pending st)) /\
  ((exists f, In f (SwcCompiler.enumerate env r) /\
              SwcCompiler.builds env f r = false) ->
   exists f e,
     In f (SwcCompiler.enumerate env r) /\
     SwcCompiler.failure env (SwcCompiler.start env f r) = Some e /\
     SwcCompiler.logged_errors (SwcCompiler.log st')
     = SwcCompiler.logged_errors (SwcCompiler.log st) ++ [e]) /\
  (forall P' st0 r0 f,
     SwcCompiler.group_has r0 f (SwcCompiler.compiledFiles st0) = true ->
     SwcCompiler.group_has r0 f
       (SwcCompiler.compiledFiles (snd (SwcCompiler.compile env P' st0))) = true).
Proof.
  intros Hnone Hr st'.
  destruct (compile_fresh_outcome env P r st Hnone Hr)
    as (_ & Honly & Hall & Hfail & Hexact).
  split.
  { intros options Hswc. unfold Index.select_compiler. rewrite Hswc. reflexivity. }
  split; [exact Honly|]. split; [exact Hexact|]. split.
  { intros i b Hi Hok. apply land_group_has. right. exists b. auto. }
  split; [exact Hall|]. split; [exact Hfail|].
  intros P' st0 r0 f. apply compile_keeps.
Qed.

Lemma C8_swc_compile_builds_group_witness :
  let st' :=
    snd (SwcCompiler.compile Fixture.siblings "/ws/p1/a.ts" SwcCompiler.initial) in
  let env := Fixture.with_broken_file_first in
  let st2 := snd (SwcCompiler.compile env "/ws/a.ts" SwcCompiler.initial) in
  SwcCompiler.group "/ws/p1/a.ts"
    (SwcCompiler.compiledFiles SwcCompiler.initial) = None /\
  SwcCompiler.find_root Fixture.siblings "/ws/p1/a.ts" = Ok "/ws/p1" /\
  SwcCompiler.pending SwcCompiler.initial = [] /\
  (SwcCache.cached "/ws/p1" "/ws/p1/b.ts" (SwcCompiler.compiledFiles st')
   = Some (SwcCompiler.mkFile "/ws/p1/b.ts" "/ws/p1" "compiled /ws/p1/b.ts") \/
   In (SwcCompiler.start Fixture.siblings "/ws/p1/b.ts" "/ws/p1")
      (SwcCompiler.pending st')) /\
  SwcCompiler.pending st' = [] /\
  SwcCompiler.pending st2 = [SwcCompiler.start env "/ws/a.ts" "/ws"] /\
  SwcCompiler.compiledFiles st2 = [] /\
  exists f e,
    In f (SwcCompiler.enumerate env "/ws") /\
    SwcCompiler.failure env (SwcCompiler.start env f "/ws") = Some e /\
    SwcCompiler.logged_errors (SwcCompiler.log st2)
    = SwcCompiler.logged_errors (SwcCompiler.log SwcCompiler.initial) ++ [e].
Proof.
  intros st' env st2. split; [reflexivity|]. split; [reflexivity|].
  split; [reflexivity|]. split; [|split; [reflexivity|]].
  - refine (proj1 (proj1 (proj2 (proj2
              (C8_swc_compile_builds_group Fixture.siblings "/ws/p1/a.ts" "/ws/p1"
                 SwcCompiler.initial eq_refl eq_refl))) eq_refl)
              "/ws/p1/b.ts" "compiled /ws/p1/b.ts" _ eq_refl eq_refl).
    vm_compute. tauto.
  - split; [reflexivity|]. split; [reflexivity|].
    apply (proj1 (proj2 (proj2 (proj2 (proj2 (proj2
             (C8_swc_compile_builds_group env "/ws/a.ts" "/ws"
                SwcCompiler.initial eq_refl eq_refl))))))).
    exists "/ws/b.ts". split; [vm_compute; tauto|reflexivity].
Defined.

(** ** The IPC routes *)

Section ServerFacts.
Import Index.
Context {C : Type} {HC : Compiler C}.

Lemma fold_watcher_add (body : list string) (paths : gset string) :
  fold_left (fun w fname => watcher_add fname w) body (Some paths)
  = Some (list_to_set body ∪ paths).
Proof.
  revert paths. induction body as [|f body IH]; intros paths; simpl.
  - rewrite (left_id_L ∅ (∪)). reflexivity.
  - rewrite IH. f_equal. rewrite (assoc_L (∪)).
    rewrite (comm_L (∪) (list_to_set body) {[f]}). reflexivity.
Qed.

Lemma fold_watcher_add_None (body : list string) :
  fold_left (fun w fname => watcher_add fname w) body None = None.
Proof. induction body as [|f body IH]; [reflexivity|exact IH]. Qed.

(** With a watcher installed, the route registers every path of the body,
    whatever it mentions. *)
Lemma route_file_required_adds_all (body : list string) (p : Project C)
    (paths : gset string) :
  watcher p = Some paths ->
  route_file_required body p
  = (JObject [("status", JString "ok")],
     mkProject (compiler p) (Some (list_to_set body ∪ paths)) (log p)).
Proof.
  intros Hw. unfold route_file_required. rewrite Hw, fold_watcher_add.
  reflexivity.
Qed.

End ServerFacts.

(** A failing transform of a group peer that settles after the requested
    file: the error is logged by [reportErrors], the request is answered with
    the file that was recorded before the failure. *)
Example compile_with_broken_peer :
  let project := Index.mkProject SwcCompiler.initial None [] in
  let '(reply, project') :=
    Index.route_compile (HC := Index.swc_compiler Fixture.with_broken_file)
      "/ws/a.ts" project in
  reply = Index.JObject
            [("filenames",
              Index.JObject [("/ws/a.ts", Index.JString "compiled /ws/a.ts")])] /\
  SwcCompiler.log (Index.compiler project')
  = [log_debug "searching for filenames";
     log_error "failed to transform /ws/b.ts"
       (Some (mkError "failed to transform /ws/b.ts"));
     log_debug "started build"] /\
  Index.log project' = [].
Proof. vm_compute. repeat split. Qed.

(** The same request when the failing transform settles first: [compile]
    returns while the transform of the requested file is in flight, [fileGroup]
    finds no group, and the reply is [{ filenames: undefined }].  The file is
    recorded when its transform settles. *)
Example compile_with_broken_peer_first :
  let project := Index.mkProject SwcCompiler.initial None [] in
  let '(reply, project') :=
    Index.route_compile (HC := Index.swc_compiler Fixture.with_broken_file_first)
      "/ws/a.ts" project in
  reply = Index.JObject [("filenames", Index.JUndefined)] /\
  SwcCompiler.compiledFiles (Index.compiler project') = [] /\
  SwcCompiler.pending (Index.compiler project')
  = [SwcCompiler.mkBuild "/ws/a.ts" "/ws" (Ok "compiled /ws/a.ts")] /\
  SwcCompiler.logged_errors (SwcCompiler.log (Index.compiler project'))
  = [mkError "failed to transform /ws/b.ts"] /\
  Index.log project'
  = [log_error "Error compiling file /ws/a.ts:"
       (Some (mkError "Built output for file /ws/a.ts not found. Is it outside the project directory?"))] /\
  SwcCompiler.compiledFiles
    (SwcCompiler.land Fixture.with_broken_file_first 0 (Index.compiler project'))
  = [("/ws",
      [("/ws/a.ts", SwcCompiler.mkFile "/ws/a.ts" "/ws" "compiled /ws/a.ts")])].
Proof. vm_compute. repeat split. Qed.

(** C5, as stated, fails: the file below is excluded by the project's
    ignore pattern, [fileGroup] raises the missing-destination error, and the
    reply to the request is [{ filenames: undefined }], which carries neither
    a kind nor the message; the error only reaches the parent's log. *)
Lemma C5_compile_failure_reply_counterexample :
  let project := Index.mkProject SwcCompiler.initial (Some ∅) [] in
  let msg := "File /ws/gen/x.ts is imported but not being built because it is explicitly ignored in the esbuild-dev project config. It is being ignored by the provided glob pattern '!gen/**', remove this pattern from the project config or don't import this file to fix." in
  Index.compiler_fileGroup (Compiler := Index.swc_compiler Fixture.with_ignore)
    "/ws/gen/x.ts"
    (snd (Index.compiler_compile (Compiler := Index.swc_compiler Fixture.with_ignore)
            "/ws/gen/x.ts" SwcCompiler.initial))
  = Throw (mkError msg) /\
  fst (Index.route_compile (HC := Index.swc_compiler Fixture.with_ignore)
         "/ws/gen/x.ts" project)
  = Index.JObject [("filenames", Index.JUndefined)] /\
  Index.mentions msg
    (fst (Index.route_compile (HC := Index.swc_compiler Fixture.with_ignore)
            "/ws/gen/x.ts" project)) = false.
Proof. vm_compute. repeat split. Qed.

(** C5 (amended).  When the backend's [compile] or [fileGroup] raises an
    error while a POST /compile request is handled, the error is caught and
    logged in the parent ("Error compiling file <path>:" with the error), and
    the reply is the JSON body [{ filenames: undefined }]: no error kind or
    message is sent back and nothing is retried.  For the SWC backend,
    [compile] of a file without a group does not raise when a transform
    inside [buildGroup] fails: [reportErrors] hands exactly one error to
    [log.error], the rejection of the build of an enumerated file. *)
Theorem C5_compile_failure_is_logged (C : Type) (HC : Index.Compiler C)
    (P : string) (project : Index.Project C) (e : JsError) :
  (fst (Index.compiler_compile P (Index.compiler project)) = Throw e \/
   (exists u, fst (Index.compiler_compile P (Index.compiler project)) = Ok u) /\
   Index.compiler_fileGroup P
     (snd (Index.compiler_compile P (Index.compiler project))) = Throw e) ->
  fst (Index.route_compile P project)
  = Index.JObject [("filenames", Index.JUndefined)] /\
  Index.log (snd (Index.route_compile P project))
  = Index.log project ++
    [log_error ("Error compiling file " +:+ P +:+ ":") (Some e)] /\
  Index.compiler (snd (Index.route_compile P project))
  = snd (Index.compiler_compile P (Index.compiler project)) /\
  (forall env f r st,
     SwcCompiler.group f (SwcCompiler.compiledFiles st) = None ->
     SwcCompiler.find_root env f = Ok r ->
     (exists f', In f' (SwcCompiler.enumerate env r) /\
                 SwcCompiler.builds env f' r = false) ->
     (exists g, fst (SwcCompiler.compile env f st) = Ok g) /\
     exists f' e,
       In f' (SwcCompiler.enumerate env r) /\
       SwcCompiler.failure env (SwcCompiler.start env f' r) = Some e /\
       SwcCompiler.logged_errors (SwcCompiler.log (snd (SwcCompiler.compile env f st)))
       = SwcCompiler.logged_errors (SwcCompiler.log st) ++ [e]).
Proof.
  intros Hfail. unfold Index.route_compile, Index.compile.
  destruct (Index.compiler_compile P (Index.compiler project)) as [res c1].
  simpl in Hfail.
  assert (forall env f r st,
     SwcCompiler.group f (SwcCompiler.compiledFiles st) = None ->
     SwcCompiler.find_root env f = Ok r ->
     (exists f', In f' (SwcCompiler.enumerate env r) /\
                 SwcCompiler.builds env f' r = false) ->
     (exists g, fst (SwcCompiler.compile env f st) = Ok g) /\
     exists f' e,
       In f' (SwcCompiler.enumerate env r) /\
       SwcCompiler.failure env (SwcCompiler.start env f' r) = Some e /\
       SwcCompiler.logged_errors (SwcCompiler.log (snd (SwcCompiler.compile env f st)))
       = SwcCompiler.logged_errors (SwcCompiler.log st) ++ [e]) as Hswc.
  { intros env f r st Hnone Hr Hbroken.
    destruct (compile_fresh_outcome env f r st Hnone Hr)
      as (Hok & _ & _ & Hlogged & _).
    split; [exact Hok|exact (Hlogged Hbroken)]. }
  destruct Hfail as [->|[[u ->] Hgroup]].
  - simpl. split; [reflexivity|]. split; [reflexivity|].
    split; [reflexivity|exact Hswc].
  - rewrite Hgroup. simpl. split; [reflexivity|]. split; [reflexivity|].
    split; [reflexivity|exact Hswc].
Qed.

Lemma C5_compile_failure_is_logged_witness :
  let project := Index.mkProject SwcCompiler.initial (Some ∅) [] in
  let msg := "File /ws/gen/x.ts is imported but not being built because it is explicitly ignored in the esbuild-dev project config. It is being ignored by the provided glob pattern '!gen/**', remove this pattern from the project config or don't import this file to fix." in
  let env := Fixture.with_broken_file_first in
  Index.log
    (snd (Index.route_compile (HC := Index.swc_compiler Fixture.with_ignore)
            "/ws/gen/x.ts" project))
  = [log_error "Error compiling file /ws/gen/x.ts:" (Some (mkError msg))] /\
  (exists g, fst (SwcCompiler.compile env "/ws/a.ts" SwcCompiler.initial) = Ok g) /\
  exists f' e,
    In f' (SwcCompiler.enumerate env "/ws") /\
    SwcCompiler.failure env (SwcCompiler.start env f' "/ws") = Some e /\
    SwcCompiler.logged_errors
      (SwcCompiler.log (snd (SwcCompiler.compile env "/ws/a.ts" SwcCompiler.initial)))
    = SwcCompiler.logged_errors (SwcCompiler.log SwcCompiler.initial) ++ [e].
Proof.
  intros project msg env.
  destruct (C5_compile_failure_is_logged SwcCompiler.State
              (Index.swc_compiler Fixture.with_ignore) "/ws/gen/x.ts" project
              (mkError msg)) as (_ & Hlog & _ & Hswc).
  { right. split; [exists tt; reflexivity|reflexivity]. }
  split; [exact Hlog|].
  apply (Hswc env "/ws/a.ts" "/ws" SwcCompiler.initial eq_refl eq_refl).
  exists "/ws/b.ts". split; [vm_compute; tauto|reflexivity].
Defined.

(** C6 at the failing input: with a watcher installed, POST /file-required
    with a path under node_modules registers that path with the watcher and
    replies [{ status: "ok" }]; the listener on the supervisor's message
    event leaves the watcher untouched for the same path. *)
Theorem C6_file_required_registers_node_modules :
  let P := "/ws/node_modules/lodash/index.js" in
  let project := Index.mkProject SwcCompiler.initial (Some ∅) [] in
  Index.route_file_required [P] project
  = (Index.JObject [("status", Index.JString "ok")],
     Index.mkProject SwcCompiler.initial (Some {[P]}) []) /\
  includes "node_modules" P = true /\
  Index.on_supervisor_message (Some P) ∅ = ∅.
Proof.
  intros P project. split; [|split; reflexivity].
  rewrite (route_file_required_adds_all [P] project ∅ eq_refl).
  simpl. rewrite !(right_id_L ∅ (∪)). reflexivity.
Qed.

(** ** The supervisor *)

Lemma update_lookup (c : nat) (f : Supervisor.ChildProcess -> Supervisor.ChildProcess)
    (h : Supervisor.Store) (p : Supervisor.ChildProcess) :
  h !! c = Some p -> Supervisor.update c f h !! c = Some (f p).
Proof.
  intros Hc. unfold Supervisor.update. rewrite Hc.
  apply list_lookup_insert_eq. eapply lookup_lt_Some, Hc.
Qed.

(** After [stop()] has delivered SIGTERM to a running child, [killed] is
    set, so the timer callback never escalates: whether or not the child
    exits within the 5000 ms, SIGTERM is the last signal it receives. *)
Lemma stop_never_escalates (exits_in_time : bool) (c : nat)
    (h : Supervisor.Store) (p : Supervisor.ChildProcess) :
  h !! c = Some p ->
  Supervisor.running p = true ->
  exists h' p',
    Supervisor.stop_and_wait exits_in_time (Some c) h = Ok h' /\
    h' !! c = Some p' /\
    Supervisor.received p' = Supervisor.received p ++ [Supervisor.SIGTERM].
Proof.
  intros Hc Hrun.
  unfold Supervisor.stop_and_wait, Supervisor.stop, Supervisor.stop_timeout.
  pose proof (update_lookup c (Supervisor.kill Supervisor.SIGTERM) h p Hc) as H1.
  unfold Supervisor.kill in H1 at 2. rewrite Hrun in H1.
  destruct exits_in_time.
  - unfold Supervisor.child_exits.
    rewrite (update_lookup c _ _ _ H1). simpl.
    eexists _, _. split; [reflexivity|].
    split; [apply (update_lookup c _ _ _ H1)|reflexivity].
  - rewrite H1. simpl. eexists _, _. split; [reflexivity|].
    split; [exact H1|reflexivity].
Qed.

(** C7 at the failing input: a running child that does not exit within
    5000 ms of SIGTERM.  [stop()] delivers SIGTERM, which sets [killed]; the
    timer callback then sees [killed] and sends nothing, so the child has
    received SIGTERM only and is still running.  (With no child at all the
    callback throws on [process.killed].) *)
Theorem C7_stop_does_not_hard_kill :
  let child := Supervisor.mkChild true false [] in
  Supervisor.stop_and_wait false (Some 0) [child]
  = Ok [Supervisor.mkChild true true [Supervisor.SIGTERM]] /\
  Supervisor.stop_and_wait false None []
  = Throw (mkError "Cannot read properties of undefined (reading 'killed')").
Proof. split; reflexivity. Qed.

(** ** More on the SWC cache *)

Section JsMapMore.
Context {V : Type}.
Implicit Types (m : JsMap V) (k : string) (v : V).

Lemma map_get_NoDup k v m :
  NoDup (map_keys m) -> (k, v) ∈ m -> map_get k m = Some v.
Proof.
  unfold map_keys. induction m as [|[k' v'] m IH]; simpl; intros Hnd Hin.
  - inversion Hin.
  - apply NoDup_cons in Hnd as [Hk Hnd].
    apply elem_of_cons in Hin as [[= -> ->]|Hin].
    + rewrite String.eqb_refl. reflexivity.
    + destruct (String.eqb_spec k k') as [->|Hne]; [|apply IH; assumption].
      exfalso. apply Hk. apply list_elem_of_In, in_map_iff.
      exists (k', v). split; [reflexivity|apply list_elem_of_In, Hin].
Qed.

Lemma map_get_None_keys k m : map_get k m = None <-> ~ k ∈ map_keys m.
Proof.
  rewrite <- map_has_keys. unfold map_has.
  destruct (map_get k m); split; congruence.
Qed.

End JsMapMore.

Section SwcCacheFacts.
Import SwcCompiler SwcCache.
Variable env : Env.

Lemma addFile_coherent f r out groups :
  coherent env groups ->
  transformFile env f r = Ok out ->
  coherent env (addFile (mkFile f r out) groups).
Proof.
  intros [Hnd Hall] Hout. unfold addFile. simpl. split.
  - apply NoDup_keys_set, Hnd.
  - intros r' fs Hin. apply elem_of_map_set in Hin as [[-> ->]|Hin];
      [|apply Hall, Hin].
    assert (group_coherent env r
              (match map_get r groups with Some g => g | None => [] end))
      as [Hnd' Hall'].
    { destruct (map_get r groups) as [g|] eqn:Hg.
      - apply Hall. eapply map_get_elem_of, Hg.
      - split; [constructor|]. intros f0 file0 H0. inversion H0. }
    split; [apply NoDup_keys_set, Hnd'|].
    intros f0 file0 H0. apply elem_of_map_set in H0 as [[-> ->]|H0].
    + exists out. split; [exact Hout|reflexivity].
    + apply Hall', H0.
Qed.

Lemma run_coherent ops st :
  coherent env (compiledFiles st) ->
  Forall (fun b => build_output b
                   = transformFile env (build_filename b) (build_root b))
         (pending st) ->
  coherent env (compiledFiles (run env ops st)).
Proof.
  intros Hc Hp.
  apply (run_holds env (coherent env)
           (fun b => build_output b
                     = transformFile env (build_filename b) (build_root b)));
    try assumption.
  - split; [constructor|]. intros r fs Hin. inversion Hin.
  - intros b out groups Hb Hout Hg. apply addFile_coherent; [exact Hg|].
    rewrite <- Hb. exact Hout.
  - intros fname r f _ _. reflexivity.
  - intros groups r fs f _ _ _. reflexivity.
Qed.

Lemma initial_coherent : coherent env (compiledFiles initial).
Proof. split; [constructor|]. intros r fs Hin. inversion Hin. Qed.

End SwcCacheFacts.

(** X1.  In every state the SWC backend reaches by compile,
    invalidateBuildSet and rebuild operations, the cache is coherent: no root
    keys two groups and no name keys two files of a group; every cached file
    is stored under its own name, records the root of the group that holds it,
    and carries the code the transform yields for it under that root. *)
Theorem swc_cache_coherent (env : SwcCompiler.Env) (ops : list SwcCompiler.Op) :
  let groups :=
    SwcCompiler.compiledFiles (SwcCompiler.run env ops SwcCompiler.initial) in
  NoDup (map_keys groups) /\
  forall r fs, In (r, fs) groups ->
    NoDup (map_keys fs) /\
    forall f file, In (f, file) fs ->
      SwcCompiler.filename file = f /\
      SwcCompiler.root file = r /\
      SwcCompiler.transformFile env f r = Ok (SwcCompiler.code file).
Proof.
  intros groups.
  destruct (run_coherent env ops SwcCompiler.initial (initial_coherent env)
              (List.Forall_nil _))
    as [Hnd Hall].
  split; [exact Hnd|]. intros r fs Hin.
  destruct (Hall r fs (proj2 (list_elem_of_In _ _) Hin)) as [Hnd' Hfiles].
  split; [exact Hnd'|]. intros f file Hf.
  destruct (Hfiles f file (proj2 (list_elem_of_In _ _) Hf)) as (out & Hout & ->).
  simpl. auto.
Qed.

Section SwcLookupFacts.
Import SwcCompiler SwcCache.
Variable env : Env.

Lemma group_Some_files fname groups g :
  group fname groups = Some g ->
  exists fs, (group_root g, fs) ∈ groups /\ map_has fname fs = true /\
             files g = map_values fs.
Proof.
  induction groups as [|[r fs] rest IH]; simpl; [discriminate|].
  destruct (map_has fname fs) eqn:E.
  - intros [= <-]. exists fs. split; [left|]. split; [exact E|reflexivity].
  - intros H. destruct (IH H) as (fs' & Hin & Hhas & Hfiles). exists fs'.
    split; [right; exact Hin|]. split; assumption.
Qed.

Lemma group_None fname groups :
  group fname groups = None <->
  forall r fs, (r, fs) ∈ groups -> map_has fname fs = false.
Proof.
  induction groups as [|[r fs] rest IH]; simpl.
  - split; [|reflexivity]. intros _ r fs Hin. inversion Hin.
  - destruct (map_has fname fs) eqn:E.
    + split; [discriminate|]. intros H. specialize (H r fs).
      rewrite E in H. discriminate H. left.
    + rewrite IH. split.
      * intros H r' fs' Hin. apply elem_of_cons in Hin as [[= -> ->]|Hin];
          [exact E|exact (H r' fs' Hin)].
      * intros H r' fs' Hin. apply (H r' fs'). right. exact Hin.
Qed.

(** The object [fileGroup] builds from a coherent group maps every name of
    the group to the code stored for it. *)
Lemma contents_lookup r fs f acc :
  group_coherent env r fs ->
  map_get f
    (fold_left (fun contents file => map_set (filename file) (code file) contents)
               (map_values fs) acc)
  = match map_get f fs with
    | Some file => Some (code file)
    | None => map_get f acc
    end.
Proof.
  intros [Hnd Hall]. revert acc.
  induction fs as [|[k file] fs IH]; intros acc; simpl; [reflexivity|].
  unfold map_keys in Hnd. simpl in Hnd. apply NoDup_cons in Hnd as [Hk Hnd].
  destruct (Hall k file) as (out & _ & Hfile); [left|].
  rewrite IH.
  - destruct (String.eqb_spec f k) as [->|Hne].
    + assert (map_get k fs = None) as ->.
      { apply map_get_None_keys. exact Hk. }
      rewrite map_get_set. rewrite Hfile. simpl. rewrite String.eqb_refl.
      reflexivity.
    + destruct (map_get f fs); [reflexivity|].
      rewrite map_get_set. rewrite Hfile. simpl.
      destruct (String.eqb_spec f k); [contradiction|reflexivity].
  - exact Hnd.
  - intros f0 file0 H0. apply Hall. right. exact H0.
Qed.

End SwcLookupFacts.

(** X2.  In every reachable state, [fileGroup(P)] succeeds exactly when
    some group holds [P]; the object it returns then has, for every file name,
    the code cached for that name in the first group (in insertion order) that
    holds [P], and nothing for names outside that group. *)
Theorem swc_fileGroup_returns_cached_code (env : SwcCompiler.Env)
    (ops : list SwcCompiler.Op) (P : string) :
  let st := SwcCompiler.run env ops SwcCompiler.initial in
  (forall g, SwcCompiler.group P (SwcCompiler.compiledFiles st) = Some g ->
     exists contents,
       SwcCompiler.fileGroup env P st = Ok contents /\
       forall f,
         map_get f contents
         = option_map SwcCompiler.code
             (SwcCache.cached (SwcCompiler.group_root g) f
                (SwcCompiler.compiledFiles st))) /\
  (SwcCompiler.group P (SwcCompiler.compiledFiles st) = None ->
   exists e, SwcCompiler.fileGroup env P st = Throw e).
Proof.
  intros st.
  pose proof (run_coherent env ops SwcCompiler.initial (initial_coherent env)
                (List.Forall_nil _))
    as Hc. fold st in Hc. destruct Hc as [Hnd Hall].
  unfold SwcCompiler.fileGroup. split.
  - intros g Hg. rewrite Hg.
    destruct (group_Some_files P _ g Hg) as (fs & Hin & _ & Hfiles).
    eexists. split; [reflexivity|]. intros f. rewrite Hfiles.
    rewrite (contents_lookup env (SwcCompiler.group_root g) fs f [] (Hall _ _ Hin)).
    unfold SwcCache.cached. rewrite (map_get_NoDup _ _ _ Hnd Hin).
    destruct (map_get f fs); reflexivity.
  - intros ->. destruct (SwcCompiler.missingDestination env P) as [m|e];
      eexists; reflexivity.
Qed.

(** X3.  [group(P)] finds nothing exactly when no group holds [P];
    otherwise it returns the first root, in insertion order, among the roots
    whose groups hold [P], together with that group's files in insertion
    order. *)
Theorem swc_group_is_first_holder (P : string)
    (groups : SwcCompiler.CompiledFiles) :
  (SwcCompiler.group P groups = None <->
   SwcCompiler.roots_containing P groups = []) /\
  (forall g, SwcCompiler.group P groups = Some g ->
     head (SwcCompiler.roots_containing P groups) = Some (SwcCompiler.group_root g) /\
     exists fs, In (SwcCompiler.group_root g, fs) groups /\
                map_has P fs = true /\
                SwcCompiler.files g = map_values fs).
Proof.
  split.
  - unfold SwcCompiler.roots_containing.
    induction groups as [|[r fs] rest IH]; simpl; [tauto|].
    destruct (map_has P fs); simpl; [split; discriminate|exact IH].
  - intros g Hg. split.
    + destruct (group_is_first_root P groups g Hg) as [rest ->]. reflexivity.
    + destruct (group_Some_files P groups g Hg) as (fs & Hin & Hhas & Hfiles).
      exists fs. split; [apply list_elem_of_In, Hin|]. split; assumption.
Qed.

Lemma swc_group_is_first_holder_witness :
  let groups :=
    SwcCompiler.compiledFiles
      (SwcCompiler.run Fixture.nested
         [SwcCompiler.OpCompile "/ws/pkg/b.ts"; SwcCompiler.OpCompile "/ws/a.ts"]
         SwcCompiler.initial) in
  SwcCompiler.roots_containing "/ws/pkg/b.ts" groups = ["/ws/pkg"; "/ws"] /\
  option_map SwcCompiler.group_root (SwcCompiler.group "/ws/pkg/b.ts" groups)
  = Some "/ws/pkg".
Proof.
  intros groups. split; [reflexivity|].
  destruct (SwcCompiler.group "/ws/pkg/b.ts" groups) as [g|] eqn:Hg;
    [|vm_compute in Hg; discriminate Hg].
  destruct (proj2 (swc_group_is_first_holder "/ws/pkg/b.ts" groups) g Hg)
    as [Hhead _].
  simpl. rewrite <- Hhead. reflexivity.
Defined.

Section SwcRecompileFacts.
Import SwcCompiler SwcCache.
Variable env : Env.

Lemma map_keys_addFile_present file groups :
  map_has (root file) groups = true ->
  map_keys (addFile file groups) = map_keys groups.
Proof.
  intros Hhas. unfold addFile. rewrite map_keys_set, Hhas. reflexivity.
Qed.

Lemma in_flight_nil st : pending st = [] -> in_flight [] st = st.
Proof. destruct st as [cf l p]. simpl. intros ->. reflexivity. Qed.

(** [compile] of a file that has a group, with nothing in flight. *)
Lemma compile_cached P g st :
  group P (compiledFiles st) = Some g ->
  pending st = [] ->
  compile env P st
  = match settle env (start env P (group_root g)) st with
    | (Throw e, st1) => (Throw e, st1)
    | (Ok _, st1) => (Ok (group P (compiledFiles st1)), st1)
    end.
Proof.
  intros Hg Hp. unfold compile, await. rewrite Hg.
  rewrite (await_all_single env _ _ st Hp).
  pose proof (settle_pending env (start env P (group_root g)) st) as Hp1.
  destruct (settle env (start env P (group_root g)) st) as [[file|e] st1];
    simpl in Hp1; rewrite in_flight_nil by (rewrite Hp1; exact Hp); reflexivity.
Qed.

Lemma firstIgnoring_first fname r includeGlobs ignoreGlobs G :
  firstIgnoring env fname r includeGlobs ignoreGlobs = Some G ->
  exists before after,
    ignoreGlobs = before ++ G :: after /\
    arr_includes fname (globby env (includeGlobs ++ [G]) r) = false /\
    forall g, In g before ->
      arr_includes fname (globby env (includeGlobs ++ [g]) r) = true.
Proof.
  induction ignoreGlobs as [|g rest IH]; simpl; [discriminate|].
  destruct (arr_includes fname (globby env (includeGlobs ++ [g]) r)) eqn:E; simpl.
  - intros H. destruct (IH H) as (before & after & -> & Hout & Hbefore).
    exists (g :: before), after. split; [reflexivity|]. split; [exact Hout|].
    intros g' [<-|Hin]; [exact E|exact (Hbefore g' Hin)].
  - intros [= <-]. exists [], rest. split; [reflexivity|]. split; [exact E|].
    intros g' [].
Qed.

Lemma firstIgnoring_none fname r includeGlobs ignoreGlobs :
  firstIgnoring env fname r includeGlobs ignoreGlobs = None <->
  forall g, In g ignoreGlobs ->
    arr_includes fname (globby env (includeGlobs ++ [g]) r) = true.
Proof.
  induction ignoreGlobs as [|g rest IH]; simpl; [split; [intros _ g []|reflexivity]|].
  destruct (arr_includes fname (globby env (includeGlobs ++ [g]) r)) eqn:E; simpl.
  - rewrite IH. split.
    + intros H g' [<-|Hin]; [exact E|exact (H g' Hin)].
    + intros H g' Hin. apply H. right. exact Hin.
  - split; [discriminate|]. intros H. rewrite (H g) in E by (left; reflexivity).
    discriminate E.
Qed.

(** After [invalidateBuildSet], while only transforms in flight settle,
    the cache holds nothing but what they record. *)
Lemma settles_after_invalidate idx st r f :
  group_has r f (compiledFiles (run env (map OpSettle idx) st)) = true ->
  group_has r f (compiledFiles st) = true \/
  exists b, In b (pending st) /\ build_root b = r /\ build_filename b = f /\
            failure env b = None.
Proof.
  revert st. induction idx as [|i idx IH]; intros st; simpl; [auto|].
  intros H. destruct (IH _ H) as [H1|(b & Hb & Hk)].
  - apply land_group_has in H1 as [H1|(b & Hb & Hk)]; [left; exact H1|].
    right. exists b. split; [apply (lookup_In b i), Hb|exact Hk].
  - right. exists b. split; [apply (land_pending_In env i), Hb|exact Hk].
Qed.

End SwcRecompileFacts.

(** X4.  Recompiling a file that already belongs to a group, after the
    file has been edited, with no transform in flight: if its build now
    fails, [compile] rejects with that error and the backend is exactly as it
    was, so the output of the earlier version stays cached; if its build
    succeeds, the entry of that file in that group is replaced by the fresh
    output, every other cached file is untouched, no group gains or loses a
    file and the order of the groups is kept. *)
Theorem swc_recompile_cached_file (env0 env : SwcCompiler.Env)
    (ops : list SwcCompiler.Op) (P : string) (g : SwcCompiler.Group) :
  let st := SwcCompiler.run env0 ops SwcCompiler.initial in
  let r := SwcCompiler.group_root g in
  SwcCompiler.group P (SwcCompiler.compiledFiles st) = Some g ->
  SwcCompiler.pending st = [] ->
  (forall e, SwcCompiler.failure env (SwcCompiler.start env P r) = Some e ->
     SwcCompiler.compile env P st = (Throw e, st)) /\
  (forall out,
     SwcCompiler.transformFile env P r = Ok out ->
     SwcCompiler.builds env P r = true ->
     let groups' := SwcCompiler.compiledFiles (snd (SwcCompiler.compile env P st)) in
     (forall r' f',
        SwcCache.cached r' f' groups'
        = if String.eqb r' r && String.eqb f' P
          then Some (SwcCompiler.mkFile P r out)
          else SwcCache.cached r' f' (SwcCompiler.compiledFiles st)) /\
     (forall r' f',
        SwcCompiler.group_has r' f' groups'
        = SwcCompiler.group_has r' f' (SwcCompiler.compiledFiles st)) /\
     map_keys groups' = map_keys (SwcCompiler.compiledFiles st)).
Proof.
  intros st r Hg Hp.
  pose proof (run_coherent env0 ops SwcCompiler.initial (initial_coherent env0)
                (List.Forall_nil _))
    as Hc. fold st in Hc. destruct Hc as [Hnd Hall].
  destruct (group_Some_files P _ g Hg) as (fs & Hin & Hhas & _). fold r in Hin.
  pose proof (map_get_NoDup _ _ _ Hnd Hin) as Hget.
  rewrite (compile_cached env P g st Hg Hp). fold r.
  split.
  - intros e He. rewrite (settle_failure env _ st e He). reflexivity.
  - intros out Hout Hb groups'.
    destruct (settle_success env (SwcCompiler.start env P r) st
                (proj1 (builds_failure env P r) Hb))
      as (out' & Hout' & Hres & Hfiles & _).
    simpl in Hout', Hres, Hfiles. rewrite Hout in Hout'. injection Hout' as <-.
    assert (groups' = SwcCompiler.addFile (SwcCompiler.mkFile P r out)
                        (SwcCompiler.compiledFiles st)) as ->.
    { subst groups'.
      destruct (SwcCompiler.settle env (SwcCompiler.start env P r) st)
        as [[file|e] st1]; simpl in *; [exact Hfiles|discriminate Hres]. }
    split; [|split].
    + intros r' f'. rewrite cached_addFile. reflexivity.
    + intros r' f'. rewrite group_has_addFile. simpl.
      destruct (String.eqb_spec r' r) as [->|]; [|reflexivity].
      destruct (String.eqb_spec f' P) as [->|]; [|reflexivity].
      simpl. unfold SwcCompiler.group_has. rewrite Hget. symmetry. exact Hhas.
    + apply map_keys_addFile_present. simpl. unfold map_has. rewrite Hget.
      reflexivity.
Qed.

Lemma swc_recompile_cached_file_witness :
  let ops := [SwcCompiler.OpCompile "/ws/p1/a.ts"] in
  let st := SwcCompiler.run Fixture.siblings ops SwcCompiler.initial in
  let broken :=
    Fixture.edited "/ws/p1/b.ts" (Throw (mkError "unexpected token"))
      Fixture.siblings in
  let fixed := Fixture.edited "/ws/p1/b.ts" (Ok "compiled again") Fixture.siblings in
  SwcCompiler.pending st = [] /\
  SwcCompiler.compile broken "/ws/p1/b.ts" st
  = (Throw (mkError "unexpected token"), st) /\
  SwcCache.cached "/ws/p1" "/ws/p1/b.ts" (SwcCompiler.compiledFiles st)
  = Some (SwcCompiler.mkFile "/ws/p1/b.ts" "/ws/p1" "compiled /ws/p1/b.ts") /\
  SwcCache.cached "/ws/p1" "/ws/p1/b.ts"
    (SwcCompiler.compiledFiles (snd (SwcCompiler.compile fixed "/ws/p1/b.ts" st)))
  = Some (SwcCompiler.mkFile "/ws/p1/b.ts" "/ws/p1" "compiled again") /\
  SwcCache.cached "/ws/p1" "/ws/p1/a.ts"
    (SwcCompiler.compiledFiles (snd (SwcCompiler.compile fixed "/ws/p1/b.ts" st)))
  = Some (SwcCompiler.mkFile "/ws/p1/a.ts" "/ws/p1" "compiled /ws/p1/a.ts").
Proof.
  intros ops st broken fixed.
  destruct (SwcCompiler.group "/ws/p1/b.ts" (SwcCompiler.compiledFiles st))
    as [g|] eqn:Hg; [|vm_compute in Hg; discriminate Hg].
  assert (SwcCompiler.group_root g = "/ws/p1") as Hroot.
  { vm_compute in Hg. injection Hg as <-. reflexivity. }
  assert (SwcCompiler.pending st = []) as Hp by reflexivity.
  split; [exact Hp|]. split; [|split; [reflexivity|]].
  - apply (proj1 (swc_recompile_cached_file Fixture.siblings broken ops
                    "/ws/p1/b.ts" g Hg Hp)).
    rewrite Hroot. reflexivity.
  - destruct (proj2 (swc_recompile_cached_file Fixture.siblings fixed ops
                       "/ws/p1/b.ts" g Hg Hp) "compiled again")
      as (Hcached & _ & _).
    + rewrite Hroot. reflexivity.
    + rewrite Hroot. reflexivity.
    + rewrite Hroot in Hcached. split.
      * etransitivity; [exact (Hcached "/ws/p1" "/ws/p1/b.ts")|reflexivity].
      * etransitivity; [exact (Hcached "/ws/p1" "/ws/p1/a.ts")|reflexivity].
Defined.

(** X5.  [invalidateBuildSet] empties the cache but cancels nothing: the
    transforms in flight stay in flight, each that fulfils is recorded in the
    fresh cache when it settles, and while only such transforms settle the
    fresh cache holds nothing but what they record. *)
Theorem swc_invalidate_keeps_builds_in_flight (env : SwcCompiler.Env)
    (st : SwcCompiler.State) :
  let st1 := SwcCompiler.invalidateBuildSet st in
  SwcCompiler.compiledFiles st1 = [] /\
  SwcCompiler.pending st1 = SwcCompiler.pending st /\
  (forall i b out,
     SwcCompiler.pending st !! i = Some b ->
     SwcCompiler.build_output b = Ok out ->
     SwcCompiler.failure env b = None ->
     SwcCompiler.compiledFiles (SwcCompiler.land env i st1)
     = [(SwcCompiler.build_root b,
         [(SwcCompiler.build_filename b,
           SwcCompiler.mkFile (SwcCompiler.build_filename b)
                              (SwcCompiler.build_root b) out)])]) /\
  (forall idx r f,
     SwcCompiler.group_has r f
       (SwcCompiler.compiledFiles
          (SwcCompiler.run env (map SwcCompiler.OpSettle idx) st1)) = true ->
     exists b, In b (SwcCompiler.pending st) /\
               SwcCompiler.build_root b = r /\
               SwcCompiler.build_filename b = f /\
               SwcCompiler.failure env b = None).
Proof.
  intros st1. split; [reflexivity|]. split; [reflexivity|]. split.
  - intros i b out Hi Hout Hok. unfold SwcCompiler.land. simpl. rewrite Hi.
    destruct (settle_success env b
                (SwcCompiler.mkState [] (SwcCompiler.log st)
                   (delete i (SwcCompiler.pending st))) Hok)
      as (out' & Hout' & _ & -> & _).
    rewrite Hout in Hout'. injection Hout' as <-. reflexivity.
  - intros idx r f H.
    destruct (settles_after_invalidate env idx st1 r f H) as [H1|H1];
      [discriminate H1|exact H1].
Qed.

Lemma swc_invalidate_keeps_builds_in_flight_witness :
  let env := Fixture.with_broken_file_first in
  let st := SwcCompiler.run env [SwcCompiler.OpCompile "/ws/a.ts"]
              SwcCompiler.initial in
  SwcCompiler.pending st
  = [SwcCompiler.mkBuild "/ws/a.ts" "/ws" (Ok "compiled /ws/a.ts")] /\
  SwcCompiler.compiledFiles
    (SwcCompiler.run env
       [SwcCompiler.OpCompile "/ws/a.ts"; SwcCompiler.OpInvalidateBuildSet;
        SwcCompiler.OpSettle 0]
       SwcCompiler.initial)
  = [("/ws", [("/ws/a.ts", SwcCompiler.mkFile "/ws/a.ts" "/ws" "compiled /ws/a.ts")])].
Proof.
  intros env st. split; [reflexivity|].
  exact (proj1 (proj2 (proj2 (swc_invalidate_keeps_builds_in_flight env st)))
           0 (SwcCompiler.mkBuild "/ws/a.ts" "/ws" (Ok "compiled /ws/a.ts"))
           "compiled /ws/a.ts" eq_refl eq_refl eq_refl).
Defined.

(** X6.  What [isFilenameIgnored(P)] returns.  It throws exactly when
    find-root does.  It returns a pattern [G] exactly when the full ignore
    list makes the globbing omit [P], the include patterns alone yield [P],
    and [G] is the first ignore pattern, in the order "!node_modules",
    "!**/*.d.ts", then the configured ignores, that alone makes the globbing
    omit [P]: every earlier pattern, used alone, still yields [P].  In every
    other case it returns [false]; in particular when [P] is omitted by the
    full ignore list but by no single pattern alone. *)
Theorem swc_isFilenameIgnored_first_pattern (env : SwcCompiler.Env) (P : string) :
  match SwcCompiler.isFilenameIgnored env P with
  | Throw e => SwcCompiler.find_root env P = Throw e
  | Ok answer =>
      exists r,
        SwcCompiler.find_root env P = Ok r /\
        let config := SwcCompiler.projectConfig env r in
        let includeGlobs := SwcCompiler.fileGlobPatterns config in
        let ignoreGlobs := SwcCompiler.ignoreFileGlobPatterns config in
        let omitted globs := arr_includes P (SwcCompiler.globby env globs r) = false in
        match answer with
        | Some G =>
            omitted (includeGlobs ++ ignoreGlobs) /\
            ~ omitted includeGlobs /\
            exists before after,
              ignoreGlobs = before ++ G :: after /\
              omitted (includeGlobs ++ [G]) /\
              forall g, In g before -> ~ omitted (includeGlobs ++ [g])
        | None =>
            ~ omitted (includeGlobs ++ ignoreGlobs) \/
            omitted includeGlobs \/
            forall g, In g ignoreGlobs -> ~ omitted (includeGlobs ++ [g])
        end
  end.
Proof.
  unfold SwcCompiler.isFilenameIgnored.
  destruct (SwcCompiler.find_root env P) as [r|e]; [|reflexivity].
  set (config := SwcCompiler.projectConfig env r).
  set (includeGlobs := SwcCompiler.fileGlobPatterns config).
  set (ignoreGlobs := SwcCompiler.ignoreFileGlobPatterns config).
  destruct (arr_includes P (SwcCompiler.globby env (includeGlobs ++ ignoreGlobs) r))
    eqn:Hactual; cbn [negb andb].
  { exists r. split; [reflexivity|]. cbv zeta. fold config includeGlobs ignoreGlobs.
    left. rewrite Hactual. discriminate. }
  destruct (arr_includes P (SwcCompiler.globby env includeGlobs r)) eqn:Hall.
  2:{ exists r. split; [reflexivity|]. cbv zeta. fold config includeGlobs.
      right. left. exact Hall. }
  exists r. split; [reflexivity|]. cbv zeta. fold config includeGlobs ignoreGlobs.
  destruct (SwcCompiler.firstIgnoring env P r includeGlobs ignoreGlobs)
    as [G|] eqn:Hfirst.
  - split; [exact Hactual|]. split; [rewrite Hall; discriminate|].
    destruct (firstIgnoring_first env P r includeGlobs ignoreGlobs G Hfirst)
      as (before & after & Heq & Hout & Hbefore).
    exists before, after. split; [exact Heq|]. split; [exact Hout|].
    intros g Hg. rewrite (Hbefore g Hg). discriminate.
  - right. right. intros g Hg.
    rewrite (proj1 (firstIgnoring_none env P r includeGlobs ignoreGlobs) Hfirst g Hg).
    discriminate.
Qed.

Lemma swc_isFilenameIgnored_first_pattern_witness :
  SwcCompiler.isFilenameIgnored Fixture.with_ignore "/ws/gen/x.ts"
  = Ok (Some "!gen/**") /\
  exists before after,
    ["!node_modules"; "!**/*.d.ts"; "!gen/**"] = before ++ "!gen/**" :: after /\
    arr_includes "/ws/gen/x.ts"
      (SwcCompiler.globby Fixture.with_ignore
         (["**/*{.tsx,.ts,.jsx,.mjs,.cjs,.js}"] ++ ["!gen/**"]) "/ws") = false /\
    forall g, In g before ->
      arr_includes "/ws/gen/x.ts"
        (SwcCompiler.globby Fixture.with_ignore
           (["**/*{.tsx,.ts,.jsx,.mjs,.cjs,.js}"] ++ [g]) "/ws") <> false.
Proof.
  split; [reflexivity|].
  pose proof (swc_isFilenameIgnored_first_pattern Fixture.with_ignore "/ws/gen/x.ts")
    as H.
  change (SwcCompiler.isFilenameIgnored Fixture.with_ignore "/ws/gen/x.ts")
    with (@Ok (option string) (Some "!gen/**")) in H.
  destruct H as (r & Hr & _ & _ & H). injection Hr as <-. exact H.
Defined.

(** ** The server at work *)

(** X7.  Over any sequence of child messages, the listener on the
    supervisor's "message" event watches exactly the paths it was watching
    plus the non-empty [require] paths that do not mention node_modules; in
    particular it never starts watching a path that mentions node_modules. *)
Theorem message_listener_skips_node_modules (requires : list (option string))
    (paths : gset string) (p : string) :
  p ∈ Routes.deliver_messages requires paths <->
  p ∈ paths \/
  (In (Some p) requires /\ p <> "" /\ includes "node_modules" p = false).
Proof.
  unfold Routes.deliver_messages. revert paths.
  induction requires as [|m rest IH]; intros paths; simpl.
  - split; [tauto|]. intros [H|[[] _]]. exact H.
  - rewrite IH. unfold Index.on_supervisor_message.
    destruct m as [r|].
    + destruct (String.eqb_spec r "") as [->|Hne].
      * split; [tauto|]. intros [H|[[[= <-]|H] [H1 H2]]]; [tauto|congruence|tauto].
      * destruct (includes "node_modules" r) eqn:Hnm; simpl.
        -- split; [tauto|].
           intros [H|[[[= <-]|H] [H1 H2]]]; [tauto|congruence|tauto].
        -- rewrite elem_of_union, elem_of_singleton. split.
           ++ intros [[->|H]|H]; [right|tauto|tauto]. tauto.
           ++ intros [H|[[[= <-]|H] [H1 H2]]]; tauto.
    + split; [tauto|]. intros [H|[[H|H] [H1 H2]]]; [tauto|discriminate H|tauto].
Qed.

Section RoutesFacts.
Context {C : Type} {HC : Index.Compiler C}.

Lemma watcher_add_watched (f : string) (p1 p2 : Index.Project C) :
  Index.watcher p2 = Index.watcher_add f (Index.watcher p1) ->
  Index.watched p1 ⊆ Index.watched p2 /\
  (Index.watcher p2 = None <-> Index.watcher p1 = None).
Proof.
  intros Hw. unfold Index.watched. rewrite Hw.
  destruct (Index.watcher p1) as [paths|]; simpl.
  - split; [set_solver|]. split; discriminate.
  - split; [set_solver|tauto].
Qed.

Lemma route_compile_watcher (P : string) (p : Index.Project C) :
  Index.watcher (snd (Index.route_compile P p))
  = match fst (Index.compiler_compile P (Index.compiler p)) with
    | Ok _ => Index.watcher_add P (Index.watcher p)
    | Throw _ => Index.watcher p
    end.
Proof.
  unfold Index.route_compile, Index.compile.
  destruct (Index.compiler_compile P (Index.compiler p)) as [[u|e] c1]; simpl;
    [|reflexivity].
  destruct (Index.compiler_fileGroup P c1); reflexivity.
Qed.

Lemma handle_watched (req : Routes.Request) (p : Index.Project C) :
  Index.watched p ⊆ Index.watched (snd (Routes.handle req p)) /\
  (Index.watcher (snd (Routes.handle req p)) = None <-> Index.watcher p = None).
Proof.
  destruct req as [P|body]; simpl.
  - pose proof (route_compile_watcher P p) as Hw.
    destruct (fst (Index.compiler_compile P (Index.compiler p))).
    + apply (watcher_add_watched P). exact Hw.
    + unfold Index.watched. rewrite Hw. split; [set_solver|tauto].
  - unfold Index.watched. simpl.
    destruct (Index.watcher p) as [paths|].
    + rewrite fold_watcher_add. split; [set_solver|]. split; discriminate.
    + rewrite fold_watcher_add_None. split; [set_solver|tauto].
Qed.

End RoutesFacts.

(** X8.  Handling POST /compile registers the requested file with the
    watcher exactly when the backend's [compile] did not raise: a failure of
    the later [fileGroup] does not undo the registration, and a failing
    [compile] leaves the watcher as it was.  The reply is
    [{ filenames: undefined }] in both failure cases. *)
Theorem route_compile_registers_after_compile (C : Type) (HC : Index.Compiler C)
    (P : string) (project : Index.Project C) :
  ((exists e, fst (Index.compiler_compile P (Index.compiler project)) = Throw e) ->
   Index.watcher (snd (Index.route_compile P project)) = Index.watcher project /\
   fst (Index.route_compile P project)
   = Index.JObject [("filenames", Index.JUndefined)]) /\
  ((exists u, fst (Index.compiler_compile P (Index.compiler project)) = Ok u) ->
   Index.watcher (snd (Index.route_compile P project))
   = Index.watcher_add P (Index.watcher project) /\
   ((exists e, Index.compiler_fileGroup P
                 (snd (Index.compiler_compile P (Index.compiler project))) = Throw e) ->
    fst (Index.route_compile P project)
    = Index.JObject [("filenames", Index.JUndefined)])).
Proof.
  pose proof (route_compile_watcher P project) as Hw.
  unfold Index.route_compile, Index.compile in *.
  destruct (Index.compiler_compile P (Index.compiler project)) as [[u|e] c1];
    simpl in *.
  - split; [intros [e He]; discriminate He|]. intros _.
    split; [exact Hw|]. intros [e He]. rewrite He. reflexivity.
  - split; [|intros [u Hu]; discriminate Hu]. intros _.
    split; [exact Hw|reflexivity].
Qed.

(** X9.  Whatever requests the IPC server handles, the watcher's path set
    only grows, and a project without a watcher never gets one. *)
Theorem server_watcher_is_additive (C : Type) (HC : Index.Compiler C)
    (reqs : list Routes.Request) (project : Index.Project C) :
  Index.watched project ⊆ Index.watched (snd (Routes.serve reqs project)) /\
  (Index.watcher (snd (Routes.serve reqs project)) = None
   <-> Index.watcher project = None).
Proof.
  revert project. induction reqs as [|req rest IH]; intros project; simpl.
  - split; [set_solver|tauto].
  - pose proof (handle_watched req project) as [Hsub Hnone].
    destruct (Routes.handle req project) as [reply p1]. simpl in *.
    destruct (IH p1) as (Hsub' & Hnone').
    destruct (Routes.serve rest p1) as [replies p2]. simpl in *.
    split; [set_solver|tauto].
Qed.

Section SwcServed.
Import SwcCompiler SwcCache.
Variable env : Env.

(** After [compile] of a file that had no group, with nothing in flight
    before and every enumerated file building, the lookup of the file finds
    the group of its root, holding the fresh transform output. *)
Lemma compile_then_group P r out st :
  coherent env (compiledFiles st) ->
  pending st = [] ->
  group P (compiledFiles st) = None ->
  find_root env P = Ok r ->
  In P (enumerate env r) ->
  (forall f, In f (enumerate env r) -> builds env f r = true) ->
  transformFile env P r = Ok out ->
  let st' := snd (compile env P st) in
  exists g fs,
    fst (compile env P st) = Ok (Some g) /\
    group P (compiledFiles st') = Some g /\
    group_root g = r /\
    (r, fs) ∈ compiledFiles st' /\
    files g = map_values fs /\
    group_coherent env r fs /\
    map_get P fs = Some (mkFile P r out).
Proof.
  intros Hc Hp Hnone Hr Hin Hb Hout st'.
  assert (coherent env (compiledFiles st')) as Hc'.
  { apply (compile_holds env (coherent env)
             (fun b => build_output b
                       = transformFile env (build_filename b) (build_root b)));
      try assumption.
    - intros b out' groups Hbo Hout' Hg. apply addFile_coherent; [exact Hg|].
      rewrite <- Hbo. exact Hout'.
    - intros fname r' f _ _. reflexivity.
    - intros groups r' fs f _ _ _. reflexivity.
    - rewrite Hp. constructor. }
  assert (fst (compile env P st) = Ok (group P (compiledFiles st'))) as Hres.
  { subst st'. destruct (compile_fresh env P r st Hnone Hr)
      as (err & later & st1 & _ & ->). simpl.
    destruct err as [[m]|]; reflexivity. }
  destruct (compile_fresh_outcome env P r st Hnone Hr)
    as (_ & Honly0 & Hall & _ & Hexact). fold st' in Honly0, Hall, Hexact.
  destruct (Hall Hb) as [_ Hpend]. destruct (Hexact Hp) as [Hrec _].
  assert (forall r' f, group_has r' f (compiledFiles st') = true ->
            r' = r \/ group_has r' f (compiledFiles st) = true) as Honly.
  { intros r' f H. destruct (Honly0 r' f H) as [H1|[(-> & _)|(b & Hbin & _)]];
      [right; exact H1|left; reflexivity|].
    rewrite Hp in Hbin. destruct Hbin. }
  assert (cached r P (compiledFiles st') = Some (mkFile P r out)) as Hcached.
  { destruct (Hrec P out Hin Hout (Hb P Hin)) as [H|H]; [exact H|].
    apply Hpend in H. rewrite Hp in H. destruct H. }
  assert (group_has r P (compiledFiles st') = true) as Hhas.
  { unfold cached in Hcached. unfold group_has, map_has.
    destruct (map_get r (compiledFiles st')); [|discriminate Hcached].
    rewrite Hcached. reflexivity. }
  destruct Hc' as [Hnd Hall'].
  destruct (group P (compiledFiles st')) as [g|] eqn:Hg.
  - destruct (group_Some_files P _ g Hg) as (fs & Hgin & Hgh & Hfiles).
    pose proof (map_get_NoDup _ _ _ Hnd Hgin) as Hget.
    assert (group_root g = r) as Hroot.
    { destruct (Honly (group_root g) P) as [H|H]; [|exact H|].
      - unfold group_has. rewrite Hget. exact Hgh.
      - exfalso. unfold group_has in H.
        destruct (map_get (group_root g) (compiledFiles st)) as [fs0|] eqn:E;
          [|discriminate H].
        apply map_get_elem_of in E.
        rewrite (proj1 (group_None P _) Hnone _ _ E) in H. discriminate H. }
    rewrite Hroot in *. exists g, fs.
    destruct (Hall' r fs Hgin) as [Hnd' Hfs].
    split; [exact Hres|]. split; [reflexivity|]. split; [exact Hroot|].
    split; [exact Hgin|]. split; [exact Hfiles|]. split; [split; assumption|].
    unfold cached in Hcached. rewrite Hget in Hcached. exact Hcached.
  - exfalso. unfold group_has in Hhas.
    destruct (map_get r (compiledFiles st')) as [fs|] eqn:E; [|discriminate Hhas].
    apply map_get_elem_of in E.
    rewrite (proj1 (group_None P _) Hg _ _ E) in Hhas. discriminate Hhas.
Qed.

End SwcServed.

(** X10.  POST /compile for a file that has no group yet, served by the SWC
    backend in a reachable state with no transform in flight: if the file is
    enumerated under its package root and every file enumerated there
    builds, the reply is [{ filenames: {...} }] and maps the file to its
    transform output; the file is registered with the watcher and no compile
    error is logged by the server. *)
Theorem swc_compile_request_serves_code (env : SwcCompiler.Env)
    (ops : list SwcCompiler.Op) (P r out : string)
    (w : option (gset string)) (l : list LogLine) :
  let st := SwcCompiler.run env ops SwcCompiler.initial in
  let project := Index.mkProject st w l in
  SwcCompiler.group P (SwcCompiler.compiledFiles st) = None ->
  SwcCompiler.pending st = [] ->
  SwcCompiler.find_root env P = Ok r ->
  In P (SwcCompiler.enumerate env r) ->
  (forall f, In f (SwcCompiler.enumerate env r) ->
             SwcCompiler.builds env f r = true) ->
  SwcCompiler.transformFile env P r = Ok out ->
  exists fields,
    fst (Index.route_compile (HC := Index.swc_compiler env) P project)
    = Index.JObject [("filenames", Index.JObject fields)] /\
    In (P, Index.JString out) fields /\
    Index.watcher (snd (Index.route_compile (HC := Index.swc_compiler env) P project))
    = Index.watcher_add P w /\
    Index.log (snd (Index.route_compile (HC := Index.swc_compiler env) P project)) = l.
Proof.
  intros st project Hnone Hp Hr Hin Hb Hout.
  assert (SwcCache.coherent env (SwcCompiler.compiledFiles st)) as Hc.
  { apply run_coherent; [apply initial_coherent|constructor]. }
  destruct (compile_then_group env P r out st Hc Hp Hnone Hr Hin Hb Hout)
    as (g & fs & Hres & Hg & Hroot & Hgin & Hfiles & Hgc & Hfile).
  unfold Index.route_compile, Index.compile. simpl.
  destruct (SwcCompiler.compile env P st) as [res st'] eqn:Hcomp.
  simpl in Hres, Hg. subst res. simpl.
  unfold SwcCompiler.fileGroup. rewrite Hg. simpl.
  eexists. split; [reflexivity|]. split; [|split; reflexivity].
  apply in_map_iff. exists (P, out). split; [reflexivity|].
  apply list_elem_of_In, map_get_elem_of. rewrite Hfiles.
  rewrite (contents_lookup env r fs P [] Hgc), Hfile. reflexivity.
Qed.

Lemma swc_compile_request_serves_code_witness :
  let project := Index.mkProject SwcCompiler.initial (Some ∅) [] in
  fst (Index.route_compile (HC := Index.swc_compiler Fixture.siblings)
         "/ws/p2/c.ts" project)
  = Index.JObject
      [("filenames",
        Index.JObject [("/ws/p2/c.ts", Index.JString "compiled /ws/p2/c.ts")])] /\
  exists fields,
    fst (Index.route_compile (HC := Index.swc_compiler Fixture.siblings)
           "/ws/p2/c.ts" project)
    = Index.JObject [("filenames", Index.JObject fields)] /\
    In ("/ws/p2/c.ts", Index.JString "compiled /ws/p2/c.ts") fields.
Proof.
  intros project. split; [vm_compute; reflexivity|].
  destruct (swc_compile_request_serves_code Fixture.siblings [] "/ws/p2/c.ts"
              "/ws/p2" "compiled /ws/p2/c.ts" (Some ∅) [])
    as (fields & Hreply & Hin & _); try reflexivity.
  - vm_compute. tauto.
  - intros f Hf. vm_compute in Hf. destruct Hf as [<-|[]]. reflexivity.
  - exists fields. split; assumption.
Defined.

(** ** Watcher events, restarts and shutdown *)

Section LifecycleFacts.
Import Project Lifecycle.
Variable workspaceRoot : string.

Lemma run_watcher_events evs st :
  run workspaceRoot (map on_watcher_event evs) st
  = mkState
      (mkBatch (paths (currentBatch st) ++ map snd evs)
               (invalidate (currentBatch st)
                || existsb (fun ev => requires_invalidation (fst ev)) evs))
      (match evs with [] => debouncePending st | _ => true end)
      (flushes st) (trace st).
Proof.
  revert st. induction evs as [|ev evs IH]; intros st; simpl.
  - rewrite app_nil_r, orb_false_r. destruct st as [[p i] d f t]. reflexivity.
  - change (fold_left (step workspaceRoot) (map on_watcher_event evs)
              (enqueueReload (snd ev) (requires_invalidation (fst ev)) st))
      with (run workspaceRoot (map on_watcher_event evs)
              (enqueueReload (snd ev) (requires_invalidation (fst ev)) st)).
    rewrite IH. simpl. rewrite <- app_assoc, orb_assoc. simpl.
    destruct evs; reflexivity.
Qed.

Lemma restarts_events_of k tr : restarts k tr = restarts k (events_of k tr).
Proof.
  unfold restarts, events_of. induction tr as [|e tr IH]; [reflexivity|].
  simpl. destruct (Nat.eqb_spec (event_flush e) k) as [He|He]; simpl.
  - destruct e; simpl; rewrite ?IH; try reflexivity.
    destruct (Nat.eqb k0 k); simpl; rewrite IH; reflexivity.
  - destruct e; simpl in *; try exact IH.
    destruct (Nat.eqb_spec k0 k); [contradiction|exact IH].
Qed.

Lemma restarts_expected k f :
  restarts k (expected k f)
  = match phase f with Completed => 1 | _ => 0 end.
Proof.
  unfold restarts, expected, prologue, invalidation.
  destruct f as [[|] msg [|] [| | |[|]|]]; simpl; rewrite ?Nat.eqb_refl;
    reflexivity.
Qed.

End LifecycleFacts.

(** X11.  A burst of watcher events followed by one expiry of the debounce
    timer starts exactly one flush and leaves the batch empty with nothing
    pending.  The flush's invalidate flag is the flag the batch already had or
    that of any structural event (add, addDir, unlink, unlinkDir) of the
    burst; its summary line is built from all paths of the batch, oldest
    first; it begins with the invalidation exactly when the flag is set. *)
Theorem burst_is_flushed_once (workspaceRoot : string)
    (evs : list (Lifecycle.WatcherEvent * string)) (st : Project.State) :
  evs <> [] ->
  let st' := Project.run workspaceRoot
               (map Lifecycle.on_watcher_event evs ++ [Project.TimerFires]) st in
  let batch :=
    Project.mkBatch
      (Project.paths (Project.currentBatch st) ++ map snd evs)
      (Project.invalidate (Project.currentBatch st)
       || existsb (fun ev => Lifecycle.requires_invalidation (fst ev)) evs) in
  Project.currentBatch st' = Project.emptyBatch /\
  Project.debouncePending st' = false /\
  Project.flushes st'
  = Project.flushes st ++
    [Project.mkFlush Project.FromBatch
       (Project.message workspaceRoot (hd "" (Project.paths batch)) batch)
       (Project.invalidate batch)
       (if Project.invalidate batch
        then Project.AwaitInvalidate else Project.AwaitRebuild)].
Proof.
  intros Hne st' batch. subst st'.
  unfold Project.run. rewrite fold_left_app. simpl.
  change (fold_left (Project.step workspaceRoot)
            (map Lifecycle.on_watcher_event evs) st)
    with (Project.run workspaceRoot (map Lifecycle.on_watcher_event evs) st).
  rewrite run_watcher_events.
  unfold Project.debounceTimerFires. simpl.
  destruct evs as [|ev evs]; [contradiction|]. simpl.
  unfold Project.reloadNow. simpl.
  destruct (Project.paths (Project.currentBatch st) ++ snd ev :: map snd evs)
    as [|first rest] eqn:Hpaths.
  { destruct (Project.paths (Project.currentBatch st)); discriminate Hpaths. }
  simpl. subst batch. simpl. rewrite Hpaths. simpl.
  destruct (Project.invalidate (Project.currentBatch st)
            || (Lifecycle.requires_invalidation (fst ev)
                || existsb (fun ev0 => Lifecycle.requires_invalidation (fst ev0)) evs));
    auto.
Qed.

Lemma burst_is_flushed_once_witness :
  let st' := Project.run "/ws"
               (map Lifecycle.on_watcher_event
                  [(Lifecycle.change, "/ws/a.ts"); (Lifecycle.unlink, "/ws/b.ts")]
                ++ [Project.TimerFires]) Project.init in
  Project.currentBatch st' = Project.emptyBatch /\
  Project.flushes st'
  = [Project.mkFlush Project.FromBatch
       "/a.ts and 1 others changed, reinitializing and restarting ..."
       true Project.AwaitInvalidate].
Proof.
  intros st'.
  destruct (burst_is_flushed_once "/ws"
              [(Lifecycle.change, "/ws/a.ts"); (Lifecycle.unlink, "/ws/b.ts")]
              Project.init) as (Hb & _ & Hf); [discriminate|].
  split; [exact Hb|exact Hf].
Defined.

(** X12.  In every interleaving, a flush calls [supervisor.restart()] once
    if it ran to completion and never otherwise: a flush whose invalidation or
    rebuild was rejected, or that is still waiting, has not restarted the
    child, and no flush restarts it twice. *)
Theorem flush_restarts_at_most_once (workspaceRoot : string)
    (acts : list Project.Action) (k : nat) (f : Project.Flush) :
  let st := Project.run workspaceRoot acts Project.init in
  Project.flushes st !! k = Some f ->
  Lifecycle.restarts k (Project.trace st)
  = match Project.phase f with Project.Completed => 1 | _ => 0 end.
Proof.
  intros st Hk.
  destruct (run_flush_inv workspaceRoot acts Project.init init_flush_inv)
    as [Hev _].
  destruct (Hev k f Hk) as [Hexp _]. fold st in Hexp.
  rewrite restarts_events_of, Hexp. apply restarts_expected.
Qed.

Lemma flush_restarts_at_most_once_witness :
  let acts := [Project.RsCommand; Project.Settle 0 true; Project.Settle 0 false;
               Project.Settle 0 true] in
  Project.flushes (Project.run "/ws" acts Project.init) !! 0
  = Some (Project.mkFlush Project.Unconditional "" true
            (Project.Rejected Project.Rebuild)) /\
  Lifecycle.restarts 0 (Project.trace (Project.run "/ws" acts Project.init)) = 0.
Proof.
  intros acts. split; [reflexivity|].
  exact (flush_restarts_at_most_once "/ws" acts 0 _ eq_refl).
Defined.

(** X13.  [shutdown(code)] stops the supervisor first and then runs the
    registered cleanups in registration order.  If none throws, every cleanup
    runs exactly once and the process exits with [code]; if one throws, the
    cleanups registered after it are not run and [process.exit] is never
    reached. *)
Theorem shutdown_runs_cleanups_in_order (A : Type) (throws : A -> bool)
    (code : Z) (ran : list A) :
  Forall (fun c => throws c = false) ran ->
  Lifecycle.shutdown throws ran code
  = Lifecycle.SupervisorStop :: map Lifecycle.CleanupRan ran
    ++ [Lifecycle.ProcessExit code] /\
  (forall c later,
     throws c = true ->
     Lifecycle.shutdown throws (ran ++ c :: later) code
     = Lifecycle.SupervisorStop :: map Lifecycle.CleanupRan ran
       ++ [Lifecycle.CleanupThrew c]) /\
  (forall c, Lifecycle.shutdown throws (Lifecycle.addShutdownCleanup c ran) code
             = Lifecycle.SupervisorStop :: map Lifecycle.CleanupRan ran
               ++ (if throws c then [Lifecycle.CleanupThrew c]
                   else [Lifecycle.CleanupRan c; Lifecycle.ProcessExit code])).
Proof.
  intros Hran. unfold Lifecycle.shutdown, Lifecycle.addShutdownCleanup.
  induction Hran as [|c ran Hc _ IH]; simpl.
  - split; [reflexivity|]. split.
    + intros c later ->. reflexivity.
    + intros c. destruct (throws c); reflexivity.
  - rewrite Hc. destruct IH as (IH1 & IH2 & IH3).
    injection IH1 as IH1. split; [rewrite IH1; reflexivity|]. split.
    + intros c' later Hc'. specialize (IH2 c' later Hc').
      injection IH2 as IH2. rewrite IH2. reflexivity.
    + intros c'. specialize (IH3 c'). injection IH3 as IH3.
      rewrite IH3. reflexivity.
Qed.

Lemma shutdown_runs_cleanups_in_order_witness :
  Lifecycle.shutdown (fun c => match c with Lifecycle.CloseReader => true | _ => false end)
    [Lifecycle.CloseWatcher; Lifecycle.CloseReader; Lifecycle.CloseServer] 0
  = [Lifecycle.SupervisorStop; Lifecycle.CleanupRan Lifecycle.CloseWatcher;
     Lifecycle.CleanupThrew Lifecycle.CloseReader].
Proof.
  exact (proj1 (proj2 (shutdown_runs_cleanups_in_order Lifecycle.Cleanup
           (fun c => match c with Lifecycle.CloseReader => true | _ => false end)
           0 [Lifecycle.CloseWatcher] ltac:(repeat constructor)))
         Lifecycle.CloseReader [Lifecycle.CloseServer] eq_refl).
Defined.

(** ** The children over time *)

Section ChildrenFacts.
Import Children.

Lemma update_lookup_ne (c c' : nat)
    (f : Supervisor.ChildProcess -> Supervisor.ChildProcess)
    (h : list Supervisor.ChildProcess) :
  c <> c' -> Supervisor.update c' f h !! c = h !! c.
Proof.
  intros Hne. unfold Supervisor.update. destruct (h !! c'); [|reflexivity].
  apply list_lookup_insert_ne. congruence.
Qed.

Lemma length_update (c : nat)
    (f : Supervisor.ChildProcess -> Supervisor.ChildProcess)
    (h : list Supervisor.ChildProcess) :
  length (Supervisor.update c f h) = length h.
Proof.
  unfold Supervisor.update. destruct (h !! c); [apply length_insert|reflexivity].
Qed.

Lemma advances_refl p : advances p p.
Proof.
  split; [exists []; symmetry; apply app_nil_r|]. split; auto.
Qed.

Lemma advances_trans p q r : advances p q -> advances q r -> advances p r.
Proof.
  intros ([m1 H1] & K1 & R1) ([m2 H2] & K2 & R2). split; [|split].
  - exists (m1 ++ m2). rewrite H2, H1, app_assoc. reflexivity.
  - auto.
  - intros Hp. rewrite (R1 Hp) in *. apply R2. exact Hp.
Qed.

Lemma advances_kill sig p : advances p (Supervisor.kill sig p).
Proof.
  unfold Supervisor.kill. destruct (Supervisor.running p) eqn:Hrun.
  - split; [exists [sig]; reflexivity|].
    split; [intros _; reflexivity|intros H; congruence].
  - apply advances_refl.
Qed.

Lemma advances_exit p :
  advances p (Supervisor.mkChild false (Supervisor.killed p) (Supervisor.received p)).
Proof.
  split; [exists []; simpl; symmetry; apply app_nil_r|]. split; [auto|].
  destruct p as [run k rec]. simpl. intros ->. reflexivity.
Qed.

Lemma update_advances c' f h c p :
  (forall x, advances x (f x)) ->
  h !! c = Some p ->
  exists q, Supervisor.update c' f h !! c = Some q /\ advances p q.
Proof.
  intros Hf Hc. destruct (decide (c = c')) as [<-|Hne].
  - exists (f p). split; [apply update_lookup, Hc|apply Hf].
  - exists p. split; [rewrite update_lookup_ne by exact Hne; exact Hc|].
    apply advances_refl.
Qed.

Lemma stop_timeout_advances captured h h' c p :
  Supervisor.stop_timeout captured h = Ok h' ->
  h !! c = Some p ->
  exists q, h' !! c = Some q /\ advances p q.
Proof.
  unfold Supervisor.stop_timeout. destruct captured as [c0|]; [|discriminate].
  destruct (h !! c0) as [p0|] eqn:E0.
  - destruct (negb (Supervisor.killed p0)); intros [= <-] Hc.
    + apply update_advances; [apply advances_kill|exact Hc].
    + exists p. split; [exact Hc|apply advances_refl].
  - intros [= <-] Hc. exists p. split; [exact Hc|apply advances_refl].
Qed.

Lemma step_advances s op c p :
  children s !! c = Some p ->
  exists q, children (step s op) !! c = Some q /\ advances p q.
Proof.
  intros Hc. destruct op as [| | |n|c0]; simpl.
  - unfold restart, kill. destruct (process s) as [c0|]; simpl.
    + destruct (update_advances c0 (Supervisor.kill Supervisor.SIGKILL)
                  (children s) c p (advances_kill _) Hc) as (q & Hq & Hadv).
      exists q. split; [|exact Hadv]. apply lookup_app_l_Some, Hq.
    + exists p. split; [apply lookup_app_l_Some, Hc|apply advances_refl].
  - unfold kill. destruct (process s) as [c0|]; simpl.
    + apply update_advances; [apply advances_kill|exact Hc].
    + exists p. split; [exact Hc|apply advances_refl].
  - unfold stop, Supervisor.stop. simpl. destruct (process s) as [c0|].
    + apply update_advances; [apply advances_kill|exact Hc].
    + exists p. split; [exact Hc|apply advances_refl].
  - unfold timer_fires. destruct (timers s !! n) as [captured|];
      [|exists p; split; [exact Hc|apply advances_refl]].
    destruct (Supervisor.stop_timeout captured (children s)) as [h|e] eqn:E;
      [|exists p; split; [exact Hc|apply advances_refl]].
    simpl. eapply stop_timeout_advances; eassumption.
  - unfold child_exits, Supervisor.child_exits. simpl.
    apply update_advances; [apply advances_exit|exact Hc].
Qed.

Lemma run_advances ops s c p :
  children s !! c = Some p ->
  exists q, children (run ops s) !! c = Some q /\ advances p q.
Proof.
  revert s p. induction ops as [|op ops IH]; intros s p Hc; simpl.
  - exists p. split; [exact Hc|apply advances_refl].
  - destruct (step_advances s op c p Hc) as (q & Hq & Hpq).
    destruct (IH _ q Hq) as (r & Hr & Hqr).
    exists r. split; [exact Hr|eapply advances_trans; eassumption].
Qed.

Lemma advances_still_running p q :
  advances p q -> Supervisor.running q = true -> Supervisor.running p = true.
Proof.
  intros (_ & _ & R) Hq. destruct (Supervisor.running p) eqn:Hp; [reflexivity|].
  rewrite (R eq_refl) in Hq. congruence.
Qed.

Lemma advances_keeps_signal p q sig :
  advances p q -> In sig (Supervisor.received p) -> In sig (Supervisor.received q).
Proof.
  intros ([more ->] & _) Hin. apply in_or_app. left. exact Hin.
Qed.

Lemma step_length s op : length (children s) <= length (children (step s op)).
Proof.
  destruct op as [| | |n|c0]; simpl.
  - unfold restart. simpl. rewrite length_app. unfold kill.
    destruct (process s); simpl; rewrite ?length_update; lia.
  - unfold kill. destruct (process s); simpl; rewrite ?length_update; lia.
  - unfold stop, Supervisor.stop. simpl.
    destruct (process s); rewrite ?length_update; lia.
  - unfold timer_fires. destruct (timers s !! n) as [captured|]; [|lia].
    unfold Supervisor.stop_timeout. destruct captured as [c|]; simpl; [|lia].
    destruct (children s !! c) as [p|]; simpl; [|lia].
    destruct (negb (Supervisor.killed p)); simpl; rewrite ?length_update; lia.
  - unfold child_exits, Supervisor.child_exits. simpl. rewrite length_update. lia.
Qed.

Lemma step_process s op :
  op <> OpRestart -> process (step s op) = process s.
Proof.
  destruct op as [| | |n|c0]; simpl; intros Hop.
  - congruence.
  - unfold kill. destruct (process s) eqn:E; simpl; congruence.
  - reflexivity.
  - unfold timer_fires. destruct (timers s !! n) as [captured|]; [|reflexivity].
    destruct (Supervisor.stop_timeout captured (children s)); reflexivity.
  - reflexivity.
Qed.

Lemma op_restart_dec (op : Op) : {op = OpRestart} + {op <> OpRestart}.
Proof. destruct op; (left; reflexivity) || (right; discriminate). Qed.

Lemma step_condemned s op : condemned s -> condemned (step s op).
Proof.
  intros (Hdead & Hcur & Htimers).
  assert (forall c q, children (step s op) !! c = Some q ->
            c < length (children s) ->
            exists p, children s !! c = Some p /\ advances p q) as Hback.
  { intros c q Hq Hlt. destruct (lookup_lt_is_Some_2 _ _ Hlt) as [p Hp].
    destruct (step_advances s op c p Hp) as (q' & Hq' & Hadv).
    rewrite Hq in Hq'. injection Hq' as <-. exists p. split; assumption. }
  split; [|split].
  - intros c q Hq Hnot Hrun.
    destruct (op_restart_dec op) as [->|Hop].
    + simpl in *. unfold restart in *. simpl in *.
      assert (length (children (kill s)) = length (children s)) as Hlen.
      { unfold kill. destruct (process s); simpl; rewrite ?length_update;
          reflexivity. }
      assert (c < length (children s)) as Hlt.
      { apply lookup_lt_Some in Hq. rewrite length_app, Hlen in Hq. simpl in Hq.
        rewrite Hlen in Hnot. assert (c <> length (children s)) by congruence.
        lia. }
      rewrite lookup_app_l in Hq by (rewrite Hlen; exact Hlt).
      unfold kill in Hq. destruct (process s) as [c0|] eqn:Hproc; simpl in Hq.
      * destruct (decide (c = c0)) as [->|Hne].
        -- destruct (lookup_lt_is_Some_2 _ _ Hlt) as [p Hp].
           rewrite (update_lookup _ _ _ _ Hp) in Hq. injection Hq as <-.
           unfold Supervisor.kill in *.
           destruct (Supervisor.running p) eqn:Hp'; simpl in *;
             [|congruence].
           apply in_or_app. right. left. reflexivity.
        -- rewrite update_lookup_ne in Hq by exact Hne.
           apply (Hdead c q Hq); [congruence|exact Hrun].
      * apply (Hdead c q Hq); [congruence|exact Hrun].
    + rewrite (step_process s op Hop) in Hnot.
      destruct (decide (c < length (children s))) as [Hlt|Hge].
      * destruct (Hback c q Hq Hlt) as (p & Hp & Hadv).
        eapply advances_keeps_signal; [exact Hadv|].
        apply (Hdead c p Hp Hnot). eapply advances_still_running; eassumption.
      * exfalso. destruct op as [| | |n|c0]; simpl in Hq; try congruence.
        -- unfold kill in Hq. destruct (process s); simpl in Hq;
             apply lookup_lt_Some in Hq; rewrite ?length_update in Hq; lia.
        -- unfold stop, Supervisor.stop in Hq. simpl in Hq.
           destruct (process s); apply lookup_lt_Some in Hq;
             rewrite ?length_update in Hq; lia.
        -- unfold timer_fires in Hq.
           destruct (timers s !! n) as [captured|];
             [|apply lookup_lt_Some in Hq; lia].
           unfold Supervisor.stop_timeout in Hq.
           destruct captured as [c1|]; simpl in Hq;
             [|apply lookup_lt_Some in Hq; lia].
           destruct (children s !! c1) as [p1|]; simpl in Hq;
             [|apply lookup_lt_Some in Hq; lia].
           destruct (negb (Supervisor.killed p1)); simpl in Hq;
             apply lookup_lt_Some in Hq; rewrite ?length_update in Hq; lia.
        -- unfold child_exits, Supervisor.child_exits in Hq. simpl in Hq.
           apply lookup_lt_Some in Hq. rewrite length_update in Hq. lia.
  - intros c Hc. destruct (op_restart_dec op) as [->|Hop].
    + simpl in *. unfold restart in *. simpl in *. injection Hc as <-.
      rewrite length_app. simpl. lia.
    + rewrite (step_process s op Hop) in Hc.
      pose proof (step_length s op). specialize (Hcur c Hc). lia.
  - intros n c Hn.
    assert (forall p, children s !! c = Some p ->
              (Supervisor.killed p = true \/ Supervisor.running p = false) ->
              exists q, children (step s op) !! c = Some q /\
                (Supervisor.killed q = true \/ Supervisor.running q = false))
      as Hkeep.
    { intros p Hp Hor. destruct (step_advances s op c p Hp) as (q & Hq & Hadv).
      exists q. split; [exact Hq|]. destruct Hadv as (_ & K & R).
      destruct Hor as [Hk|Hr]; [left; apply K, Hk|right].
      rewrite (R Hr). exact Hr. }
    destruct op as [| | |m|c0]; simpl in Hn.
    + destruct (Htimers n c Hn) as (p & Hp & Hor). exact (Hkeep p Hp Hor).
    + assert (timers (kill s) = timers s) as Ht
        by (unfold kill; destruct (process s); reflexivity).
      rewrite Ht in Hn.
      destruct (Htimers n c Hn) as (p & Hp & Hor). exact (Hkeep p Hp Hor).
    + unfold stop, Supervisor.stop in Hn. simpl in Hn.
      apply lookup_app_Some in Hn as [Hn|[_ Hn]].
      * destruct (Htimers n c Hn) as (p & Hp & Hor). exact (Hkeep p Hp Hor).
      * destruct (n - length (timers s)) as [|j]; [|destruct j; discriminate Hn].
        injection Hn as Hproc. specialize (Hcur c Hproc).
        destruct (lookup_lt_is_Some_2 _ _ Hcur) as [p Hp].
        exists (Supervisor.kill Supervisor.SIGTERM p). split.
        -- simpl. unfold stop, Supervisor.stop. rewrite Hproc. simpl.
           apply update_lookup, Hp.
        -- unfold Supervisor.kill. destruct (Supervisor.running p) eqn:Hr;
             [left; reflexivity|right; exact Hr].
    + assert (timers (timer_fires m s) = timers s) as Ht.
      { unfold timer_fires. destruct (timers s !! m) as [cap|]; [|reflexivity].
        destruct (Supervisor.stop_timeout cap (children s)); reflexivity. }
      rewrite Ht in Hn.
      destruct (Htimers n c Hn) as (p & Hp & Hor). exact (Hkeep p Hp Hor).
    + destruct (Htimers n c Hn) as (p & Hp & Hor). exact (Hkeep p Hp Hor).
Qed.

Lemma run_condemned ops s : condemned s -> condemned (run ops s).
Proof.
  revert s. induction ops as [|op ops IH]; intros s Hs; [exact Hs|].
  simpl. apply IH, step_condemned, Hs.
Qed.

Lemma empty_condemned : condemned empty.
Proof.
  split; [|split].
  - intros c p Hc. discriminate Hc.
  - intros c Hc. discriminate Hc.
  - intros n c Hn. discriminate Hn.
Qed.

End ChildrenFacts.

(** X14.  Whatever the supervisor does afterwards (restart, kill, stop,
    stop timers, exits), a child keeps the signals it has received and its
    [killed] flag, and a child that has exited is left exactly as it is: no
    signal is ever delivered to an exited child and none comes back to
    life. *)
Theorem children_only_advance (ops : list Children.Op) (s : Children.State)
    (c : nat) (p : Supervisor.ChildProcess) :
  Children.children s !! c = Some p ->
  exists q,
    Children.children (Children.run ops s) !! c = Some q /\
    (exists more, Supervisor.received q = Supervisor.received p ++ more) /\
    (Supervisor.killed p = true -> Supervisor.killed q = true) /\
    (Supervisor.running p = false -> q = p).
Proof. intros Hc. exact (run_advances ops s c p Hc). Qed.

Lemma children_only_advance_witness :
  let s := Children.run [Children.OpRestart; Children.OpChildExits 0]
             Children.empty in
  Children.children s !! 0 = Some (Supervisor.mkChild false false []) /\
  Children.children
    (Children.run [Children.OpStop; Children.OpTimerFires 0; Children.OpKill] s) !! 0
  = Some (Supervisor.mkChild false false []).
Proof.
  intros s. split; [reflexivity|].
  destruct (children_only_advance
              [Children.OpStop; Children.OpTimerFires 0; Children.OpKill] s 0
              (Supervisor.mkChild false false []) eq_refl)
    as (q & Hq & _ & _ & Hsame).
  rewrite Hq, (Hsame eq_refl). reflexivity.
Defined.

(** X15.  At most one child is left to live: in every state the supervisor
    reaches, every child other than the current one has exited or has been
    sent SIGKILL. *)
Theorem superseded_children_are_killed (ops : list Children.Op)
    (c : nat) (p : Supervisor.ChildProcess) :
  let s := Children.run ops Children.empty in
  Children.children s !! c = Some p ->
  Children.process s <> Some c ->
  Supervisor.running p = true ->
  In Supervisor.SIGKILL (Supervisor.received p).
Proof.
  intros s. destruct (run_condemned ops Children.empty empty_condemned)
    as (Hdead & _ & _).
  apply Hdead.
Qed.

Lemma superseded_children_are_killed_witness :
  let s := Children.run [Children.OpRestart; Children.OpRestart] Children.empty in
  Children.process s = Some 1 /\
  Children.children s !! 0
  = Some (Supervisor.mkChild true true [Supervisor.SIGKILL]) /\
  In Supervisor.SIGKILL [Supervisor.SIGKILL].
Proof.
  intros s. split; [reflexivity|]. split; [reflexivity|].
  apply (superseded_children_are_killed
           [Children.OpRestart; Children.OpRestart] 0
           (Supervisor.mkChild true true [Supervisor.SIGKILL]) eq_refl).
  - discriminate.
  - reflexivity.
Defined.

(** X16.  The escalation timer of [stop()] never delivers a signal: in
    every state the supervisor reaches, a firing stop timer leaves every child
    and the supervisor's current child as they were.  If [stop()] was called
    with a child, the callback does nothing at all (the child either received
    SIGTERM from [stop()], which set [killed], or had already exited); if
    [stop()] was called without a child, the callback throws a TypeError that
    nothing catches. *)
Theorem stop_timer_never_signals (ops : list Children.Op) (n : nat) :
  let s := Children.run ops Children.empty in
  Children.children (Children.timer_fires n s) = Children.children s /\
  Children.process (Children.timer_fires n s) = Children.process s /\
  (forall c, Children.timers s !! n = Some (Some c) ->
             Children.timer_fires n s = s) /\
  (Children.timers s !! n = Some None ->
   Children.uncaught (Children.timer_fires n s)
   = Children.uncaught s
     ++ [mkError "Cannot read properties of undefined (reading 'killed')"]).
Proof.
  intros s.
  destruct (run_condemned ops Children.empty empty_condemned)
    as (_ & _ & Htimers). fold s in Htimers.
  assert (forall c, Children.timers s !! n = Some (Some c) ->
                    Children.timer_fires n s = s) as Hsame.
  { intros c Hn. unfold Children.timer_fires. rewrite Hn.
    destruct (Htimers n c Hn) as (p & Hp & Hor).
    unfold Supervisor.stop_timeout. rewrite Hp.
    destruct (Supervisor.killed p) eqn:Hk; simpl.
    - destruct s; reflexivity.
    - destruct Hor as [Hor|Hrun]; [discriminate Hor|].
      unfold Supervisor.update. rewrite Hp.
      unfold Supervisor.kill. rewrite Hrun.
      rewrite list_insert_id by exact Hp. destruct s; reflexivity. }
  destruct (Children.timers s !! n) as [[c|]|] eqn:Hn.
  - rewrite (Hsame c eq_refl). split; [reflexivity|]. split; [reflexivity|].
    split; [intros c' _; reflexivity|discriminate].
  - unfold Children.timer_fires. rewrite Hn. simpl.
    split; [reflexivity|]. split; [reflexivity|].
    split; [discriminate|reflexivity].
  - unfold Children.timer_fires. rewrite Hn.
    split; [reflexivity|]. split; [reflexivity|]. split; discriminate.
Qed.

Lemma stop_timer_never_signals_witness :
  let s := Children.run [Children.OpStop; Children.OpRestart; Children.OpStop]
             Children.empty in
  Children.timers s = [None; Some 0] /\
  Children.children s !! 0 = Some (Supervisor.mkChild true true [Supervisor.SIGTERM]) /\
  Children.timer_fires 1 s = s /\
  Children.uncaught (Children.timer_fires 0 s)
  = [mkError "Cannot read properties of undefined (reading 'killed')"].
Proof.
  intros s. split; [reflexivity|]. split; [reflexivity|].
  destruct (stop_timer_never_signals
              [Children.OpStop; Children.OpRestart; Children.OpStop] 1)
    as (_ & _ & Hsame & _).
  split; [exact (Hsame 0 eq_refl)|reflexivity].
Defined.

(** ** Calls one after the other, and sleeping *)

Section SleepFacts.
Import SyncWorker SyncCalls.







End SleepFacts.



Section CallFacts.
Import SyncWorker SyncCalls.

(** What one [call] does to the counters and to the port, whatever its
    outcome. *)
Lemma run_main_call_posts status a v :
  let v1 := snd (run_main status (call a) v) in
  view_idCounter v1 = (view_idCounter v + 1)%Z /\
  view_buffers v1 = S (view_buffers v) /\
  view_sent v1 = view_sent v ++ [mkCall (view_idCounter v) a (view_buffers v)].
Proof.
  unfold call. simpl. unfold after_wait.
  destruct (String.eqb status "timed-out"); [simpl; auto|].
  destruct (negb (String.eqb status "ok") && negb (String.eqb status "not-equal"));
    simpl; auto.
Qed.

Lemma run_main_call_timed_out a v :
  run_main "timed-out" (call a) v
  = (Thrown (VError timed_out_message),
     mkView (view_idCounter v + 1) (S (view_buffers v))
            (view_sent v ++ [mkCall (view_idCounter v) a (view_buffers v)])
            (view_inbox v)).
Proof. reflexivity. Qed.

Lemma run_main_call_woken status a v :
  status = "ok" \/ status = "not-equal" ->
  run_main status (call a) v
  = (after_receive (view_idCounter v) (head (view_inbox v)),
     mkView (view_idCounter v + 1) (S (view_buffers v))
            (view_sent v ++ [mkCall (view_idCounter v) a (view_buffers v)])
            (tail (view_inbox v))).
Proof. intros [->| ->]; reflexivity. Qed.

End CallFacts.

(** X18.  Calls made one after the other are posted in order with
    consecutive ids and each with a fresh shared buffer, whatever the
    outcomes of the earlier calls: a call that timed out or threw still uses
    up its id and its buffer. *)
Theorem sync_calls_are_numbered (calls : list (string * list SyncWorker.JsValue))
    (v : SyncWorker.MainView) :
  let v' := snd (SyncCalls.run_calls calls v) in
  SyncWorker.view_sent v'
  = SyncWorker.view_sent v
    ++ SyncCalls.posted calls (SyncWorker.view_idCounter v) (SyncWorker.view_buffers v) /\
  SyncWorker.view_idCounter v'
  = (SyncWorker.view_idCounter v + Z.of_nat (length calls))%Z /\
  SyncWorker.view_buffers v' = SyncWorker.view_buffers v + length calls /\
  length (fst (SyncCalls.run_calls calls v)) = length calls.
Proof.
  revert v. induction calls as [|[status a] rest IH]; intros v.
  - simpl. rewrite app_nil_r, Z.add_0_r, Nat.add_0_r. auto.
  - cbn [SyncCalls.run_calls SyncCalls.posted length].
    pose proof (run_main_call_posts status a v) as Hone.
    destruct (SyncWorker.run_main status (SyncWorker.call a) v) as [o v1].
    cbn [snd] in Hone. destruct Hone as (Hid & Hbuf & Hsent).
    specialize (IH v1).
    destruct (SyncCalls.run_calls rest v1) as [os v2]. cbn [fst snd] in *.
    destruct IH as (IHsent & IHid & IHbuf & IHlen).
    rewrite IHsent, IHid, IHbuf, Hsent, Hid, Hbuf, <- app_assoc.
    cbn [length]. rewrite IHlen.
    split; [reflexivity|]. split; [lia|]. split; [lia|reflexivity].
Qed.

(** X19.  A response that arrives after its call has timed out is never
    discarded: the call that timed out leaves the port untouched, and the
    next call that is woken takes that stale response and throws the
    incorrect-id error, leaving the later responses on the port. *)
Theorem sync_stale_response_fails_next_call (a1 a2 : list SyncWorker.JsValue)
    (status : string) (v : SyncWorker.MainView)
    (r : SyncWorker.SyncWorkerResponse) (rest : list SyncWorker.SyncWorkerResponse) :
  SyncWorker.view_inbox v = [] ->
  SyncWorker.id r = SyncWorker.view_idCounter v ->
  status = "ok" \/ status = "not-equal" ->
  let first := SyncWorker.run_main "timed-out" (SyncWorker.call a1) v in
  let second :=
    SyncWorker.run_main status (SyncWorker.call a2)
                        (SyncCalls.arrive (r :: rest) (snd first)) in
  fst first = SyncWorker.Thrown (SyncWorker.VError SyncWorker.timed_out_message) /\
  fst second
  = SyncWorker.Thrown
      (SyncWorker.VError
         (SyncWorker.incorrect_id_message (SyncWorker.id r + 1) (SyncWorker.id r))) /\
  SyncWorker.view_inbox (snd second) = rest.
Proof.
  intros Hinbox Hid Hstatus first second. subst first second.
  rewrite run_main_call_timed_out. cbn [fst snd].
  rewrite (run_main_call_woken status a2 _ Hstatus). cbn [fst snd].
  unfold SyncCalls.arrive. cbn [SyncWorker.view_inbox SyncWorker.view_idCounter].
  rewrite Hinbox. cbn [app head tail]. unfold SyncWorker.after_receive.
  rewrite Hid.
  destruct (Z.eqb_spec (SyncWorker.view_idCounter v) (SyncWorker.view_idCounter v + 1));
    [lia|]. cbn [negb]. auto.
Qed.

Lemma sync_stale_response_fails_next_call_witness :
  let v := SyncWorker.mkView 3 3 [] [] in
  let r := SyncWorker.mkResponse 3 (SyncWorker.VString "late") SyncWorker.VUndefined in
  let first :=
    SyncWorker.run_main "timed-out" (SyncWorker.call [SyncWorker.VString "/ws/a.ts"]) v in
  let second :=
    SyncWorker.run_main "ok" (SyncWorker.call [SyncWorker.VString "/ws/b.ts"])
                        (SyncCalls.arrive [r] (snd first)) in
  fst first = SyncWorker.Thrown (SyncWorker.VError SyncWorker.timed_out_message) /\
  fst second
  = SyncWorker.Thrown
      (SyncWorker.VError (SyncWorker.incorrect_id_message (3 + 1) 3)) /\
  SyncWorker.view_inbox (snd second) = [].
Proof.
  intros v r.
  apply (sync_stale_response_fails_next_call
           [SyncWorker.VString "/ws/a.ts"] [SyncWorker.VString "/ws/b.ts"]
           "ok" v r []); [reflexivity|reflexivity|left; reflexivity].
Defined.
